(** * copt.stochastic: SAGA and PSSAGA solvers

    A shallow embedding of [copt/stochastic.py] and the properties of its
    gradient memory, epoch kernels, block-support index and drivers.

    Floating point numbers are rendered as exact rationals ([Qc], rationals
    in lowest terms, so that equality is Leibniz equality).  NumPy arrays are
    lists; an index array holds naturals.  The kernels are compiled by numba
    without bounds checks, so an access outside an array has no meaning in
    the source: reads are total here (default [0]) and a write outside the
    array leaves it as it is, and the theorems state the shape hypotheses
    under which every access is inside its array. *)

From Stdlib Require Import QArith Qcanon Lia Lqa Sorted.
From stdpp Require Import base list gmap numbers sorting strings.

#[global] Instance Qc_inhabited : Inhabited Qc := populate 0%Qc.

(** ** NumPy and SciPy primitives used by the module *)

Module Np.

(** [range(lo, hi)] *)
Definition range (lo hi : nat) : list nat := seq lo (hi - lo).

(** [np.zeros(n)] *)
Definition zeros (n : nat) : list Qc := replicate n 0%Qc.

(** [np.zeros(n, dtype=np.int64)] *)
Definition izeros (n : nat) : list nat := replicate n 0.

(** [np.arange(n)] *)
Definition arange (n : nat) : list nat := seq 0 n.

(** A float obtained from an integer, as in [x / n_samples]. *)
Definition of_nat (n : nat) : Qc := Q2Qc (inject_Z (Z.of_nat n)).

(** Sum of the elements of an array. *)
Definition sum (l : list Qc) : Qc := foldr Qcplus 0%Qc l.

(** Insertion in a sorted list without repetition. *)
Fixpoint insert_sorted (v : nat) (l : list nat) : list nat :=
  match l with
  | [] => [v]
  | w :: l' =>
      if decide (v < w) then v :: l
      else if decide (v = w) then l
      else w :: insert_sorted v l'
  end.

(** [np.unique(a)]: the sorted distinct values of [a]. *)
Definition unique (a : list nat) : list nat := foldr insert_sorted [] a.

End Np.

(** A [scipy.sparse.csr_matrix]: values, column indices, row pointers and
    shape [(n_rows, n_cols)]. *)
Record csr_matrix := CSR {
  data : list Qc;
  indices : list nat;
  indptr : list nat;
  shape : nat * nat
}.

(** The positions, in [data] and [indices], of the stored entries of row [i]:
    [range(A_indptr[i], A_indptr[i+1])]. *)
Definition row_range (A_indptr : list nat) (i : nat) : list nat :=
  Np.range (A_indptr !!! i) (A_indptr !!! (i + 1)).

(** ** Loss derivatives and proximal operators of the module *)

Section Callables.
Local Open Scope Qc_scope.

(** [deriv_squared(p, y)] *)
Definition deriv_squared (p y : Qc) : Qc := - (y - p).

(** [np.fmax] on two numbers. *)
Definition fmax (a c : Qc) : Qc := if decide (a < c) then c else a.

(** [prox_L1(step_size, x, low, high)], in place on [x]. *)
Definition prox_L1 (step_size : Qc) (x : list Qc) (low high : nat) : list Qc :=
  foldl (fun x j =>
           <[j := fmax (x !!! j - step_size) 0 - fmax (- (x !!! j) - step_size) 0]> x)
        x (Np.range low high).

(** A proximal operator in the calling convention of [fmin_SAGA]:
    [g_prox(step, x, low, high)] mutates [x]; the function gives the
    contents of [x] after the call. *)
Definition prox := Qc -> list Qc -> nat -> nat -> list Qc.

End Callables.

(** ** The closures returned by [_epoch_factory_sparse_SAGA] *)

Module SAGA.
Section Factory.
Local Open Scope Qc_scope.
Variable f_prime : Qc -> Qc -> Qc.
Variable g_prox : prox.
Variable A : csr_matrix.
Variable b : list Qc.
Variables alpha beta : Qc.

Let A_data := data A.
Let A_indices := indices A.
Let A_indptr := indptr A.
Let n_samples := fst (shape A).
Let n_features := snd (shape A).

(** Body of the inner loop of [init_gradient]. *)
Definition init_accumulate (ns : nat) (grad_i : Qc)
    (gradient_average : list Qc) (j : nat) : list Qc :=
  let j_idx := A_indices !!! j in
  <[j_idx := gradient_average !!! j_idx + grad_i * (A_data !!! j) / Np.of_nat ns]>
    gradient_average.

(** [init_gradient(memory_gradient, gradient_average, n_samples)]: the
    contents of the two arrays after the call. *)
Definition init_gradient (memory_gradient gradient_average : list Qc)
    (ns : nat) : list Qc * list Qc :=
  foldl (fun '(memory_gradient, gradient_average) i =>
           let grad_i := f_prime 0 (b !!! i) in
           let memory_gradient := <[i := grad_i]> memory_gradient in
           (memory_gradient,
            foldl (init_accumulate ns grad_i) gradient_average
                  (row_range A_indptr i)))
        (memory_gradient, gradient_average) (Np.range 0 ns).

(** The prediction [p] of sample [i]. *)
Definition prediction (x : list Qc) (i : nat) : Qc :=
  foldl (fun p j => p + (x !!! (A_indices !!! j)) * (A_data !!! j))
        0 (row_range A_indptr i).

(** Body of the loop "update coefficients". *)
Definition update_coefficient (step_size grad_i mem_i : Qc)
    (gradient_average : list Qc) (x : list Qc) (j : nat) : list Qc :=
  let j_idx := A_indices !!! j in
  let x_j := x !!! j_idx in
  let incr := (grad_i - mem_i) * (A_data !!! j)
              + (gradient_average !!! j_idx + alpha * x_j) in
  let x_new := x_j - step_size * incr in
  <[j_idx := x_new]> x.

(** Body of the loop "update memory terms"; [memory_gradient[i]] is read
    again at every pass. *)
Definition update_average (grad_i : Qc) (memory_gradient : list Qc) (i : nat)
    (gradient_average : list Qc) (j : nat) : list Qc :=
  let j_idx := A_indices !!! j in
  <[j_idx := gradient_average !!! j_idx
             + (grad_i - memory_gradient !!! i) * (A_data !!! j) / Np.of_nat n_samples]>
    gradient_average.

(** One pass of the loop [for i in sample_indices] on the state
    [(x, memory_gradient, gradient_average)]. *)
Definition sample_update (step_size : Qc)
    (st : list Qc * list Qc * list Qc) (i : nat) : list Qc * list Qc * list Qc :=
  let '(x, memory_gradient, gradient_average) := st in
  let p := prediction x i in
  let grad_i := f_prime p (b !!! i) in
  let mem_i := memory_gradient !!! i in
  let x := foldl (update_coefficient step_size grad_i mem_i gradient_average)
                 x (row_range A_indptr i) in
  let x := g_prox (step_size * beta) x 0%nat n_features in
  let gradient_average :=
    foldl (update_average grad_i memory_gradient i) gradient_average
          (row_range A_indptr i) in
  let memory_gradient :=
    <[i := memory_gradient !!! i + (grad_i - mem_i)]> memory_gradient in
  (x, memory_gradient, gradient_average).

(** [epoch_iteration_template(x, memory_gradient, gradient_average,
    sample_indices, step_size)]: the contents of the three arrays after the
    call. *)
Definition epoch_iteration_template (x memory_gradient gradient_average : list Qc)
    (sample_indices : list nat) (step_size : Qc) : list Qc * list Qc * list Qc :=
  foldl (sample_update step_size) (x, memory_gradient, gradient_average)
        sample_indices.

End Factory.
End SAGA.

(** ** [_support_matrix]: the block-support index *)

(** The local variables of [_support_matrix] that its loops update. *)
Record support_state := SupportState {
  BS_indices : list nat;
  BS_indptr : list nat;
  seen_blocks : list nat;
  counter_indptr : nat
}.

(** Body of the loop over the stored entries [j] of a row. *)
Definition support_visit (A_indices g_blocks : list nat)
    (s : support_state) (j : nat) : support_state :=
  let g_idx := g_blocks !!! (A_indices !!! j) in
  if decide (seen_blocks s !!! g_idx = 0) then
    {| BS_indices := <[counter_indptr s := g_idx]> (BS_indices s);
       BS_indptr := BS_indptr s;
       seen_blocks := <[g_idx := 1]> (seen_blocks s);
       counter_indptr := (counter_indptr s + 1) |}
  else s.

(** Body of the cleanup loop. *)
Definition support_cleanup (BS_ind : list nat) (seen : list nat) (j : nat) : list nat :=
  <[BS_ind !!! j := 0]> seen.

(** Body of the loop over the rows [i]. *)
Definition support_row (A_indices A_indptr g_blocks : list nat)
    (s : support_state) (i : nat) : support_state :=
  let low := A_indptr !!! i in
  let high := A_indptr !!! (i + 1) in
  let s := foldl (support_visit A_indices g_blocks) s (Np.range low high) in
  let ptr := <[(i + 1) := counter_indptr s]> (BS_indptr s) in
  {| BS_indices := BS_indices s;
     BS_indptr := ptr;
     seen_blocks := foldl (support_cleanup (BS_indices s)) (seen_blocks s)
                          (Np.range (ptr !!! i) (counter_indptr s));
     counter_indptr := counter_indptr s |}.

(** The state when the loop over the rows ends. *)
Definition support_loop (A_indices A_indptr g_blocks : list nat) (n_blocks : nat)
    : support_state :=
  foldl (support_row A_indices A_indptr g_blocks)
        {| BS_indices := Np.izeros (length A_indices);
           BS_indptr := <[0 := 0]> (Np.izeros (length A_indptr));
           seen_blocks := Np.izeros n_blocks;
           counter_indptr := 0 |}
        (Np.range 0 (length A_indptr - 1)).

(** [_support_matrix(A_indices, A_indptr, g_blocks, n_blocks)]: returns
    [(BS_data, BS_indices[:counter_indptr], BS_indptr)]. *)
Definition _support_matrix (A_indices A_indptr g_blocks : list nat) (n_blocks : nat)
    : list Qc * list nat * list nat :=
  let s := support_loop A_indices A_indptr g_blocks n_blocks in
  (replicate (counter_indptr s) 1%Qc, take (counter_indptr s) (BS_indices s), BS_indptr s).

(** The blocks of row [i] of a block-support index given by its flat ids and
    row pointers: [BS_indices[BS_indptr[i]:BS_indptr[i+1]]]. *)
Definition support_of_row (BS_ind BS_ptr : list nat) (i : nat) : list nat :=
  take (BS_ptr !!! (i + 1) - BS_ptr !!! i) (drop (BS_ptr !!! i) BS_ind).

(** ** Exceptions and the set-up shared by the two factories *)

(** The exceptions a call can end with.  [ValueError] is the bare
    [raise ValueError] of the step-size check; [SciPyValueError] is the
    [ValueError('unable to infer matrix dimensions')] that SciPy raises. *)
Inductive exn :=
  | AssertionError
  | ValueError
  | SciPyValueError
  | NotImplementedError
  | IndexError
  | UnboundLocalError.

#[global] Instance exn_eq_dec : EqDecision exn.
Proof. solve_decision. Defined.

(** The test [np.all(unique_blocks == np.arange(n_blocks))] of the two
    factories, with [n_blocks = np.unique(blocks).size]. *)
Definition blocks_contiguous (blocks : list nat) : bool :=
  bool_decide (Np.unique blocks = Np.arange (length (Np.unique blocks))).

(** The row pointers of [reverse_blocks.tocsr()], where [reverse_blocks] is
    the [n_blocks] by [n_features] boolean matrix with a stored [True] at
    [(blocks[j], j)] for every feature [j]: row [h] holds one entry for each
    feature of block [h], so its pointer is the number of features in the
    blocks before [h]. *)
Definition reverse_indptr (blocks : list nat) (n_blocks : nat) : list nat :=
  (fun h => length (filter (fun v => v < h) blocks)) <$> seq 0 (S n_blocks).

(** ** The closures returned by [_factory_sparse_PSSAGA] *)

(** A proximal operator in the calling convention of the first term of
    [fmin_PSSAGA]: [g_prox(step, y, x, low, high, weights)] may mutate its
    two arrays; the function gives their contents [(y, x)] after the call. *)
Definition prox2 :=
  Qc -> list Qc -> list Qc -> nat -> nat -> list Qc -> list Qc * list Qc.

Module PSSAGA.

(** The arrays an epoch kernel works on: the three coefficient vectors, the
    gradient memory and its average, and the buffer [grad_est], local to one
    call. *)
Record state := State {
  y : list Qc;
  x : list Qc;
  z : list Qc;
  memory_gradient : list Qc;
  gradient_average : list Qc;
  grad_est : list Qc
}.

Section Factory.
Local Open Scope Qc_scope.
Variable f_prime : Qc -> Qc -> Qc.
Variable g_prox : prox2.
Variable h_prox : prox.
Variable h_blocks : list nat.
Variable A : csr_matrix.
Variable b : list Qc.
Variables alpha beta gamma : Qc.

Let A_data := data A.
Let A_indices := indices A.
Let A_indptr := indptr A.
Let n_samples := fst (shape A).
Let n_features := snd (shape A).

Definition n_blocks_h : nat := length (Np.unique h_blocks).

Definition BS_h : list Qc * list nat * list nat :=
  _support_matrix A_indices A_indptr h_blocks n_blocks_h.
Definition BS_h_indices : list nat := snd (fst BS_h).
Definition BS_h_indptr : list nat := snd BS_h.

(** [RB_h_indptr]: the row pointers of [reverse_blocks_h.tocsr()].  The
    factory stores an entry at [(h_blocks[j_], j_)] for [j_] in
    [range(n_features)], so only the first [n_features] entries of
    [h_blocks] count. *)
Definition RB_h_indptr : list nat :=
  reverse_indptr (take n_features h_blocks) n_blocks_h.

(** The number of columns that [sparse.csr_matrix((data, indices, indptr))]
    infers: [indices.max() + 1]. *)
Definition BS_h_columns : nat := S (foldr Nat.max 0%nat BS_h_indices).

(** [d_h]: the column sums of [BS_h] (stored values are all [1]), then
    [n_samples / d_h] where the sum is not zero and [1] elsewhere. *)
Definition d_h : list Qc :=
  (fun h => let c := length (filter (fun v => v = h) BS_h_indices) in
            if decide (c = 0%nat) then 1 else Np.of_nat n_samples / Np.of_nat c)
    <$> seq 0 BS_h_columns.

(** [d_weights] *)
Definition d_weights : list Qc :=
  foldl (fun w h =>
           foldl (fun w b_j => <[b_j := 1 / (d_h !!! h)]> w) w
                 (Np.range (RB_h_indptr !!! h) (RB_h_indptr !!! (h + 1)%nat)))
        (Np.zeros n_features) (Np.range 0 n_blocks_h).

(** What the body of the factory raises, if anything, before it returns its
    closures: the assertion on the block ids; the error of SciPy when no
    column count can be inferred for [BS_h] (no stored entry); the index
    error of [h_blocks[j_]] when the block assignment has fewer entries than
    there are features; the index error of [d_h[h]], which the loop that
    fills [d_weights] reads for every block that holds a feature, when such
    a block lies past the inferred columns. *)
Definition factory_raises : option exn :=
  if negb (blocks_contiguous h_blocks) then Some AssertionError
  else if decide (BS_h_indices = []) then Some SciPyValueError
  else if decide (length h_blocks < n_features)%nat then Some IndexError
  else if decide (Exists (fun h => (BS_h_columns <= h)%nat
                                   /\ (RB_h_indptr !!! h < RB_h_indptr !!! (h + 1))%nat)
                         (Np.range 0 n_blocks_h))
       then Some IndexError
  else None.

(** [init_gradient(memory_gradient, gradient_average, n_samples)] *)
Definition init_gradient (memory_gradient gradient_average : list Qc)
    (ns : nat) : list Qc * list Qc :=
  foldl (fun '(memory_gradient, gradient_average) i =>
           let grad_i := f_prime 0 (b !!! i) in
           let memory_gradient := <[i := grad_i]> memory_gradient in
           (memory_gradient,
            foldl (fun gradient_average j =>
                     let j_idx := A_indices !!! j in
                     <[j_idx := gradient_average !!! j_idx
                                + grad_i * (A_data !!! j) / Np.of_nat ns]>
                       gradient_average)
                  gradient_average (row_range A_indptr i)))
        (memory_gradient, gradient_average) (Np.range 0 ns).

(** The first loop over the blocks of sample [i]: [g_prox] on each. *)
Definition prox_g_block (step_size : Qc) (s : state) (h_j : nat) : state :=
  let h := BS_h_indices !!! h_j in
  let '(y', x') := g_prox (step_size * beta) (y s) (x s)
                          (RB_h_indptr !!! h) (RB_h_indptr !!! (h + 1)%nat) d_weights in
  {| y := y'; x := x'; z := z s; memory_gradient := memory_gradient s;
     gradient_average := gradient_average s; grad_est := grad_est s |}.

(** The prediction [p] of sample [i]. *)
Definition prediction (x : list Qc) (i : nat) : Qc :=
  foldl (fun p j => p + (x !!! (A_indices !!! j)) * (A_data !!! j))
        0 (row_range A_indptr i).

(** Body of the loop "gradient estimate". *)
Definition estimate (grad_i : Qc) (memory_gradient : list Qc) (i : nat)
    (grad_est : list Qc) (j : nat) : list Qc :=
  <[A_indices !!! j := (grad_i - memory_gradient !!! i) * (A_data !!! j)]> grad_est.

(** Body of the loop "iterate on features inside block". *)
Definition reflect (step_size : Qc) (h : nat) (s : state) (z : list Qc) (b_j : nat)
    : list Qc :=
  let bias_term := (d_h !!! h) * (gradient_average s !!! b_j + alpha * (x s !!! b_j)) in
  <[b_j := 2 * (x s !!! b_j) - y s !!! b_j
           - step_size * (grad_est s !!! b_j + bias_term)]> z.

(** Body of the loop "iterate on blocks". *)
Definition prox_h_block (step_size : Qc) (s : state) (h_j : nat) : state :=
  let h := BS_h_indices !!! h_j in
  let low := RB_h_indptr !!! h in
  let high := RB_h_indptr !!! (h + 1)%nat in
  let z1 := foldl (reflect step_size h s) (z s) (Np.range low high) in
  let z2 := h_prox ((d_h !!! h) * step_size * gamma) z1 low high in
  let y' := foldl (fun y b_j => <[b_j := y !!! b_j - (x s !!! b_j - z2 !!! b_j)]> y)
                  (y s) (Np.range low high) in
  {| y := y'; x := x s; z := z2; memory_gradient := memory_gradient s;
     gradient_average := gradient_average s; grad_est := grad_est s |}.

(** Body of the loop "update memory terms" on [(gradient_average, grad_est)]. *)
Definition update_average (grad_i : Qc) (memory_gradient : list Qc) (i : nat)
    (ge : list Qc * list Qc) (j : nat) : list Qc * list Qc :=
  let j_idx := A_indices !!! j in
  (<[j_idx := fst ge !!! j_idx
              + (grad_i - memory_gradient !!! i) * (A_data !!! j) / Np.of_nat n_samples]>
     (fst ge),
   <[j_idx := 0]> (snd ge)).

(** One pass of the loop [for i in sample_indices]. *)
Definition sample_update (step_size : Qc) (s : state) (i : nat) : state :=
  let blocks_i := Np.range (BS_h_indptr !!! i) (BS_h_indptr !!! (i + 1)%nat) in
  let s := foldl (prox_g_block step_size) s blocks_i in
  let p := prediction (x s) i in
  let grad_i := f_prime p (b !!! i) in
  let s := {| y := y s; x := x s; z := z s; memory_gradient := memory_gradient s;
              gradient_average := gradient_average s;
              grad_est := foldl (estimate grad_i (memory_gradient s) i) (grad_est s)
                                (row_range A_indptr i) |} in
  let s := foldl (prox_h_block step_size) s blocks_i in
  let ge := foldl (update_average grad_i (memory_gradient s) i)
                  (gradient_average s, grad_est s) (row_range A_indptr i) in
  {| y := y s; x := x s; z := z s;
     memory_gradient := <[i := grad_i]> (memory_gradient s);
     gradient_average := fst ge; grad_est := snd ge |}.

(** [epoch_iteration_template(y, x, z, memory_gradient, gradient_average,
    sample_indices, step_size)]: the contents of the five arrays after the
    call; [grad_est] starts as [np.zeros(n_features)]. *)
Definition epoch_iteration_template (y x z memory_gradient gradient_average : list Qc)
    (sample_indices : list nat) (step_size : Qc) : state :=
  foldl (sample_update step_size)
        {| y := y; x := x; z := z; memory_gradient := memory_gradient;
           gradient_average := gradient_average; grad_est := Np.zeros n_features |}
        sample_indices.

End Factory.
End PSSAGA.

(** ** The store of arrays

    The drivers allocate arrays and hand them to the kernels by reference;
    an array lives at a location of a heap, [x.copy()] allocates a fresh
    location, and a kernel call writes the new contents at the locations it
    was given. *)

Definition loc := nat.
Abbreviation heap := (gmap loc (list Qc)).

(** Allocation of a new array with contents [v]. *)
Definition alloc (h : heap) (v : list Qc) : loc * heap :=
  let l := fresh (dom h) in (l, <[l := v]> h).

(** [a.copy()] *)
Definition np_copy (h : heap) (a : loc) : loc * heap := alloc h (h !!! a).

(** An optional callable argument: [None], a callable, or any other object. *)
Inductive callable_arg (P : Type) :=
  | IsNone
  | IsCallable (f : P)
  | IsOther.
Arguments IsNone {P}.
Arguments IsCallable {P} f.
Arguments IsOther {P}.

(** What a driver call leaves behind: the heap, the sample sequences handed
    to the epoch kernel, in order, and either the exception raised or the
    value returned. *)
Record run (R : Type) := Run {
  final_heap : heap;
  dispatched : list (list nat);
  outcome : exn + R
}.
Arguments Run {R}.
Arguments final_heap {R}.
Arguments dispatched {R}.
Arguments outcome {R}.

Section Norm.
Local Open Scope Qc_scope.

(** [u - v] on arrays of one size. *)
Definition vsub (u v : list Qc) : list Qc := zip_with Qcminus u v.

(** [u + v] on arrays of one size. *)
Definition vadd (u v : list Qc) : list Qc := zip_with Qcplus u v.

(** [c * v] *)
Definition vscale (c : Qc) (v : list Qc) : list Qc := Qcmult c <$> v.

(** The square of [np.linalg.norm(v)].  The norm itself is a square root;
    the model keeps its square, which is rational. *)
Definition norm_sq (v : list Qc) : Qc := Np.sum ((fun c => c * c) <$> v).

(** [certificate < tol], decided on the square of the certificate: a norm
    is below [tol] when [tol] is positive and the squares compare. *)
Definition below_tol (certificate_sq tol : Qc) : bool :=
  bool_decide (0 < tol) && bool_decide (certificate_sq < tol * tol).
End Norm.

(** ** [fmin_SAGA]

    The call is modelled for [n_jobs=1] (one kernel call is submitted to the
    pool in each iteration, and waited for), [callback=None] and
    [verbose=False].  With no sample at all the warm-up call reads outside
    the row pointers, which has no meaning in the source. *)

Module FminSAGA.

(** The arguments of a call.  [x0] is the location of the caller's array;
    [draws it] is the array that [np.random.randint] returns at iteration
    [it]. *)
Record args := Args {
  fun_deriv : Qc -> Qc -> Qc;
  A : csr_matrix;
  b : list Qc;
  x0 : loc;
  alpha : Qc;
  beta : Qc;
  g_prox : callable_arg prox;
  step_size : Qc;
  g_blocks : option (list nat);
  max_iter : nat;
  tol : Qc;
  trace : bool;
  draws : nat -> list nat
}.

(** The local variables that the loop on epochs updates.  [it] and
    [certificate] are unbound until the first pass; [certificate] holds the
    square of the norm, and [None] in [trace_certificate] is [np.inf]. *)
Record locals := Locals {
  success : bool;
  it : option nat;
  certificate : option Qc;
  trace_x : list (list Qc);
  trace_certificate : list (option Qc)
}.

(** The fields of the returned [OptimizeResult], without the timings;
    [res_x] is the location of the solution, and [trace_func], the objective
    at every point of [trace_x] when [trace] is set, is given by these
    points. *)
Record result := Result {
  res_x : loc;
  res_success : bool;
  res_nit : nat;
  res_trace_points : list (list Qc);
  res_certificate : Qc;
  res_trace_certificate : list (option Qc)
}.

(** The identity that replaces [g_prox=None]:
    [def g_prox(step_size, x, *args): return x]. *)
Definition default_g_prox : prox := fun _ x _ _ => x.

(** The block assignment in use: the one given, else
    [np.zeros(n_features, dtype=np.int64)]. *)
Definition resolve_g_blocks (g_blocks : option (list nat)) (n_features : nat) : list nat :=
  match g_blocks with
  | Some g => g
  | None => Np.izeros n_features
  end.

Section Call.
Local Open Scope Qc_scope.
Variable a : args.

Let n_samples := fst (shape (A a)).
Let n_features := snd (shape (A a)).

(** A call of the epoch kernel on arrays given by reference. *)
Definition epoch_iteration (prox_g : prox) (h : heap) (x mg ga : loc)
    (sample_indices : list nat) : heap :=
  let '(x', mg', ga') :=
    SAGA.epoch_iteration_template (fun_deriv a) prox_g (A a) (b a) (alpha a) (beta a)
      (h !!! x) (h !!! mg) (h !!! ga) sample_indices (step_size a) in
  <[ga := ga']> (<[mg := mg']> (<[x := x']> h)).

(** The warm-up call, on a copy of [x]. *)
Definition warm_up (prox_g : prox) (h : heap) (x mg ga : loc) : heap :=
  let '(xc, h) := np_copy h x in
  epoch_iteration prox_g h xc mg ga [0%nat].

(** The certificate of the current point, squared. *)
Definition certificate_sq (prox_g : prox) (x gradient_average : list Qc) : Qc :=
  let grad := vadd gradient_average (vscale (alpha a) x) in
  let z := vsub x (vscale (step_size a) grad) in
  let z := prox_g (beta a * step_size a) z 0%nat n_features in
  norm_sq (vsub x z).

(** The loop [for it in range(max_iter)], on the iterations left. *)
Fixpoint epochs (prox_g : prox) (x mg ga : loc) (its : list nat)
    (h : heap) (log : list (list nat)) (v : locals)
    : heap * list (list nat) * locals :=
  match its with
  | [] => (h, log, v)
  | i :: its' =>
      let perm := draws a i in
      let h := epoch_iteration prox_g h x mg ga perm in
      let log := log ++ [perm] in
      let c := certificate_sq prox_g (h !!! x) (h !!! ga) in
      let v := {| success := success v; it := Some i; certificate := Some c;
                  trace_x := if trace a then trace_x v ++ [h !!! x] else trace_x v;
                  trace_certificate :=
                    if trace a then trace_certificate v ++ [Some c]
                    else trace_certificate v |} in
      if below_tol c (tol a) then
        (h, log, {| success := true; it := it v; certificate := certificate v;
                    trace_x := trace_x v; trace_certificate := trace_certificate v |})
      else epochs prox_g x mg ga its' h log v
  end.

(** The heap after the epochs of the iterations [its], when none stops
    the loop. *)
Definition run_epochs (prox_g : prox) (x mg ga : loc) (its : list nat) (h : heap) : heap :=
  foldl (fun h i => epoch_iteration prox_g h x mg ga (draws a i)) h its.

(** The call, from its first statement to its [return]. *)
Definition fmin_SAGA (h : heap) : run result :=
  let '(x, h) := np_copy h (x0 a) in
  if negb (bool_decide (length (h !!! x) = n_features)) then Run h [] (inl AssertionError)
  else if negb (bool_decide (n_samples = length (b a))) then Run h [] (inl AssertionError)
  else if bool_decide (step_size a < 0) then Run h [] (inl ValueError)
  else
    match (match g_prox a with
           | IsCallable f => Some f
           | IsNone => Some default_g_prox
           | IsOther => None
           end) with
    | None => Run h [] (inl NotImplementedError)
    | Some prox_g =>
        let blocks := resolve_g_blocks (g_blocks a) n_features in
        if negb (blocks_contiguous blocks) then Run h [] (inl AssertionError)
        else
          let '(mg, h) := alloc h (Np.zeros n_samples) in
          let '(ga, h) := alloc h (Np.zeros n_features) in
          let '(mg', ga') :=
            SAGA.init_gradient (fun_deriv a) (A a) (b a) (h !!! mg) (h !!! ga) n_samples in
          let h := <[ga := ga']> (<[mg := mg']> h) in
          let h := warm_up prox_g h x mg ga in
          let log := [[0%nat]] in
          let v := {| success := false; it := None; certificate := None;
                      trace_x := [h !!! x]; trace_certificate := [None] |} in
          let '(h, log, v) := epochs prox_g x mg ga (Np.range 0 (max_iter a)) h log v in
          match it v, certificate v with
          | Some n, Some c =>
              Run h log (inr {| res_x := x; res_success := success v; res_nit := n;
                                res_trace_points := if trace a then trace_x v else [];
                                res_certificate := c;
                                res_trace_certificate := trace_certificate v |})
          | _, _ => Run h log (inl UnboundLocalError)
          end
    end.
End Call.
End FminSAGA.

(** ** [fmin_PSSAGA]

    The call is modelled for [callback=None] and [verbose=False].  It does
    not check the size of [x0]: with fewer entries than there are features
    the kernel reads and writes outside [y], [x] and [z], which has no
    meaning in the source. *)

Module FminPSSAGA.

(** The arguments of a call; [draws it] is the array that
    [np.random.permutation] returns at iteration [it]. *)
Record args := Args {
  fun_deriv : Qc -> Qc -> Qc;
  A : csr_matrix;
  b : list Qc;
  x0 : loc;
  g_prox : callable_arg prox2;
  h_prox : callable_arg prox;
  alpha : Qc;
  beta : Qc;
  gamma : Qc;
  step_size : Qc;
  h_blocks : option (list nat);
  max_iter : nat;
  tol : Qc;
  trace : bool;
  draws : nat -> list nat
}.

(** The local variables that the loop on epochs updates, as in [fmin_SAGA]. *)
Record locals := Locals {
  success : bool;
  it : option nat;
  certificate : option Qc;
  trace_x : list (list Qc);
  trace_certificate : list (option Qc)
}.

(** The fields of the returned [OptimizeResult], without the objective values
    and the timings of the trace; [res_x], [res_y] and [res_z] are the
    locations of the three vectors. *)
Record result := Result {
  res_x : loc;
  res_y : loc;
  res_z : loc;
  res_success : bool;
  res_nit : nat;
  res_trace_x : list (list Qc);
  res_certificate : Qc;
  res_trace_certificate : list (option Qc)
}.

(** What replaces [g_prox=None]:
    [def g_prox(step_size, x, y, low, high, weights):
         for i in range(low, high): y[i] = x[i]]. *)
Definition default_g_prox : prox2 :=
  fun _ x y low high _ =>
    (x, foldl (fun y i => <[i := x !!! i]> y) y (Np.range low high)).

(** What replaces [h_prox=None]: [def h_prox(step_size, x, *args): pass]. *)
Definition default_h_prox : prox := fun _ x _ _ => x.

(** The block assignment in use: the one given; else [np.arange(n_features)]
    when [h_prox] is [None] and [np.zeros(n_features)] when it is not. *)
Definition resolve_h_blocks (h_prox : callable_arg prox) (h_blocks : option (list nat))
    (n_features : nat) : list nat :=
  let h_blocks :=
    match h_prox with
    | IsNone => match h_blocks with
                | None => Some (Np.arange n_features)
                | Some g => Some g
                end
    | _ => h_blocks
    end in
  match h_blocks with
  | Some g => g
  | None => Np.izeros n_features
  end.

Section Call.
Local Open Scope Qc_scope.
Variable a : args.

Let n_samples := fst (shape (A a)).
Let n_features := snd (shape (A a)).

(** A call of the epoch kernel on arrays given by reference. *)
Definition epoch_iteration (prox_g : prox2) (prox_h : prox) (blocks : list nat)
    (h : heap) (y x z mg ga : loc) (sample_indices : list nat) : heap :=
  let s :=
    PSSAGA.epoch_iteration_template (fun_deriv a) prox_g prox_h blocks (A a) (b a)
      (alpha a) (beta a) (gamma a)
      (h !!! y) (h !!! x) (h !!! z) (h !!! mg) (h !!! ga)
      sample_indices (step_size a) in
  <[ga := PSSAGA.gradient_average s]>
    (<[mg := PSSAGA.memory_gradient s]>
       (<[z := PSSAGA.z s]> (<[x := PSSAGA.x s]> (<[y := PSSAGA.y s]> h)))).

(** The loop [for it in range(max_iter)], on the iterations left. *)
Fixpoint epochs (prox_g : prox2) (prox_h : prox) (blocks : list nat)
    (y x z mg ga : loc) (its : list nat)
    (h : heap) (log : list (list nat)) (v : locals)
    : heap * list (list nat) * locals :=
  match its with
  | [] => (h, log, v)
  | i :: its' =>
      let perm := draws a i in
      let h := epoch_iteration prox_g prox_h blocks h y x z mg ga perm in
      let log := log ++ [perm] in
      let c := norm_sq (vsub (h !!! x) (h !!! z)) in
      let v := {| success := success v; it := Some i; certificate := Some c;
                  trace_x := if trace a then trace_x v ++ [h !!! x] else trace_x v;
                  trace_certificate :=
                    if trace a then trace_certificate v ++ [Some c]
                    else trace_certificate v |} in
      if below_tol c (tol a) then
        (h, log, {| success := true; it := it v; certificate := certificate v;
                    trace_x := trace_x v; trace_certificate := trace_certificate v |})
      else epochs prox_g prox_h blocks y x z mg ga its' h log v
  end.

(** The heap after the epochs of the iterations [its], when none stops
    the loop. *)
Definition run_epochs (prox_g : prox2) (prox_h : prox) (blocks : list nat)
    (y x z mg ga : loc) (its : list nat) (h : heap) : heap :=
  foldl (fun h i => epoch_iteration prox_g prox_h blocks h y x z mg ga (draws a i)) h its.

(** The call, from its first statement to its [return]. *)
Definition fmin_PSSAGA (h : heap) : run result :=
  match (match g_prox a with
         | IsCallable f => Some f
         | IsNone => Some default_g_prox
         | IsOther => None
         end),
        (match h_prox a with
         | IsCallable f => Some f
         | IsNone => Some default_h_prox
         | IsOther => None
         end) with
  | None, _ | _, None => Run h [] (inl NotImplementedError)
  | Some prox_g, Some prox_h =>
      let blocks := resolve_h_blocks (h_prox a) (h_blocks a) n_features in
      let '(y, h) := np_copy h (x0 a) in
      let '(x, h) := np_copy h (x0 a) in
      let '(z, h) := np_copy h x in
      if negb (bool_decide (n_samples = length (b a))) then Run h [] (inl AssertionError)
      else if bool_decide (step_size a < 0) then Run h [] (inl ValueError)
      else
        match PSSAGA.factory_raises blocks (A a) with
        | Some e => Run h [] (inl e)
        | None =>
            let '(mg, h) := alloc h (Np.zeros n_samples) in
            let '(ga, h) := alloc h (Np.zeros n_features) in
            let '(mg', ga') :=
              PSSAGA.init_gradient (fun_deriv a) (A a) (b a) (h !!! mg) (h !!! ga)
                                   n_samples in
            let h := <[ga := ga']> (<[mg := mg']> h) in
            let h := epoch_iteration prox_g prox_h blocks h y x z mg ga [0%nat] in
            let log := [[0%nat]] in
            let v := {| success := false; it := None; certificate := None;
                        trace_x := [h !!! x]; trace_certificate := [None] |} in
            let '(h, log, v) :=
              epochs prox_g prox_h blocks y x z mg ga (Np.range 0 (max_iter a)) h log v in
            match it v, certificate v with
            | Some n, Some c =>
                Run h log (inr {| res_x := x; res_y := y; res_z := z;
                                  res_success := success v; res_nit := n;
                                  res_trace_x := trace_x v;
                                  res_certificate := c;
                                  res_trace_certificate := trace_certificate v |})
            | _, _ => Run h log (inl UnboundLocalError)
            end
        end
  end.
End Call.
End FminPSSAGA.

(** ** The gradient-average invariant *)

Section Consistency.
Local Open Scope Qc_scope.
Variable A : csr_matrix.

(** The entry [A[i, j]]: the sum of the values stored in row [i] at
    column [j]. *)
Definition entry (i j : nat) : Qc :=
  Np.sum ((fun k => if decide (indices A !!! k = j) then data A !!! k else 0)
            <$> row_range (indptr A) i).

(** [(1 / n_samples) * Σ_i memory[i] * A[i, j]] *)
Definition average_of_memory (memory : list Qc) (j : nat) : Qc :=
  Np.sum ((fun i => memory !!! i * entry i j) <$> seq 0 (fst (shape A)))
  / Np.of_nat (fst (shape A)).

(** The gradient average agrees with the memory at every feature. *)
Definition consistent (memory_gradient gradient_average : list Qc) : Prop :=
  forall j, (j < snd (shape A))%nat ->
    gradient_average !!! j = average_of_memory memory_gradient j.

(** The common shape of the loops that add a multiple [c / n] of the
    entries at positions [ks] to the gradient average. *)
Definition add_row (c n : Qc) (ga : list Qc) (ks : list nat) : list Qc :=
  foldl (fun ga k =>
           <[indices A !!! k := ga !!! (indices A !!! k) + c * (data A !!! k) / n]> ga)
        ga ks.

(** The sum of the values stored at column [j] among the positions [ks]. *)
Definition column_sum (j : nat) (ks : list nat) : Qc :=
  Np.sum ((fun k => if decide (indices A !!! k = j) then data A !!! k else 0) <$> ks).

(** Every stored entry of the rows of [A] sits at a column of [A]. *)
Definition columns_in_range : Prop :=
  Forall (fun i => Forall (fun k => (indices A !!! k < snd (shape A))%nat)
                          (row_range (indptr A) i))
         (seq 0 (fst (shape A))).
End Consistency.

#[global] Instance columns_in_range_dec A : Decision (columns_in_range A).
Proof. unfold columns_in_range. apply _. Defined.

(** The states that a single-threaded SAGA run goes through: the one that
    [init_gradient] leaves from zeroed arrays, the one after a pass of the
    kernel's loop on a sample of the matrix, and the one in which a kernel
    call finds the memory with other coefficients (the warm-up works on a
    copy of [x]). *)
Inductive saga_reachable (f_prime : Qc -> Qc -> Qc) (g_prox : prox) (A : csr_matrix)
    (b : list Qc) (alpha beta : Qc) : list Qc * list Qc * list Qc -> Prop :=
  | saga_after_init x :
      saga_reachable f_prime g_prox A b alpha beta
        (x, fst (SAGA.init_gradient f_prime A b (Np.zeros (fst (shape A)))
                   (Np.zeros (snd (shape A))) (fst (shape A))),
            snd (SAGA.init_gradient f_prime A b (Np.zeros (fst (shape A)))
                   (Np.zeros (snd (shape A))) (fst (shape A))))
  | saga_after_sample step_size st i :
      saga_reachable f_prime g_prox A b alpha beta st ->
      i < fst (shape A) ->
      saga_reachable f_prime g_prox A b alpha beta
        (SAGA.sample_update f_prime g_prox A b alpha beta step_size st i)
  | saga_other_coefficients x x' mg ga :
      saga_reachable f_prime g_prox A b alpha beta (x, mg, ga) ->
      saga_reachable f_prime g_prox A b alpha beta (x', mg, ga).

(** The same for PSSAGA; a kernel call finds the memory with the three
    vectors of the driver and a zeroed buffer. *)
Inductive pssaga_reachable (f_prime : Qc -> Qc -> Qc) (g_prox : prox2) (h_prox : prox)
    (h_blocks : list nat) (A : csr_matrix) (b : list Qc) (alpha beta gamma : Qc)
    : PSSAGA.state -> Prop :=
  | pssaga_after_init y x z ge :
      pssaga_reachable f_prime g_prox h_prox h_blocks A b alpha beta gamma
        {| PSSAGA.y := y; PSSAGA.x := x; PSSAGA.z := z;
           PSSAGA.memory_gradient :=
             fst (PSSAGA.init_gradient f_prime A b (Np.zeros (fst (shape A)))
                    (Np.zeros (snd (shape A))) (fst (shape A)));
           PSSAGA.gradient_average :=
             snd (PSSAGA.init_gradient f_prime A b (Np.zeros (fst (shape A)))
                    (Np.zeros (snd (shape A))) (fst (shape A)));
           PSSAGA.grad_est := ge |}
  | pssaga_after_sample step_size s i :
      pssaga_reachable f_prime g_prox h_prox h_blocks A b alpha beta gamma s ->
      i < fst (shape A) ->
      pssaga_reachable f_prime g_prox h_prox h_blocks A b alpha beta gamma
        (PSSAGA.sample_update f_prime g_prox h_prox h_blocks A b alpha beta gamma
           step_size s i)
  | pssaga_other_vectors s y x z ge :
      pssaga_reachable f_prime g_prox h_prox h_blocks A b alpha beta gamma s ->
      pssaga_reachable f_prime g_prox h_prox h_blocks A b alpha beta gamma
        {| PSSAGA.y := y; PSSAGA.x := x; PSSAGA.z := z;
           PSSAGA.memory_gradient := PSSAGA.memory_gradient s;
           PSSAGA.gradient_average := PSSAGA.gradient_average s;
           PSSAGA.grad_est := ge |}.

(** ** The SAGA update of one sample, over the stored entries of its row

    The loops of the kernel written as sums and updates over the positions
    of the stored entries of the row; the theorems on the kernel pass from
    these to the entries [A[i, j]] of the matrix. *)

Section SagaStep.
Local Open Scope Qc_scope.
Variable f_prime : Qc -> Qc -> Qc.
Variable g_prox : prox.
Variable A : csr_matrix.
Variable b : list Qc.
Variables alpha beta eta : Qc.

(** The positions of the stored entries of row [i]: position [k] holds the
    column [indices A !!! k] and the value [data A !!! k]. *)
Definition nonzeros (i : nat) : list nat := row_range (indptr A) i.

(** [p]: the sum of [x[j_idx] * A_data[k]] over the stored entries of row
    [i], which is [Σ_j x[j] * A[i, j]]. *)
Definition spec_prediction (x : list Qc) (i : nat) : Qc :=
  Np.sum ((fun k => x !!! (indices A !!! k) * data A !!! k) <$> nonzeros i).

(** The coefficient update, in place, once for each stored entry [k] of
    the row, on its column [j] and with its value [data A !!! k]. *)
Definition spec_coefficients (g_i : Qc) (memory gradient_average x : list Qc) (i : nat)
    : list Qc :=
  foldl (fun x k =>
           let j := indices A !!! k in
           <[j := x !!! j - eta * ((g_i - memory !!! i) * data A !!! k
                                   + gradient_average !!! j + alpha * x !!! j)]> x)
        x (nonzeros i).

(** The update of the gradient average, once for each stored entry of the
    row. *)
Definition spec_average (g_i : Qc) (memory gradient_average : list Qc) (i : nat)
    : list Qc :=
  foldl (fun ga k =>
           let j := indices A !!! k in
           <[j := ga !!! j + (g_i - memory !!! i) * data A !!! k
                             / Np.of_nat (fst (shape A))]> ga)
        gradient_average (nonzeros i).

(** The pass on sample [i], on [(x, memory, gradient_average)]. *)
Definition sample_update_by_entries (st : list Qc * list Qc * list Qc) (i : nat)
    : list Qc * list Qc * list Qc :=
  let '(x, memory, gradient_average) := st in
  let p := spec_prediction x i in
  let g_i := f_prime p (b !!! i) in
  let x := spec_coefficients g_i memory gradient_average x i in
  let x := g_prox (eta * beta) x 0%nat (snd (shape A)) in
  let gradient_average := spec_average g_i memory gradient_average i in
  let memory := <[i := g_i]> memory in
  (x, memory, gradient_average).
End SagaStep.

(** ** The certificate of a full proximal gradient step, as the
    specification words it *)

Section ExactCertificate.
Local Open Scope Qc_scope.
Variable f_prime : Qc -> Qc -> Qc.
Variable g_prox : prox.
Variable A : csr_matrix.
Variable b : list Qc.
Variables alpha beta eta : Qc.

(** The gradient at [x] of [(1/n) Σ_i f(a_i^T x, b_i) + α/2 ‖x‖²], at
    feature [j]. *)
Definition full_gradient (x : list Qc) (j : nat) : Qc :=
  Np.sum ((fun i => f_prime (spec_prediction A x i) (b !!! i) * entry A i j)
            <$> seq 0 (fst (shape A)))
  / Np.of_nat (fst (shape A))
  + alpha * x !!! j.

(** [‖x − z‖²] for [z = prox_{ηβg}(x − η ∇F(x))]. *)
Definition proximal_gradient_certificate_sq (x : list Qc) : Qc :=
  let grad := full_gradient x <$> seq 0 (snd (shape A)) in
  let z := g_prox (eta * beta) (vsub x (vscale eta grad)) 0%nat (snd (shape A)) in
  norm_sq (vsub x z).
End ExactCertificate.

(** ** The arrays that the random generators can return *)

(** [np.random.randint(low=0, high=n, size=n)]: [n] draws in [[0, n)]. *)
Definition randint_outcome (n : nat) (l : list nat) : Prop :=
  length l = n /\ Forall (fun i => i < n) l.

(** [np.random.permutation(n)]: a rearrangement of [0, ..., n - 1]. *)
Definition permutation_outcome (n : nat) (l : list nat) : Prop :=
  l ≡ₚ seq 0 n.

(** ** The content of the block-support index *)

(** The distinct values of a list, each at the place of its first
    occurrence. *)
Definition record_first (acc : list nat) (v : nat) : list nat :=
  if decide (v ∈ acc) then acc else acc ++ [v].

Definition first_occurrences (l : list nat) : list nat := foldl record_first [] l.

(** The block ids of the stored entries of row [i], in storage order. *)
Definition row_blocks (A_indices A_indptr g_blocks : list nat) (i : nat) : list nat :=
  (fun j => g_blocks !!! (A_indices !!! j)) <$> row_range A_indptr i.

(** The shape of the arguments of [_support_matrix]: row pointers that do
    not decrease and stay within the stored entries, and a block id below
    [n_blocks] for every stored entry. *)
Definition support_args_ok (A_indices A_indptr g_blocks : list nat) (n_blocks : nat) : Prop :=
  Forall (fun i => A_indptr !!! i <= A_indptr !!! (i + 1)) (seq 0 (length A_indptr - 1))
  /\ Forall (fun p => p <= length A_indices) A_indptr
  /\ Forall (fun i => Forall (fun v => v < n_blocks) (row_blocks A_indices A_indptr g_blocks i))
            (seq 0 (length A_indptr - 1)).

#[global] Instance support_args_ok_dec A_indices A_indptr g_blocks n_blocks :
  Decision (support_args_ok A_indices A_indptr g_blocks n_blocks).
Proof. unfold support_args_ok. apply _. Defined.

(** The state of [_support_matrix] inside a row: the ids recorded for the
    earlier rows are [prefix], those recorded for this row are [acc], and
    [seen_blocks] marks exactly the ids of [acc]. *)
Definition support_visit_inv (n_blocks : nat) (s : support_state) (prefix acc : list nat)
    : Prop :=
  take (counter_indptr s) (BS_indices s) = prefix ++ acc
  /\ counter_indptr s = length prefix + length acc
  /\ length (seen_blocks s) = n_blocks
  /\ forall v, v < n_blocks ->
       seen_blocks s !!! v = if decide (v ∈ acc) then 1 else 0.

(** The ids of the rows before row [i], row by row. *)
Definition support_rows_before (A_indices A_indptr g_blocks : list nat) (i : nat)
    : list (list nat) :=
  (fun r => first_occurrences (row_blocks A_indices A_indptr g_blocks r)) <$> seq 0 i.

(** The state of [_support_matrix] between two rows. *)
Definition support_rows_inv (A_indices A_indptr g_blocks : list nat) (n_blocks : nat)
    (s : support_state) (i : nat) : Prop :=
  take (counter_indptr s) (BS_indices s)
  = concat (support_rows_before A_indices A_indptr g_blocks i)
  /\ counter_indptr s = length (concat (support_rows_before A_indices A_indptr g_blocks i))
  /\ length (BS_indices s) = length A_indices
  /\ length (BS_indptr s) = length A_indptr
  /\ (forall k, k <= i ->
        BS_indptr s !!! k
        = length (concat (support_rows_before A_indices A_indptr g_blocks k)))
  /\ length (seen_blocks s) = n_blocks
  /\ (forall v, v < n_blocks -> seen_blocks s !!! v = 0)
  /\ counter_indptr s <= A_indptr !!! i.

(** ** Identity proximal operators *)

(** An operator of [fmin_SAGA]'s convention that leaves its array as it is. *)
Definition is_identity (f : prox) : Prop :=
  forall step x low high, f step x low high = x.

(** An operator of the convention of [fmin_PSSAGA]'s first term that writes
    the identity's value: its second array takes the entries of the first on
    [[low, high)], and nothing else changes. *)
Definition is_identity2 (f : prox2) : Prop :=
  forall step u v low high w,
    f step u v low high w
    = (u, foldl (fun v i => <[i := u !!! i]> v) v (Np.range low high)).

(** Each feature forms its own block. *)
Definition one_feature_per_block (blocks : list nat) : Prop := NoDup blocks.

(** ** Small problems on which the solvers are run *)

Module Examples.
Local Open Scope Qc_scope.

Definition half : Qc := Q2Qc (1 # 2).
Definition three_tenths : Qc := Q2Qc (3 # 10).

(** The 1 by 1 matrix [[1]]. *)
Definition A1 : csr_matrix := CSR [1] [0%nat] [0%nat; 1%nat] (1%nat, 1%nat).

(** The 2 by 2 identity matrix. *)
Definition I2 : csr_matrix :=
  CSR [1; 1] [0%nat; 1%nat] [0%nat; 1%nat; 2%nat] (2%nat, 2%nat).

(** The 1 by 1 matrix [[3/2]] in a CSR layout that is not canonical: row
    [0] stores column [0] twice, with the values [1] and [1/2]. *)
Definition A_twice : csr_matrix :=
  CSR [1; half] [0%nat; 0%nat] [0%nat; 2%nat] (1%nat, 1%nat).

(** A heap that holds the caller's [x0] at location [0]. *)
Definition heap_with (x0 : list Qc) : heap := {[ 0%nat := x0 ]}.

(** [fmin_SAGA(f_squared, deriv_squared, A1, b=[1], x0, step_size=s,
    max_iter=1, tol=0.3, trace=True)], with [x0] at location [0] of the heap;
    the generator can only return [[0]]. *)
Definition saga_1x1 (s : Qc) : FminSAGA.args :=
  {| FminSAGA.fun_deriv := deriv_squared; FminSAGA.A := A1; FminSAGA.b := [1];
     FminSAGA.x0 := 0%nat; FminSAGA.alpha := 0; FminSAGA.beta := 0;
     FminSAGA.g_prox := IsNone; FminSAGA.step_size := s; FminSAGA.g_blocks := None;
     FminSAGA.max_iter := 1; FminSAGA.tol := three_tenths; FminSAGA.trace := true;
     FminSAGA.draws := fun _ => [0%nat] |}.

(** [fmin_SAGA(f_squared, deriv_squared, I2, b=[1, 1], x0, step_size=0.5,
    max_iter=1, tol=0, trace=True)] when the generator returns [[0, 0]]. *)
Definition saga_2x2 : FminSAGA.args :=
  {| FminSAGA.fun_deriv := deriv_squared; FminSAGA.A := I2; FminSAGA.b := [1; 1];
     FminSAGA.x0 := 0%nat; FminSAGA.alpha := 0; FminSAGA.beta := 0;
     FminSAGA.g_prox := IsNone; FminSAGA.step_size := half; FminSAGA.g_blocks := None;
     FminSAGA.max_iter := 1; FminSAGA.tol := 0; FminSAGA.trace := true;
     FminSAGA.draws := fun _ => [0%nat; 0%nat] |}.

(** [fmin_PSSAGA(f_squared, deriv_squared, I2, b=[1, 1], x0, h_prox=hp,
    step_size=0.5, max_iter=1, tol=0, trace=True)], the permutation drawn
    being [[0, 1]]. *)
Definition pssaga_2x2 (hp : callable_arg prox) : FminPSSAGA.args :=
  {| FminPSSAGA.fun_deriv := deriv_squared; FminPSSAGA.A := I2; FminPSSAGA.b := [1; 1];
     FminPSSAGA.x0 := 0%nat; FminPSSAGA.g_prox := IsNone; FminPSSAGA.h_prox := hp;
     FminPSSAGA.alpha := 0; FminPSSAGA.beta := 0; FminPSSAGA.gamma := 0;
     FminPSSAGA.step_size := half; FminPSSAGA.h_blocks := None;
     FminPSSAGA.max_iter := 1; FminPSSAGA.tol := 0; FminPSSAGA.trace := true;
     FminPSSAGA.draws := fun _ => [0%nat; 1%nat] |}.

(** The same call of [fmin_PSSAGA] with [h_blocks=[0, 0]]. *)
Definition pssaga_2x2_blocks : FminPSSAGA.args :=
  {| FminPSSAGA.fun_deriv := deriv_squared; FminPSSAGA.A := I2; FminPSSAGA.b := [1; 1];
     FminPSSAGA.x0 := 0%nat; FminPSSAGA.g_prox := IsNone; FminPSSAGA.h_prox := IsNone;
     FminPSSAGA.alpha := 0; FminPSSAGA.beta := 0; FminPSSAGA.gamma := 0;
     FminPSSAGA.step_size := half; FminPSSAGA.h_blocks := Some [0%nat; 0%nat];
     FminPSSAGA.max_iter := 1; FminPSSAGA.tol := 0; FminPSSAGA.trace := true;
     FminPSSAGA.draws := fun _ => [0%nat; 1%nat] |}.

(** A heap with [x] at [0], [memory_gradient] at [1] and
    [gradient_average] at [2], as [init_gradient] leaves them for [I2] and
    [b = [1, 1]]. *)
Definition heap_after_init : heap :=
  {[ 0%nat := [0; 0]; 1%nat := [-(1); -(1)]; 2%nat := [- half; - half] ]}.

(** The same arrays when [x] holds [[1, 0]]. *)
Definition heap_away_from_zero : heap :=
  {[ 0%nat := [1; 0]; 1%nat := [-(1); -(1)]; 2%nat := [- half; - half] ]}.

(** The local variables of [fmin_SAGA] before the loop on epochs. *)
Definition locals_before_loop : FminSAGA.locals :=
  {| FminSAGA.success := false; FminSAGA.it := None; FminSAGA.certificate := None;
     FminSAGA.trace_x := [[0; 0]]; FminSAGA.trace_certificate := [None] |}.

(** A heap with [y], [x], [z] at [0], [1], [2], [memory_gradient] at [3] and
    [gradient_average] at [4], as [fmin_PSSAGA] has them for [I2] and
    [b = [1, 1]] before its first kernel call. *)
Definition pssaga_heap_after_init : heap :=
  {[ 0%nat := [0; 0]; 1%nat := [0; 0]; 2%nat := [0; 0];
     3%nat := [-(1); -(1)]; 4%nat := [- half; - half] ]}.

(** The local variables of [fmin_PSSAGA] before the loop on epochs. *)
Definition pssaga_locals_before_loop : FminPSSAGA.locals :=
  {| FminPSSAGA.success := false; FminPSSAGA.it := None;
     FminPSSAGA.certificate := None; FminPSSAGA.trace_x := [[0; 0]];
     FminPSSAGA.trace_certificate := [None] |}.

(** An explicit identity operator: it leaves its array as it is. *)
Definition identity_prox : prox := fun _ x _ _ => x.
End Examples.

(** The value a run returned, if it returned. *)
Definition returned {R : Type} (r : run R) : option R :=
  match outcome r with
  | inr v => Some v
  | inl _ => None
  end.

(** The numerators and denominators of an array. *)
Definition fractions (v : list Qc) : list Q := this <$> v.

(** ** A call with another proximal argument, all other arguments equal *)

Definition saga_with_g_prox (a : FminSAGA.args) (p : callable_arg prox) : FminSAGA.args :=
  {| FminSAGA.fun_deriv := FminSAGA.fun_deriv a; FminSAGA.A := FminSAGA.A a;
     FminSAGA.b := FminSAGA.b a; FminSAGA.x0 := FminSAGA.x0 a;
     FminSAGA.alpha := FminSAGA.alpha a; FminSAGA.beta := FminSAGA.beta a;
     FminSAGA.g_prox := p; FminSAGA.step_size := FminSAGA.step_size a;
     FminSAGA.g_blocks := FminSAGA.g_blocks a; FminSAGA.max_iter := FminSAGA.max_iter a;
     FminSAGA.tol := FminSAGA.tol a; FminSAGA.trace := FminSAGA.trace a;
     FminSAGA.draws := FminSAGA.draws a |}.

Definition pssaga_with_prox (a : FminPSSAGA.args) (g : callable_arg prox2)
    (h : callable_arg prox) : FminPSSAGA.args :=
  {| FminPSSAGA.fun_deriv := FminPSSAGA.fun_deriv a; FminPSSAGA.A := FminPSSAGA.A a;
     FminPSSAGA.b := FminPSSAGA.b a; FminPSSAGA.x0 := FminPSSAGA.x0 a;
     FminPSSAGA.g_prox := g; FminPSSAGA.h_prox := h;
     FminPSSAGA.alpha := FminPSSAGA.alpha a; FminPSSAGA.beta := FminPSSAGA.beta a;
     FminPSSAGA.gamma := FminPSSAGA.gamma a; FminPSSAGA.step_size := FminPSSAGA.step_size a;
     FminPSSAGA.h_blocks := FminPSSAGA.h_blocks a; FminPSSAGA.max_iter := FminPSSAGA.max_iter a;
     FminPSSAGA.tol := FminPSSAGA.tol a; FminPSSAGA.trace := FminPSSAGA.trace a;
     FminPSSAGA.draws := FminPSSAGA.draws a |}.

(** ** A call with another block assignment, all other arguments equal *)

Definition saga_with_g_blocks (a : FminSAGA.args) (g : option (list nat)) : FminSAGA.args :=
  {| FminSAGA.fun_deriv := FminSAGA.fun_deriv a; FminSAGA.A := FminSAGA.A a;
     FminSAGA.b := FminSAGA.b a; FminSAGA.x0 := FminSAGA.x0 a;
     FminSAGA.alpha := FminSAGA.alpha a; FminSAGA.beta := FminSAGA.beta a;
     FminSAGA.g_prox := FminSAGA.g_prox a; FminSAGA.step_size := FminSAGA.step_size a;
     FminSAGA.g_blocks := g; FminSAGA.max_iter := FminSAGA.max_iter a;
     FminSAGA.tol := FminSAGA.tol a; FminSAGA.trace := FminSAGA.trace a;
     FminSAGA.draws := FminSAGA.draws a |}.

(** The proximal operator that a call of [fmin_SAGA] works with, if its
    argument [g_prox] is a callable or [None]. *)
Definition saga_prox_in_use (a : FminSAGA.args) : option prox :=
  match FminSAGA.g_prox a with
  | IsCallable f => Some f
  | IsNone => Some FminSAGA.default_g_prox
  | IsOther => None
  end.

(** The local variables of [fmin_SAGA] before the loop on epochs, [x]
    holding [x0]. *)
Definition saga_locals_at_start (x0 : list Qc) : FminSAGA.locals :=
  {| FminSAGA.success := false; FminSAGA.it := None; FminSAGA.certificate := None;
     FminSAGA.trace_x := [x0]; FminSAGA.trace_certificate := [None] |}.

(** The [return] statement of [fmin_SAGA], on the state in which the loop on
    epochs ends. *)
Definition saga_return (a : FminSAGA.args) (x : loc)
    (r : heap * list (list nat) * FminSAGA.locals) : run FminSAGA.result :=
  match FminSAGA.it r.2, FminSAGA.certificate r.2 with
  | Some n, Some c =>
      Run r.1.1 r.1.2
        (inr {| FminSAGA.res_x := x; FminSAGA.res_success := FminSAGA.success r.2;
                FminSAGA.res_nit := n;
                FminSAGA.res_trace_points :=
                  if FminSAGA.trace a then FminSAGA.trace_x r.2 else [];
                FminSAGA.res_certificate := c;
                FminSAGA.res_trace_certificate := FminSAGA.trace_certificate r.2 |})
  | _, _ => Run r.1.1 r.1.2 (inl UnboundLocalError)
  end.

(** The two size assertions of [fmin_SAGA] hold: [x.size == A.shape[1]]
    and [A.shape[0] == b.size]. *)
Definition saga_sizes_agree (a : FminSAGA.args) (h : heap) : Prop :=
  length (h !!! FminSAGA.x0 a) = snd (shape (FminSAGA.A a))
  /\ fst (shape (FminSAGA.A a)) = length (FminSAGA.b a).

(** Every check that [fmin_SAGA] makes before it allocates the gradient
    memory passes: the two size assertions, the step size is not negative,
    [g_prox] is a callable or [None], and the block ids pass the assertion
    of the factory. *)
Definition saga_checks_pass (a : FminSAGA.args) (h : heap) : Prop :=
  saga_sizes_agree a h
  /\ ~ (FminSAGA.step_size a < 0)%Qc
  /\ FminSAGA.g_prox a ≠ IsOther
  /\ blocks_contiguous
       (FminSAGA.resolve_g_blocks (FminSAGA.g_blocks a) (snd (shape (FminSAGA.A a))))
     = true.

(** The inputs of [fmin_SAGA] that the model covers: at least one sample
    (with none, the warm-up call reads outside the row pointers), and a
    block assignment with one entry per feature (the factory reads
    [g_blocks[j]] for every feature [j]). *)
Definition saga_inputs_ok (a : FminSAGA.args) : Prop :=
  0 < fst (shape (FminSAGA.A a))
  /\ length (FminSAGA.resolve_g_blocks (FminSAGA.g_blocks a) (snd (shape (FminSAGA.A a))))
     = snd (shape (FminSAGA.A a)).

(** A matrix as SciPy holds it: one row pointer per row and one more, row
    pointers that start at [0], do not decrease and end at the number of
    stored entries, one value per stored column index, and every stored
    column a column of the matrix. *)
Definition csr_well_formed (A : csr_matrix) : Prop :=
  length (indptr A) = S (fst (shape A))
  /\ indptr A !!! 0 = 0
  /\ Forall (fun i => indptr A !!! i <= indptr A !!! (i + 1)) (seq 0 (fst (shape A)))
  /\ indptr A !!! fst (shape A) = length (indices A)
  /\ length (data A) = length (indices A)
  /\ columns_in_range A.

#[global] Instance csr_well_formed_dec A : Decision (csr_well_formed A).
Proof. unfold csr_well_formed. apply _. Defined.

(** The calls of [fmin_SAGA] in which every array access is inside its
    array: the inputs of [saga_inputs_ok], a well-formed matrix, and sample
    indices as [np.random.randint(low=0, high=n_samples, size=n_samples)]
    returns them. *)
Definition saga_call_in_bounds (a : FminSAGA.args) : Prop :=
  saga_inputs_ok a
  /\ csr_well_formed (FminSAGA.A a)
  /\ forall it, randint_outcome (fst (shape (FminSAGA.A a))) (FminSAGA.draws a it).

(** The two proximal operators that a call of [fmin_PSSAGA] works with, if
    its arguments [g_prox] and [h_prox] are callables or [None]. *)
Definition pssaga_prox_in_use (a : FminPSSAGA.args) : option (prox2 * prox) :=
  match FminPSSAGA.g_prox a, FminPSSAGA.h_prox a with
  | IsOther, _ | _, IsOther => None
  | g, h =>
      Some (match g with IsCallable f => f | _ => FminPSSAGA.default_g_prox end,
            match h with IsCallable f => f | _ => FminPSSAGA.default_h_prox end)
  end.

(** The block assignment that a call of [fmin_PSSAGA] works with. *)
Definition pssaga_blocks_in_use (a : FminPSSAGA.args) : list nat :=
  FminPSSAGA.resolve_h_blocks (FminPSSAGA.h_prox a) (FminPSSAGA.h_blocks a)
    (snd (shape (FminPSSAGA.A a))).

(** The block assignment that a call of [fmin_PSSAGA] works with has one
    entry per feature: the factory reads [h_blocks[j]] for every feature
    [j], and the kernel takes the ranges of the blocks among the features. *)
Definition pssaga_blocks_per_feature (a : FminPSSAGA.args) : Prop :=
  length (pssaga_blocks_in_use a) = snd (shape (FminPSSAGA.A a)).

(** The inputs on which the kernel of [fmin_PSSAGA] stays inside the three
    coefficient vectors: one block id per feature, and an [x0] that has an
    entry for every feature.  The call never checks the size of [x0]
    (its assertion is commented out); [y], [x] and [z] are copies of [x0],
    and the kernel reads and writes them at every feature of the blocks it
    visits. *)
Definition pssaga_inputs_ok (a : FminPSSAGA.args) (h : heap) : Prop :=
  pssaga_blocks_per_feature a
  /\ snd (shape (FminPSSAGA.A a)) <= length (h !!! FminPSSAGA.x0 a).

(** The calls of [fmin_PSSAGA] in which every array access is inside its
    array: the inputs of [pssaga_inputs_ok], a well-formed matrix, and
    sample indices as [np.random.permutation(n_samples)] returns them. *)
Definition pssaga_call_in_bounds (a : FminPSSAGA.args) (h : heap) : Prop :=
  pssaga_inputs_ok a h
  /\ csr_well_formed (FminPSSAGA.A a)
  /\ forall it, permutation_outcome (fst (shape (FminPSSAGA.A a))) (FminPSSAGA.draws a it).

(** The checks that [fmin_PSSAGA] makes before it calls the factory pass:
    [g_prox] and [h_prox] are callables or [None], [A.shape[0] == b.size],
    and the step size is not negative. *)
Definition pssaga_arguments_accepted (a : FminPSSAGA.args) : Prop :=
  FminPSSAGA.g_prox a ≠ IsOther
  /\ FminPSSAGA.h_prox a ≠ IsOther
  /\ fst (shape (FminPSSAGA.A a)) = length (FminPSSAGA.b a)
  /\ ~ (FminPSSAGA.step_size a < 0)%Qc.

(** Every check of [fmin_PSSAGA] passes: those on its arguments, and the
    factory raises nothing. *)
Definition pssaga_checks_pass (a : FminPSSAGA.args) : Prop :=
  pssaga_arguments_accepted a
  /\ PSSAGA.factory_raises (pssaga_blocks_in_use a) (FminPSSAGA.A a) = None.

(** The local variables of [fmin_PSSAGA] before the loop on epochs, [x]
    holding [x1]. *)
Definition pssaga_locals_at_start (x1 : list Qc) : FminPSSAGA.locals :=
  {| FminPSSAGA.success := false; FminPSSAGA.it := None; FminPSSAGA.certificate := None;
     FminPSSAGA.trace_x := [x1]; FminPSSAGA.trace_certificate := [None] |}.

(** The [return] statement of [fmin_PSSAGA], on the state in which the loop
    on epochs ends. *)
Definition pssaga_return (y x z : loc)
    (r : heap * list (list nat) * FminPSSAGA.locals) : run FminPSSAGA.result :=
  match FminPSSAGA.it r.2, FminPSSAGA.certificate r.2 with
  | Some n, Some c =>
      Run r.1.1 r.1.2
        (inr {| FminPSSAGA.res_x := x; FminPSSAGA.res_y := y; FminPSSAGA.res_z := z;
                FminPSSAGA.res_success := FminPSSAGA.success r.2;
                FminPSSAGA.res_nit := n;
                FminPSSAGA.res_trace_x := FminPSSAGA.trace_x r.2;
                FminPSSAGA.res_certificate := c;
                FminPSSAGA.res_trace_certificate := FminPSSAGA.trace_certificate r.2 |})
  | _, _ => Run r.1.1 r.1.2 (inl UnboundLocalError)
  end.

(** ** The other functions of the module *)

Section Losses.
Local Open Scope Qc_scope.

(** [f_squared(p, y)]: [0.5 * ((y - p) ** 2)]. *)
Definition f_squared (p y : Qc) : Qc := Q2Qc (1 # 2) * ((y - p) * (y - p)).

(** [np.abs] on a number. *)
Definition qabs (a : Qc) : Qc := if decide (a < 0) then - a else a.

(** [f_L1(x)]: [np.sum(np.abs(x))]. *)
Definition f_L1 (x : list Qc) : Qc := Np.sum (qabs <$> x).

(** The value that one pass of the loop of [prox_L1] writes at an entry
    [v]: [np.fmax(v - step_size, 0) - np.fmax(-v - step_size, 0)]. *)
Definition soft_threshold (step_size v : Qc) : Qc :=
  fmax (v - step_size) 0 - fmax (- v - step_size) 0.

(** What the proximal operator of [step_size * f_L1] minimises at [x]:
    [step_size * f_L1(u) + 0.5 * ‖u − x‖²]. *)
Definition prox_objective (step_size : Qc) (x u : list Qc) : Qc :=
  step_size * f_L1 u + Q2Qc (1 # 2) * norm_sq (vsub u x).
End Losses.

(** ** [compute_step_size] *)

Section StepSize.
Local Open Scope Qc_scope.

(** A division of floats: [None] where the divisor is zero, for which the
    source gives no number to work with. *)
Definition fdiv (a c : Qc) : option Qc :=
  if decide (c = 0) then None else Some (a / c).

(** [compute_step_size(loss, A, alpha, step_size_factor)].  [norm_rows] is
    imported from [copt.utils]; [norm_rows_A] is the number that it returns
    for [A]. *)
Definition compute_step_size (loss : string) (norm_rows_A alpha step_size_factor : Qc)
    : exn + option Qc :=
  if decide (loss = "logistic"%string) then
    let L := Q2Qc (1 # 4) * norm_rows_A + alpha in
    inr (fdiv 1 L ≫= fun s => fdiv s step_size_factor)
  else if decide (loss = "squared"%string) then
    let L := norm_rows_A + alpha in
    inr (fdiv 1 L ≫= fun s => fdiv s step_size_factor)
  else inl NotImplementedError.
End StepSize.
(** * Proofs: the gradient memory *)

Section MemoryLemmas.
Local Open Scope Qc_scope.

Lemma sum_nil : Np.sum [] = 0.
Proof. reflexivity. Qed.

Lemma sum_cons c l : Np.sum (c :: l) = c + Np.sum l.
Proof. reflexivity. Qed.

Lemma add_row_cons A c n ga k ks :
  add_row A c n ga (k :: ks)
  = add_row A c n
      (<[indices A !!! k := ga !!! (indices A !!! k) + c * (data A !!! k) / n]> ga) ks.
Proof. reflexivity. Qed.

Lemma column_sum_cons A j k ks :
  column_sum A j (k :: ks)
  = (if decide (indices A !!! k = j) then data A !!! k else 0) + column_sum A j ks.
Proof. reflexivity. Qed.

Lemma add_row_length A c n ks : forall ga, length (add_row A c n ga ks) = length ga.
Proof.
  induction ks as [|k ks IH]; intros ga; [done|].
  rewrite add_row_cons, IH. by rewrite length_insert.
Qed.

Lemma add_row_lookup A c n ks : forall ga j,
  (forall k, k ∈ ks -> (indices A !!! k < length ga)%nat) ->
  add_row A c n ga ks !!! j = ga !!! j + c * column_sum A j ks / n.
Proof.
  induction ks as [|k ks IH]; intros ga j Hin.
  - change (ga !!! j = ga !!! j + c * 0 / n). unfold Qcdiv. ring.
  - rewrite add_row_cons, IH, column_sum_cons.
    + destruct (decide (indices A !!! k = j)) as [Heq|Hne].
      * rewrite Heq, list_lookup_total_insert_eq.
        -- unfold Qcdiv. ring.
        -- rewrite <- Heq. apply Hin. left.
      * rewrite list_lookup_total_insert_ne by done. unfold Qcdiv. ring.
    + intros k' Hk'. rewrite length_insert. apply Hin. by right.
Qed.

Lemma sum_insert (a : nat -> Qc) (g : Qc) (i0 : nat) (mem : list Qc) (l : list nat) :
  NoDup l -> (i0 < length mem)%nat ->
  Np.sum ((fun i => <[i0 := g]> mem !!! i * a i) <$> l)
  = Np.sum ((fun i => mem !!! i * a i) <$> l)
    + (if decide (i0 ∈ l) then (g - mem !!! i0) * a i0 else 0).
Proof.
  intros Hnd Hlt. induction Hnd as [|i l Hni Hnd IH].
  - rewrite decide_False by apply not_elem_of_nil. rewrite !fmap_nil, sum_nil. ring.
  - rewrite !fmap_cons, !sum_cons, IH. destruct (decide (i0 = i)) as [->|Hne].
    + rewrite list_lookup_total_insert_eq by done.
      rewrite (decide_True (P := i ∈ i :: l)) by left.
      rewrite (decide_False (P := i ∈ l)) by done. ring.
    + rewrite list_lookup_total_insert_ne by done.
      destruct (decide (i0 ∈ l)) as [Hin|Hin].
      * rewrite (decide_True (P := i0 ∈ i :: l)) by (by right). ring.
      * rewrite (decide_False (P := i0 ∈ i :: l)); [ring|].
        intros [?|?]%elem_of_cons; done.
Qed.

Lemma columns_in_range_elim A i k :
  columns_in_range A -> (i < fst (shape A))%nat -> k ∈ row_range (indptr A) i ->
  (indices A !!! k < snd (shape A))%nat.
Proof.
  intros Hcol Hi Hk. unfold columns_in_range in Hcol.
  rewrite list.Forall_forall in Hcol. specialize (Hcol i).
  rewrite list.Forall_forall in Hcol. apply Hcol; [apply elem_of_seq; lia|done].
Qed.

(** One update of the memory, in the form shared by all the loops. *)
Lemma consistent_update A mem ga g i :
  columns_in_range A ->
  (i < fst (shape A))%nat ->
  length mem = fst (shape A) ->
  length ga = snd (shape A) ->
  consistent A mem ga ->
  consistent A (<[i := g]> mem)
    (add_row A (g - mem !!! i) (Np.of_nat (fst (shape A))) ga (row_range (indptr A) i)).
Proof.
  intros Hcol Hi Hm Hg Hc j Hj.
  rewrite add_row_lookup.
  - rewrite (Hc j Hj). unfold average_of_memory.
    rewrite sum_insert; [|apply NoDup_seq|lia].
    rewrite decide_True by (apply elem_of_seq; lia).
    fold (column_sum A j (row_range (indptr A) i)). unfold entry at 3.
    fold (column_sum A j (row_range (indptr A) i)). unfold Qcdiv. ring.
  - intros k Hk. rewrite Hg. by apply (columns_in_range_elim A i).
Qed.

Lemma zeros_lookup n i : Np.zeros n !!! i = 0.
Proof.
  unfold Np.zeros. destruct (decide (i < n)%nat).
  - by apply lookup_total_replicate_2.
  - rewrite list_lookup_total_alt.
    assert (replicate n (0 : Qc) !! i = None) as ->; [|done].
    apply lookup_replicate_None. lia.
Qed.

Lemma sum_zeros (a : nat -> Qc) n (l : list nat) :
  Np.sum ((fun i => Np.zeros n !!! i * a i) <$> l) = 0.
Proof.
  induction l as [|i l IH]; [done|].
  rewrite fmap_cons, sum_cons, IH.
  rewrite zeros_lookup. ring.
Qed.

Lemma consistent_zeros A :
  consistent A (Np.zeros (fst (shape A))) (Np.zeros (snd (shape A))).
Proof.
  intros j Hj. unfold average_of_memory. rewrite sum_zeros.
  rewrite zeros_lookup. unfold Qcdiv. ring.
Qed.

(** The state of [init_gradient] after its first [k] rows. *)
Lemma init_gradient_rows (f_prime : Qc -> Qc -> Qc) A (b : list Qc) k :
  columns_in_range A ->
  (k <= fst (shape A))%nat ->
  let r := foldl (fun '(mg, ga) i =>
                    (<[i := f_prime 0 (b !!! i)]> mg,
                     foldl (SAGA.init_accumulate A (fst (shape A)) (f_prime 0 (b !!! i)))
                           ga (row_range (indptr A) i)))
                 (Np.zeros (fst (shape A)), Np.zeros (snd (shape A))) (seq 0 k) in
  consistent A (fst r) (snd r)
  /\ length (fst r) = fst (shape A) /\ length (snd r) = snd (shape A)
  /\ forall i, (k <= i)%nat -> fst r !!! i = 0.
Proof.
  intros Hcol. induction k as [|k IH]; intros Hk.
  - cbn. split; [apply consistent_zeros|].
    split; [|split]; [apply length_replicate..|].
    intros i _. apply zeros_lookup.
  - rewrite seq_S, foldl_snoc. cbn zeta in *.
    destruct IH as (Hc & Hm & Hg & Hz); [lia|].
    destruct (foldl _ _ (seq 0 k)) as [mg ga]. cbn [fst snd] in *.
    cbn [Nat.add].
    change (foldl (SAGA.init_accumulate A (fst (shape A)) ?g) ga ?ks)
      with (add_row A g (Np.of_nat (fst (shape A))) ga ks).
    replace (f_prime 0 (b !!! k)) with (f_prime 0 (b !!! k) - mg !!! k) at 2
      by (rewrite Hz by lia; ring).
    split; [apply consistent_update; auto; lia|].
    rewrite length_insert, add_row_length. repeat split; auto.
    intros i Hi. rewrite list_lookup_total_insert_ne by lia. apply Hz. lia.
Qed.

Lemma init_gradient_consistent (f_prime : Qc -> Qc -> Qc) A (b : list Qc) :
  columns_in_range A ->
  let r := SAGA.init_gradient f_prime A b (Np.zeros (fst (shape A)))
             (Np.zeros (snd (shape A))) (fst (shape A)) in
  consistent A (fst r) (snd r)
  /\ length (fst r) = fst (shape A) /\ length (snd r) = snd (shape A).
Proof.
  intros Hcol. unfold SAGA.init_gradient, Np.range. rewrite Nat.sub_0_r.
  destruct (init_gradient_rows f_prime A b (fst (shape A)) Hcol) as (?&?&?&_); auto.
Qed.

Lemma pssaga_init_gradient f_prime A b mg ga ns :
  PSSAGA.init_gradient f_prime A b mg ga ns = SAGA.init_gradient f_prime A b mg ga ns.
Proof. reflexivity. Qed.

(** A pass of the SAGA kernel keeps the invariant. *)
Lemma saga_sample_consistent f_prime g_prox A b alpha beta step x mg ga i :
  columns_in_range A ->
  (i < fst (shape A))%nat ->
  length mg = fst (shape A) -> length ga = snd (shape A) ->
  consistent A mg ga ->
  let r := SAGA.sample_update f_prime g_prox A b alpha beta step (x, mg, ga) i in
  consistent A (snd (fst r)) (snd r)
  /\ length (snd (fst r)) = fst (shape A) /\ length (snd r) = snd (shape A).
Proof.
  intros Hcol Hi Hm Hg Hc. cbn.
  set (g := f_prime _ _).
  change (foldl (SAGA.update_average A g mg i) ga ?ks)
    with (add_row A (g - mg !!! i) (Np.of_nat (fst (shape A))) ga ks).
  replace (mg !!! i + (g - mg !!! i)) with g by ring.
  split; [by apply consistent_update|].
  by rewrite length_insert, add_row_length.
Qed.

Lemma pssaga_update_average_fst A g mg i ks : forall ga ge,
  fst (foldl (PSSAGA.update_average A g mg i) (ga, ge) ks)
  = add_row A (g - mg !!! i) (Np.of_nat (fst (shape A))) ga ks.
Proof.
  induction ks as [|k ks IH]; intros ga ge; [done|].
  rewrite add_row_cons. cbn [foldl]. unfold PSSAGA.update_average at 2.
  cbn [fst snd]. apply IH.
Qed.

Lemma pssaga_prox_g_frame g_prox h_blocks A beta step ks : forall s,
  let s' := foldl (PSSAGA.prox_g_block g_prox h_blocks A beta step) s ks in
  PSSAGA.memory_gradient s' = PSSAGA.memory_gradient s
  /\ PSSAGA.gradient_average s' = PSSAGA.gradient_average s.
Proof.
  induction ks as [|k ks IH]; intros s; [done|].
  cbn [foldl]. cbn zeta in *.
  destruct (IH (PSSAGA.prox_g_block g_prox h_blocks A beta step s k)) as [-> ->].
  unfold PSSAGA.prox_g_block. by destruct (g_prox _ _ _ _ _ _).
Qed.

Lemma pssaga_prox_h_frame h_prox h_blocks A alpha gamma step ks : forall s,
  let s' := foldl (PSSAGA.prox_h_block h_prox h_blocks A alpha gamma step) s ks in
  PSSAGA.memory_gradient s' = PSSAGA.memory_gradient s
  /\ PSSAGA.gradient_average s' = PSSAGA.gradient_average s.
Proof.
  induction ks as [|k ks IH]; intros s; [done|].
  cbn [foldl]. cbn zeta in *.
  by destruct (IH (PSSAGA.prox_h_block h_prox h_blocks A alpha gamma step s k)) as [-> ->].
Qed.

(** What a pass of the PSSAGA kernel does to the memory and its average. *)
Lemma pssaga_sample_memory f_prime g_prox h_prox h_blocks A b alpha beta gamma step s i :
  exists g,
    let s' := PSSAGA.sample_update f_prime g_prox h_prox h_blocks A b alpha beta gamma
                step s i in
    PSSAGA.memory_gradient s' = <[i := g]> (PSSAGA.memory_gradient s)
    /\ PSSAGA.gradient_average s'
       = add_row A (g - PSSAGA.memory_gradient s !!! i) (Np.of_nat (fst (shape A)))
           (PSSAGA.gradient_average s) (row_range (indptr A) i).
Proof.
  unfold PSSAGA.sample_update.
  set (ks := Np.range _ _).
  pose proof (pssaga_prox_g_frame g_prox h_blocks A beta step ks s) as [Hm1 Hg1].
  set (s1 := foldl (PSSAGA.prox_g_block _ _ _ _ _) s ks) in *.
  exists (f_prime (PSSAGA.prediction A (PSSAGA.x s1) i) (b !!! i)).
  cbv zeta. set (g := f_prime _ _).
  set (s2 := PSSAGA.State (PSSAGA.y s1) _ _ _ _ _).
  pose proof (pssaga_prox_h_frame h_prox h_blocks A alpha gamma step ks s2) as [Hm3 Hg3].
  set (s3 := foldl (PSSAGA.prox_h_block _ _ _ _ _ _) s2 ks) in *.
  cbn [PSSAGA.memory_gradient PSSAGA.gradient_average].
  rewrite Hm3, Hg3. unfold s2. cbn [PSSAGA.memory_gradient PSSAGA.gradient_average].
  rewrite Hm1, Hg1. split; [done|]. apply pssaga_update_average_fst.
Qed.

(** A pass of the PSSAGA kernel keeps the invariant. *)
Lemma pssaga_sample_consistent f_prime g_prox h_prox h_blocks A b alpha beta gamma step s i :
  columns_in_range A ->
  (i < fst (shape A))%nat ->
  length (PSSAGA.memory_gradient s) = fst (shape A) ->
  length (PSSAGA.gradient_average s) = snd (shape A) ->
  consistent A (PSSAGA.memory_gradient s) (PSSAGA.gradient_average s) ->
  let s' := PSSAGA.sample_update f_prime g_prox h_prox h_blocks A b alpha beta gamma step s i in
  consistent A (PSSAGA.memory_gradient s') (PSSAGA.gradient_average s')
  /\ length (PSSAGA.memory_gradient s') = fst (shape A)
  /\ length (PSSAGA.gradient_average s') = snd (shape A).
Proof.
  intros Hcol Hi Hm Hg Hc.
  destruct (pssaga_sample_memory f_prime g_prox h_prox h_blocks A b alpha beta gamma
              step s i) as (g & Hm' & Hg').
  cbv zeta in *. rewrite Hm', Hg'.
  split; [by apply consistent_update|].
  by rewrite length_insert, add_row_length.
Qed.
End MemoryLemmas.

(** * The gradient-average invariant holds along a run *)

Section MemoryInvariant.
Variable f_prime : Qc -> Qc -> Qc.
Variable A : csr_matrix.
Variable b : list Qc.
Hypothesis A_columns : columns_in_range A.

Lemma saga_reachable_consistent g_prox alpha beta st :
  saga_reachable f_prime g_prox A b alpha beta st ->
  consistent A (snd (fst st)) (snd st)
  /\ length (snd (fst st)) = fst (shape A) /\ length (snd st) = snd (shape A).
Proof.
  induction 1 as [x|step [[x mg] ga] i _ IH Hi|x x' mg ga _ IH].
  - apply init_gradient_consistent, A_columns.
  - destruct IH as (Hc & Hm & Hg). by apply saga_sample_consistent.
  - exact IH.
Qed.

Lemma pssaga_reachable_consistent g_prox h_prox h_blocks alpha beta gamma s :
  pssaga_reachable f_prime g_prox h_prox h_blocks A b alpha beta gamma s ->
  consistent A (PSSAGA.memory_gradient s) (PSSAGA.gradient_average s)
  /\ length (PSSAGA.memory_gradient s) = fst (shape A)
  /\ length (PSSAGA.gradient_average s) = snd (shape A).
Proof.
  induction 1 as [y x z ge|step s i _ IH Hi|s y x z ge _ IH].
  - cbn [PSSAGA.memory_gradient PSSAGA.gradient_average].
    rewrite pssaga_init_gradient. apply init_gradient_consistent, A_columns.
  - destruct IH as (Hc & Hm & Hg). by apply pssaga_sample_consistent.
  - exact IH.
Qed.

(** The states along an epoch are states of the run: the kernel goes through
    its samples one pass after the other. *)
Lemma saga_epoch_reachable g_prox alpha beta step samples : forall x mg ga,
  saga_reachable f_prime g_prox A b alpha beta (x, mg, ga) ->
  Forall (fun i => i < fst (shape A)) samples ->
  saga_reachable f_prime g_prox A b alpha beta
    (SAGA.epoch_iteration_template f_prime g_prox A b alpha beta x mg ga samples step).
Proof.
  unfold SAGA.epoch_iteration_template.
  induction samples as [|i samples IH]; intros x mg ga Hr Hin; [done|].
  apply list.Forall_cons in Hin as [Hi Hin]. cbn [foldl].
  pose proof (saga_after_sample f_prime g_prox A b alpha beta step (x, mg, ga) i Hr Hi)
    as Hr'.
  destruct (SAGA.sample_update _ _ _ _ _ _ _ _ _) as [[x1 mg1] ga1].
  by apply IH.
Qed.

Lemma pssaga_epoch_reachable g_prox h_prox h_blocks alpha beta gamma step samples s y x z :
  pssaga_reachable f_prime g_prox h_prox h_blocks A b alpha beta gamma s ->
  Forall (fun i => i < fst (shape A)) samples ->
  pssaga_reachable f_prime g_prox h_prox h_blocks A b alpha beta gamma
    (PSSAGA.epoch_iteration_template f_prime g_prox h_prox h_blocks A b alpha beta gamma
       y x z (PSSAGA.memory_gradient s) (PSSAGA.gradient_average s) samples step).
Proof.
  intros Hr. unfold PSSAGA.epoch_iteration_template.
  pose proof (pssaga_other_vectors f_prime g_prox h_prox h_blocks A b alpha beta gamma
                s y x z (Np.zeros (snd (shape A))) Hr) as Hr0.
  revert Hr0. generalize (PSSAGA.State y x z (PSSAGA.memory_gradient s)
                            (PSSAGA.gradient_average s) (Np.zeros (snd (shape A)))).
  clear Hr. induction samples as [|i samples IH]; intros s0 Hr0 Hin; [done|].
  apply list.Forall_cons in Hin as [Hi Hin]. cbn [foldl].
  apply IH; [|done]. by apply pssaga_after_sample.
Qed.

(** C1.  In a single-threaded run, once [init_gradient] has completed and
    after every single-sample update of the SAGA or of the PSSAGA epoch
    kernel, [gradient_average[j]] is [(1 / n_samples) * Σ_i
    memory_gradient[i] * A[i, j]] at every feature [j], in exact
    arithmetic. *)
Theorem gradient_average_invariant :
  (forall g_prox alpha beta x mg ga,
      saga_reachable f_prime g_prox A b alpha beta (x, mg, ga) ->
      forall j, j < snd (shape A) -> ga !!! j = average_of_memory A mg j)
  /\ (forall g_prox h_prox h_blocks alpha beta gamma s,
        pssaga_reachable f_prime g_prox h_prox h_blocks A b alpha beta gamma s ->
        forall j, j < snd (shape A) ->
          PSSAGA.gradient_average s !!! j
          = average_of_memory A (PSSAGA.memory_gradient s) j).
Proof.
  split.
  - intros g_prox alpha beta x mg ga Hr.
    by destruct (saga_reachable_consistent _ _ _ _ Hr) as [Hc _].
  - intros g_prox h_prox h_blocks alpha beta gamma s Hr.
    by destruct (pssaga_reachable_consistent _ _ _ _ _ _ _ Hr) as [Hc _].
Qed.
End MemoryInvariant.

(** * The loops of the SAGA kernel, over the stored entries of a row *)

Section SagaKernel.
Local Open Scope Qc_scope.
Variable f_prime : Qc -> Qc -> Qc.
Variable g_prox : prox.
Variable A : csr_matrix.
Variable b : list Qc.
Variables alpha beta eta : Qc.

Lemma foldl_pointwise {S T : Type} (f g : S -> T -> S) (l : list T) :
  (forall s t, f s t = g s t) -> forall s, foldl f s l = foldl g s l.
Proof.
  intros Hfg. induction l as [|t l IH]; intros s; [done|].
  cbn [foldl]. by rewrite Hfg, IH.
Qed.

Lemma prediction_sum (x : list Qc) (ks : list nat) : forall p0,
  foldl (fun p j => p + x !!! (indices A !!! j) * data A !!! j) p0 ks
  = p0 + Np.sum ((fun k => x !!! (indices A !!! k) * data A !!! k) <$> ks).
Proof.
  induction ks as [|k ks IH]; intros p0.
  - rewrite fmap_nil, sum_nil. cbn [foldl]. ring.
  - rewrite fmap_cons, sum_cons. cbn [foldl]. rewrite IH. ring.
Qed.

Lemma prediction_spec x i : SAGA.prediction A x i = spec_prediction A x i.
Proof.
  unfold SAGA.prediction, spec_prediction, nonzeros. rewrite prediction_sum. ring.
Qed.

Lemma sample_update_spec st i :
  SAGA.sample_update f_prime g_prox A b alpha beta eta st i
  = sample_update_by_entries f_prime g_prox A b alpha beta eta st i.
Proof.
  destruct st as [[x mg] ga]. unfold SAGA.sample_update, sample_update_by_entries.
  rewrite prediction_spec. cbv zeta.
  set (g_i := f_prime _ _).
  apply (f_equal2 pair); [apply (f_equal2 pair)|reflexivity].
  - f_equal. unfold spec_coefficients, nonzeros. apply foldl_pointwise.
    intros s k. unfold SAGA.update_coefficient. cbv zeta. f_equal. ring.
  - f_equal. ring.
Qed.

End SagaKernel.

Section SagaPointwise.
Local Open Scope Qc_scope.
Variable A : csr_matrix.
Variables alpha eta : Qc.

Lemma column_sum_absent j ks :
  j ∉ (fun k => indices A !!! k) <$> ks -> column_sum A j ks = 0.
Proof.
  induction ks as [|k ks IH]; intros Hj; [done|].
  rewrite column_sum_cons, fmap_cons in *.
  apply not_elem_of_cons in Hj as [Hne Hj].
  rewrite decide_False by done. rewrite IH by done. ring.
Qed.

(** With no column stored twice in a row, the in-place update of the
    coefficients is the update of the specification with the entries
    [A[i, j]] of the matrix: the features of the row move, the others stay. *)
Lemma spec_coefficients_pointwise g_i (memory gradient_average : list Qc) i ks :
  forall x j,
    NoDup ((fun k => indices A !!! k) <$> ks) ->
    (forall k, k ∈ ks -> (indices A !!! k < length x)%nat) ->
    foldl (fun x k =>
             let j := indices A !!! k in
             <[j := x !!! j - eta * ((g_i - memory !!! i) * data A !!! k
                                     + gradient_average !!! j + alpha * x !!! j)]> x)
          x ks !!! j
    = if decide (j ∈ (fun k => indices A !!! k) <$> ks)
      then x !!! j - eta * ((g_i - memory !!! i) * column_sum A j ks
                            + gradient_average !!! j + alpha * x !!! j)
      else x !!! j.
Proof.
  induction ks as [|k ks IH]; intros x j Hnd Hin.
  - cbn [foldl fmap list_fmap]. by rewrite decide_False by apply not_elem_of_nil.
  - rewrite fmap_cons in Hnd. apply list.NoDup_cons in Hnd as [Hk Hnd].
    cbn [foldl]. cbv zeta. rewrite IH; [|done|].
    2:{ intros k' Hk'. rewrite length_insert. apply Hin. by right. }
    rewrite fmap_cons, column_sum_cons.
    destruct (decide (indices A !!! k = j)) as [<-|Hne].
    + rewrite (decide_False (P := _ ∈ _ <$> ks)) by done.
      rewrite (decide_True (P := _ ∈ _ :: _)) by left.
      rewrite list_lookup_total_insert_eq by (apply Hin; left).
      rewrite column_sum_absent by done. f_equal. ring.
    + rewrite !list_lookup_total_insert_ne by done.
      destruct (decide (j ∈ (fun k => indices A !!! k) <$> ks)) as [Hj|Hj].
      * rewrite decide_True by (by right). f_equal. ring.
      * rewrite decide_False; [done|]. intros [?|?]%elem_of_cons; done.
Qed.

(** The coefficients after step 3, feature by feature. *)
Lemma saga_coefficients_entries g_i (memory gradient_average x : list Qc) i j :
  NoDup ((fun k => indices A !!! k) <$> nonzeros A i) ->
  (forall k, k ∈ nonzeros A i -> (indices A !!! k < length x)%nat) ->
  spec_coefficients A alpha eta g_i memory gradient_average x i !!! j
  = if decide (j ∈ (fun k => indices A !!! k) <$> nonzeros A i)
    then x !!! j - eta * ((g_i - memory !!! i) * entry A i j
                          + gradient_average !!! j + alpha * x !!! j)
    else x !!! j.
Proof. intros Hnd Hin. by apply spec_coefficients_pointwise. Qed.

(** The gradient average after step 5, feature by feature. *)
Lemma saga_average_entries g_i (memory gradient_average : list Qc) i j :
  (forall k, k ∈ nonzeros A i -> (indices A !!! k < length gradient_average)%nat) ->
  spec_average A g_i memory gradient_average i !!! j
  = gradient_average !!! j
    + (g_i - memory !!! i) * entry A i j / Np.of_nat (fst (shape A)).
Proof. intros Hin. by apply (add_row_lookup A). Qed.
End SagaPointwise.

(** * The SAGA kernel, sample by sample and feature by feature *)

Section SagaSteps.
Local Open Scope Qc_scope.
Variable f_prime : Qc -> Qc -> Qc.
Variable g_prox : prox.
Variable A : csr_matrix.
Variable b : list Qc.
Variables alpha beta eta : Qc.

Local Abbreviation kernel := (SAGA.epoch_iteration_template f_prime g_prox A b alpha beta).

(** With no column stored twice among the positions [ks], the value stored
    at a position is the sum of the values stored at its column. *)
Lemma column_sum_stored ks : forall k,
  NoDup ((fun k => indices A !!! k) <$> ks) -> k ∈ ks ->
  column_sum A (indices A !!! k) ks = data A !!! k.
Proof.
  induction ks as [|k0 ks IH]; intros k Hnd Hk; [by apply elem_of_nil in Hk|].
  rewrite fmap_cons in Hnd. apply list.NoDup_cons in Hnd as [Hk0 Hnd].
  rewrite column_sum_cons.
  apply elem_of_cons in Hk as [->|Hk].
  - rewrite decide_True by done. rewrite column_sum_absent by done. ring.
  - rewrite decide_False.
    + rewrite IH by done. ring.
    + intros E. apply Hk0. rewrite E.
      by apply (list_elem_of_fmap_2 (fun k => indices A !!! k)).
Qed.

(** The prediction is the sum of [x[j] * A[i, j]] over the columns stored in
    the row, when none is stored twice. *)
Lemma prediction_entries (x : list Qc) i :
  NoDup ((fun k => indices A !!! k) <$> row_range (indptr A) i) ->
  SAGA.prediction A x i
  = Np.sum ((fun j => x !!! j * entry A i j)
              <$> ((fun k => indices A !!! k) <$> row_range (indptr A) i)).
Proof.
  intros Hnd. rewrite prediction_spec. unfold spec_prediction, nonzeros.
  rewrite <- list_fmap_compose. f_equal.
  apply list_fmap_ext. intros n k Hk. cbn [compose].
  change (entry A i (indices A !!! k))
    with (column_sum A (indices A !!! k) (row_range (indptr A) i)).
  rewrite column_sum_stored; [done|done|]. by eapply list_elem_of_lookup_2.
Qed.

Lemma kernel_app x memory gradient_average s1 s2 :
  kernel x memory gradient_average (s1 ++ s2) eta
  = kernel (kernel x memory gradient_average s1 eta).1.1
           (kernel x memory gradient_average s1 eta).1.2
           (kernel x memory gradient_average s1 eta).2 s2 eta.
Proof.
  unfold SAGA.epoch_iteration_template. rewrite foldl_app.
  by destruct (foldl _ _ s1) as [[? ?] ?].
Qed.

(** C2 (amended).  The kernel takes the samples in the order given: a
    sample [i] that comes after the samples [before] is processed on the
    state [(x, memory, gradient_average)] that these have left, and the
    samples [rest] that follow it on the state that [i] leaves.  For a row
    [i] that stores each of its columns once, inside the arrays, the pass
    on [i] is: the prediction [p = Σ_j x[j] A[i,j]] over the stored columns
    of the row; [g_i = f'(p, b_i)]; for every stored column [j],
    [x[j] ← x[j] − η ((g_i − memory[i]) A[i,j] + gradient_average[j] + α x[j])],
    the other coefficients staying as they are; the proximal operator of
    [g] with step [η β] on the range [0, n_features) of the result; then
    [gradient_average[j] += (g_i − memory[i]) A[i,j] / n_samples] for every
    stored column [j], with the value that [memory[i]] had before the
    pass; and [memory[i] = g_i]. *)
Theorem saga_epoch_steps (x memory gradient_average : list Qc)
    (before : list nat) (i : nat) (rest : list nat) :
  let st := kernel x memory gradient_average before eta in
  let cols := (fun k => indices A !!! k) <$> row_range (indptr A) i in
  NoDup cols ->
  Forall (fun j => (j < length st.1.1)%nat /\ (j < length st.2)%nat) cols ->
  (i < length st.1.2)%nat ->
  let p := Np.sum ((fun j => st.1.1 !!! j * entry A i j) <$> cols) in
  let g_i := f_prime p (b !!! i) in
  let r := kernel x memory gradient_average (before ++ [i]) eta in
  (exists x1,
     length x1 = length st.1.1
     /\ (forall j,
           x1 !!! j
           = if decide (j ∈ cols)
             then st.1.1 !!! j
                  - eta * ((g_i - st.1.2 !!! i) * entry A i j
                           + st.2 !!! j + alpha * st.1.1 !!! j)
             else st.1.1 !!! j)
     /\ r.1.1 = g_prox (eta * beta) x1 0%nat (snd (shape A)))
  /\ length r.2 = length st.2
  /\ (forall j,
        r.2 !!! j
        = if decide (j ∈ cols)
          then st.2 !!! j + (g_i - st.1.2 !!! i) * entry A i j / Np.of_nat (fst (shape A))
          else st.2 !!! j)
  /\ r.1.2 = <[i := g_i]> st.1.2
  /\ r.1.2 !!! i = g_i
  /\ kernel x memory gradient_average (before ++ i :: rest) eta
     = kernel r.1.1 r.1.2 r.2 rest eta.
Proof.
  intros st cols Hnd Hin Hi p g_i r.
  assert (r = SAGA.sample_update f_prime g_prox A b alpha beta eta st i) as Hr.
  { subst r st. rewrite kernel_app.
    by destruct (kernel x memory gradient_average before eta) as [[? ?] ?]. }
  assert (kernel x memory gradient_average (before ++ i :: rest) eta
          = kernel r.1.1 r.1.2 r.2 rest eta) as Hrest.
  { subst r. replace (before ++ i :: rest) with ((before ++ [i]) ++ rest)
      by (by rewrite <- app_assoc).
    apply kernel_app. }
  clearbody r. subst r. clearbody st. destruct st as [[x0 m0] ga0].
  cbn [fst snd] in *.
  assert (g_i = f_prime (SAGA.prediction A x0 i) (b !!! i)) as Hg.
  { subst g_i p cols. by rewrite prediction_entries. }
  clearbody g_i. clear p. subst g_i.
  set (g := f_prime _ _) in *.
  rewrite sample_update_spec in *. unfold sample_update_by_entries in *.
  rewrite <- prediction_spec in *. fold g in Hrest |- *. cbn [fst snd] in *.
  rewrite list.Forall_forall in Hin.
  assert (forall k, k ∈ row_range (indptr A) i ->
            (indices A !!! k < length x0)%nat /\ (indices A !!! k < length ga0)%nat) as Hin'.
  { intros k Hk. apply Hin. subst cols.
    by apply (list_elem_of_fmap_2 (fun k => indices A !!! k)). }
  split; [|split; [|split; [|split; [done|split; [|exact Hrest]]]]].
  - exists (spec_coefficients A alpha eta g m0 ga0 x0 i). split; [|split; [|done]].
    + unfold spec_coefficients.
      generalize (nonzeros A i) x0. clear. intros ks.
      induction ks as [|k ks IH]; intros x; [done|].
      cbn [foldl]. cbv zeta. rewrite IH. apply length_insert.
    + intros j. unfold spec_coefficients, nonzeros.
      rewrite spec_coefficients_pointwise; [done|done|]. intros k Hk. by apply Hin'.
  - apply (add_row_length A (g - m0 !!! i) (Np.of_nat (fst (shape A)))).
  - intros j.
    change (spec_average A g m0 ga0 i)
      with (add_row A (g - m0 !!! i) (Np.of_nat (fst (shape A))) ga0
              (row_range (indptr A) i)).
    rewrite add_row_lookup by (intros k Hk; by apply Hin').
    destruct (decide (j ∈ cols)) as [Hj|Hj]; [done|].
    rewrite column_sum_absent by done. unfold Qcdiv. ring.
  - by apply list_lookup_total_insert_eq.
Qed.
End SagaSteps.


(** * The warm-up call of [fmin_SAGA] *)

Section WarmUp.
Local Open Scope Qc_scope.
Variable a : FminSAGA.args.
Variable prox_g : prox.

Lemma alloc_fresh (h : heap) v : h !! fst (alloc h v) = None.
Proof. unfold alloc. cbn [fst]. apply not_elem_of_dom, is_fresh. Qed.

(** C10.  The warm-up call of [fmin_SAGA], for a matrix with a sample [0]
    whose stored columns are columns of the matrix, on arrays of the sizes
    that [fmin_SAGA] gives them.  The kernel runs on a copy of [x]: the
    array [x] keeps its contents.  [memory_gradient] and
    [gradient_average], given by reference, receive one update of sample
    [0]: with [g = f'(p, b[0])] for the prediction [p] of row [0] at the
    contents of [x], [memory_gradient[0]] becomes [g] and the other entries
    stay, and [gradient_average[j]] gains
    [(g − memory_gradient[0]) A[0, j] / n_samples] at every feature [j],
    with the value that [memory_gradient[0]] had before the call.  Every
    other array that existed before the call is left as it was. *)
Theorem warm_up_frame (h : heap) (x mg ga : loc) :
  x ≠ mg -> x ≠ ga -> mg ≠ ga ->
  is_Some (h !! x) -> is_Some (h !! mg) -> is_Some (h !! ga) ->
  (0 < fst (shape (FminSAGA.A a)))%nat ->
  columns_in_range (FminSAGA.A a) ->
  length (h !!! x) = snd (shape (FminSAGA.A a)) ->
  length (h !!! mg) = fst (shape (FminSAGA.A a)) ->
  length (h !!! ga) = snd (shape (FminSAGA.A a)) ->
  let h' := FminSAGA.warm_up a prox_g h x mg ga in
  let g := FminSAGA.fun_deriv a (spec_prediction (FminSAGA.A a) (h !!! x) 0)
             (FminSAGA.b a !!! 0%nat) in
  h' !! x = h !! x
  /\ h' !! mg = Some (<[0%nat := g]> (h !!! mg))
  /\ (h' !!! mg) !!! 0%nat = g
  /\ is_Some (h' !! ga)
  /\ length (h' !!! ga) = length (h !!! ga)
  /\ (forall j,
        (h' !!! ga) !!! j
        = (h !!! ga) !!! j
          + (g - (h !!! mg) !!! 0%nat) * entry (FminSAGA.A a) 0 j
            / Np.of_nat (fst (shape (FminSAGA.A a))))
  /\ forall l, is_Some (h !! l) -> l ≠ mg -> l ≠ ga -> h' !! l = h !! l.
Proof.
  intros Hxm Hxg Hmg Hx Hm Hg Hn Hcol Lx Lm Lg. cbv zeta.
  pose proof (alloc_fresh h (h !!! x)) as Hfresh.
  unfold FminSAGA.warm_up, np_copy.
  destruct (alloc h (h !!! x)) as [xc h1] eqn:Ealloc.
  assert (h1 = <[xc := h !!! x]> h) as ->.
  { unfold alloc in Ealloc. by injection Ealloc as <- <-. }
  cbn [fst] in Hfresh.
  assert (xc ≠ x) by (intros ->; rewrite Hfresh in Hx; by destruct Hx).
  assert (xc ≠ mg) by (intros ->; rewrite Hfresh in Hm; by destruct Hm).
  assert (xc ≠ ga) by (intros ->; rewrite Hfresh in Hg; by destruct Hg).
  unfold FminSAGA.epoch_iteration, SAGA.epoch_iteration_template. cbn [foldl].
  rewrite lookup_total_insert_eq, !lookup_total_insert_ne by done.
  rewrite sample_update_spec. unfold sample_update_by_entries.
  set (g := FminSAGA.fun_deriv a _ _).
  assert (forall k, k ∈ row_range (indptr (FminSAGA.A a)) 0 ->
            (indices (FminSAGA.A a) !!! k < length (h !!! ga))%nat) as Hin.
  { intros k Hk. rewrite Lg. by eapply columns_in_range_elim. }
  split; [|split; [|split; [|split; [|split; [|split]]]]].
  - by rewrite !lookup_insert_ne by done.
  - by rewrite lookup_insert_ne, lookup_insert_eq by done.
  - rewrite lookup_total_insert_ne, lookup_total_insert_eq by done.
    apply list_lookup_total_insert_eq. lia.
  - rewrite lookup_insert_eq. by eexists.
  - rewrite lookup_total_insert_eq.
    apply (add_row_length (FminSAGA.A a) (g - (h !!! mg) !!! 0%nat)
             (Np.of_nat (fst (shape (FminSAGA.A a))))).
  - intros j. rewrite lookup_total_insert_eq.
    change (spec_average (FminSAGA.A a) g (h !!! mg) (h !!! ga) 0)
      with (add_row (FminSAGA.A a) (g - (h !!! mg) !!! 0%nat)
              (Np.of_nat (fst (shape (FminSAGA.A a)))) (h !!! ga)
              (row_range (indptr (FminSAGA.A a)) 0)).
    by rewrite add_row_lookup.
  - intros l Hl Hlm Hlg.
    assert (xc ≠ l) by (intros ->; rewrite Hfresh in Hl; by destruct Hl).
    by rewrite !lookup_insert_ne by done.
Qed.
End WarmUp.

(** * The certificate and the end of a run *)

Section SagaLoop.
Variable a : FminSAGA.args.
Variable prox_g : prox.
Variables x mg ga : loc.

Let cert (h : heap) : Qc := FminSAGA.certificate_sq a prox_g (h !!! x) (h !!! ga).
Let after (its : list nat) (h : heap) : heap := FminSAGA.run_epochs a prox_g x mg ga its h.

Lemma saga_epochs_spec its : forall h log v,
  its ≠ [] ->
  exists k,
    k < length its
    /\ (FminSAGA.epochs a prox_g x mg ga its h log v).1.1 = after (take (S k) its) h
    /\ (FminSAGA.epochs a prox_g x mg ga its h log v).1.2
       = log ++ (FminSAGA.draws a <$> take (S k) its)
    /\ FminSAGA.it (FminSAGA.epochs a prox_g x mg ga its h log v).2 = its !! k
    /\ FminSAGA.certificate (FminSAGA.epochs a prox_g x mg ga its h log v).2
       = Some (cert (after (take (S k) its) h))
    /\ (forall k', k' < k ->
          below_tol (cert (after (take (S k') its) h)) (FminSAGA.tol a) = false)
    /\ (below_tol (cert (after (take (S k) its) h)) (FminSAGA.tol a) = true
        /\ FminSAGA.success (FminSAGA.epochs a prox_g x mg ga its h log v).2 = true
        \/ below_tol (cert (after (take (S k) its) h)) (FminSAGA.tol a) = false
           /\ S k = length its
           /\ FminSAGA.success (FminSAGA.epochs a prox_g x mg ga its h log v).2
              = FminSAGA.success v).
Proof.
  induction its as [|i its IH]; intros h log v Hne; [done|].
  cbn [FminSAGA.epochs]. cbv zeta.
  set (h1 := FminSAGA.epoch_iteration a prox_g h x mg ga (FminSAGA.draws a i)).
  fold (cert h1).
  destruct (below_tol (cert h1) (FminSAGA.tol a)) eqn:Hb.
  - exists 0. cbn [fst snd take length lookup list_lookup fmap list_fmap
                   FminSAGA.it FminSAGA.certificate FminSAGA.success].
    repeat split; [lia|..|lia|by left].
  - destruct its as [|i' its'].
    + exists 0. cbn [FminSAGA.epochs fst snd take length lookup list_lookup fmap list_fmap
                     FminSAGA.it FminSAGA.certificate FminSAGA.success].
      repeat split; [lia|..|lia|by right].
    + set (v1 := FminSAGA.Locals _ _ _ _ _).
      destruct (IH h1 (log ++ [FminSAGA.draws a i]) v1) as (k & Hk & Hh & Hl & Hi & Hc & Hlt & Hs);
        [done|].
      exists (S k). rewrite Hh, Hl, Hi, Hc.
      repeat split; [cbn [length] in *; lia| |..].
      * rewrite <- app_assoc. done.
      * intros [|k'] Hk'; [exact Hb|]. apply Hlt. lia.
      * destruct Hs as [[? ?]|(? & ? & Hs)]; [by left|right].
        repeat split; [done|cbn [length] in *; lia|]. by rewrite Hs.
Qed.
End SagaLoop.

Section PssagaLoop.
Variable a : FminPSSAGA.args.
Variable prox_g : prox2.
Variable prox_h : prox.
Variable blocks : list nat.
Variables y x z mg ga : loc.

Let cert (h : heap) : Qc := norm_sq (vsub (h !!! x) (h !!! z)).
Let after (its : list nat) (h : heap) : heap :=
  FminPSSAGA.run_epochs a prox_g prox_h blocks y x z mg ga its h.
Let loop (its : list nat) (h : heap) (log : list (list nat)) (v : FminPSSAGA.locals) :=
  FminPSSAGA.epochs a prox_g prox_h blocks y x z mg ga its h log v.

Lemma pssaga_epochs_spec its : forall h log v,
  its ≠ [] ->
  exists k,
    k < length its
    /\ (loop its h log v).1.1 = after (take (S k) its) h
    /\ (loop its h log v).1.2
       = log ++ (FminPSSAGA.draws a <$> take (S k) its)
    /\ FminPSSAGA.it (loop its h log v).2 = its !! k
    /\ FminPSSAGA.certificate (loop its h log v).2
       = Some (cert (after (take (S k) its) h))
    /\ (forall k', k' < k ->
          below_tol (cert (after (take (S k') its) h)) (FminPSSAGA.tol a) = false)
    /\ (below_tol (cert (after (take (S k) its) h)) (FminPSSAGA.tol a) = true
        /\ FminPSSAGA.success (loop its h log v).2 = true
        \/ below_tol (cert (after (take (S k) its) h)) (FminPSSAGA.tol a) = false
           /\ S k = length its
           /\ FminPSSAGA.success (loop its h log v).2
              = FminPSSAGA.success v).
Proof.
  unfold loop. induction its as [|i its IH]; intros h log v Hne; [done|].
  cbn [FminPSSAGA.epochs]. cbv zeta.
  set (h1 := FminPSSAGA.epoch_iteration a prox_g prox_h blocks h y x z mg ga
               (FminPSSAGA.draws a i)).
  fold (cert h1).
  destruct (below_tol (cert h1) (FminPSSAGA.tol a)) eqn:Hb.
  - exists 0. cbn [fst snd take length lookup list_lookup fmap list_fmap
                   FminPSSAGA.it FminPSSAGA.certificate FminPSSAGA.success].
    repeat split; [lia|..|lia|by left].
  - destruct its as [|i' its'].
    + exists 0.
      cbn [FminPSSAGA.epochs fst snd take length lookup list_lookup fmap list_fmap
           FminPSSAGA.it FminPSSAGA.certificate FminPSSAGA.success].
      repeat split; [lia|..|lia|by right].
    + set (v1 := FminPSSAGA.Locals _ _ _ _ _).
      destruct (IH h1 (log ++ [FminPSSAGA.draws a i]) v1)
        as (k & Hk & Hh & Hl & Hi & Hc & Hlt & Hs); [done|].
      exists (S k). rewrite Hh, Hl, Hi, Hc.
      repeat split; [cbn [length] in *; lia| |..].
      * rewrite <- app_assoc. done.
      * intros [|k'] Hk'; [exact Hb|]. apply Hlt. lia.
      * destruct Hs as [[? ?]|(? & ? & Hs)]; [by left|right].
        repeat split; [done|cbn [length] in *; lia|]. by rewrite Hs.
Qed.
End PssagaLoop.

(** * The sample sequences handed to the kernels *)

Section Dispatch.
(** In [fmin_SAGA] the loop hands the kernel the arrays of the generator, one
    per epoch, as they come. *)
Lemma saga_dispatches_draws a prox_g x mg ga its h log v :
  its ≠ [] ->
  exists k, k < length its
    /\ (FminSAGA.epochs a prox_g x mg ga its h log v).1.2
       = log ++ (FminSAGA.draws a <$> take (S k) its).
Proof.
  intros Hne.
  destruct (saga_epochs_spec a prox_g x mg ga its h log v Hne) as (k & Hk & _ & Hl & _).
  by exists k.
Qed.

(** In [fmin_PSSAGA] every sequence that the loop hands to the kernel is a
    permutation of the samples, the generator returning permutations. *)
Lemma pssaga_dispatches_permutations a prox_g prox_h blocks y x z mg ga its h v n :
  (forall i, permutation_outcome n (FminPSSAGA.draws a i)) ->
  Forall (permutation_outcome n)
         (FminPSSAGA.epochs a prox_g prox_h blocks y x z mg ga its h [] v).1.2.
Proof.
  intros Hperm. destruct its as [|i its]; [by constructor|].
  destruct (pssaga_epochs_spec a prox_g prox_h blocks y x z mg ga (i :: its) h [] v)
    as (k & _ & _ & Hl & _); [done|].
  rewrite Hl, app_nil_l. apply list.Forall_forall.
  intros s (j & -> & _)%list_elem_of_fmap. apply Hperm.
Qed.
End Dispatch.

Section Termination.
Lemma take_range k n : S k <= n -> take (S k) (Np.range 0 n) = seq 0 (S k).
Proof.
  intros Hk. unfold Np.range. rewrite Nat.sub_0_r, take_seq. f_equal. lia.
Qed.

Lemma range_lookup k n : k < n -> Np.range 0 n !! k = Some k.
Proof.
  intros Hk. unfold Np.range. rewrite Nat.sub_0_r. by apply lookup_seq_lt.
Qed.

Lemma range_length n : length (Np.range 0 n) = n.
Proof. unfold Np.range. rewrite length_seq. lia. Qed.

(** C3 (amended).  With [max_iter >= 1], when the loop on epochs ends: the
    certificate of [fmin_SAGA] is [‖x − z‖] (squared here) for
    [z = prox_{ηβg}(x − η (gradient_average + α x))], computed from the
    stored gradient average and the current [x]; the certificate of
    [fmin_PSSAGA] is [‖x − z‖] for the vector [z] of the kernel.  In both,
    [success] is true exactly when the certificate of one of the first
    [max_iter] epochs is below [tol], the loop stops at the first such
    epoch (none before it is below [tol], and with [success] true the last
    one is), and it ends after [max_iter] epochs with [success] false
    otherwise. *)
Theorem certificate_and_success :
  (forall a prox_g x mg ga h log v,
      0 < FminSAGA.max_iter a -> FminSAGA.success v = false ->
      let r := FminSAGA.epochs a prox_g x mg ga (Np.range 0 (FminSAGA.max_iter a)) h log v in
      let cert (k : nat) :=
        FminSAGA.certificate_sq a prox_g
          (FminSAGA.run_epochs a prox_g x mg ga (seq 0 (S k)) h !!! x)
          (FminSAGA.run_epochs a prox_g x mg ga (seq 0 (S k)) h !!! ga) in
      FminSAGA.certificate r.2
      = Some (norm_sq
                (vsub (r.1.1 !!! x)
                   (prox_g (FminSAGA.beta a * FminSAGA.step_size a)%Qc
                      (vsub (r.1.1 !!! x)
                         (vscale (FminSAGA.step_size a)
                            (vadd (r.1.1 !!! ga) (vscale (FminSAGA.alpha a) (r.1.1 !!! x)))))
                      0 (snd (shape (FminSAGA.A a))))))
      /\ (FminSAGA.success r.2 = true
          <-> exists k, k < FminSAGA.max_iter a /\ below_tol (cert k) (FminSAGA.tol a) = true)
      /\ exists n, n < FminSAGA.max_iter a
           /\ FminSAGA.it r.2 = Some n
           /\ r.1.1 = FminSAGA.run_epochs a prox_g x mg ga (seq 0 (S n)) h
           /\ (forall k, k < n -> below_tol (cert k) (FminSAGA.tol a) = false)
           /\ (FminSAGA.success r.2 = false -> S n = FminSAGA.max_iter a)
           /\ (FminSAGA.success r.2 = true -> below_tol (cert n) (FminSAGA.tol a) = true))
  /\ (forall a prox_g prox_h blocks y x z mg ga h log v,
        0 < FminPSSAGA.max_iter a -> FminPSSAGA.success v = false ->
        let r := FminPSSAGA.epochs a prox_g prox_h blocks y x z mg ga
                   (Np.range 0 (FminPSSAGA.max_iter a)) h log v in
        let cert (k : nat) :=
          norm_sq (vsub
            (FminPSSAGA.run_epochs a prox_g prox_h blocks y x z mg ga (seq 0 (S k)) h !!! x)
            (FminPSSAGA.run_epochs a prox_g prox_h blocks y x z mg ga (seq 0 (S k)) h !!! z)) in
        FminPSSAGA.certificate r.2 = Some (norm_sq (vsub (r.1.1 !!! x) (r.1.1 !!! z)))
        /\ (FminPSSAGA.success r.2 = true
            <-> exists k, k < FminPSSAGA.max_iter a
                  /\ below_tol (cert k) (FminPSSAGA.tol a) = true)
        /\ exists n, n < FminPSSAGA.max_iter a
             /\ FminPSSAGA.it r.2 = Some n
             /\ r.1.1 = FminPSSAGA.run_epochs a prox_g prox_h blocks y x z mg ga (seq 0 (S n)) h
             /\ (forall k, k < n -> below_tol (cert k) (FminPSSAGA.tol a) = false)
             /\ (FminPSSAGA.success r.2 = false -> S n = FminPSSAGA.max_iter a)
             /\ (FminPSSAGA.success r.2 = true
                 -> below_tol (cert n) (FminPSSAGA.tol a) = true)).
Proof.
  split.
  - intros a prox_g x mg ga h log v Hmax Hv. cbv zeta.
    destruct (saga_epochs_spec a prox_g x mg ga (Np.range 0 (FminSAGA.max_iter a)) h log v)
      as (n & Hn & Hh & _ & Hi & Hc & Hlt & Hs).
    { intros E. apply (f_equal length) in E. rewrite range_length in E.
      cbn in E. lia. }
    rewrite range_length in Hn. rewrite range_length in Hs.
    rewrite take_range in * by lia. rewrite range_lookup in Hi by lia.
    split; [|split].
    + rewrite Hc, Hh. reflexivity.
    + split.
      * intros Ht. exists n. split; [done|].
        destruct Hs as [[? _]|(_ & _ & Hs)]; [done|congruence].
      * intros (k & Hk & Hb). destruct Hs as [[_ ?]|(Hnb & Hlast & _)]; [done|].
        destruct (decide (k = n)) as [->|]; [congruence|].
        rewrite <- (take_range k (FminSAGA.max_iter a)) in Hb by lia.
        rewrite Hlt in Hb by lia. done.
    + exists n. repeat split; [done..| | |].
      * intros k Hk. rewrite <- (take_range k (FminSAGA.max_iter a)) by lia.
        by apply Hlt.
      * intros Hf. destruct Hs as [[_ ?]|(_ & ? & _)]; [congruence|done].
      * intros Ht. destruct Hs as [[Hb _]|(_ & _ & Hs)]; [exact Hb|congruence].
  - intros a prox_g prox_h blocks y x z mg ga h log v Hmax Hv. cbv zeta.
    destruct (pssaga_epochs_spec a prox_g prox_h blocks y x z mg ga
                (Np.range 0 (FminPSSAGA.max_iter a)) h log v)
      as (n & Hn & Hh & _ & Hi & Hc & Hlt & Hs).
    { intros E. apply (f_equal length) in E. rewrite range_length in E.
      cbn in E. lia. }
    rewrite range_length in Hn. rewrite range_length in Hs.
    rewrite take_range in * by lia. rewrite range_lookup in Hi by lia.
    split; [|split].
    + rewrite Hc, Hh. reflexivity.
    + split.
      * intros Ht. exists n. split; [done|].
        destruct Hs as [[? _]|(_ & _ & Hs)]; [done|congruence].
      * intros (k & Hk & Hb). destruct Hs as [[_ ?]|(Hnb & Hlast & _)]; [done|].
        destruct (decide (k = n)) as [->|]; [congruence|].
        rewrite <- (take_range k (FminPSSAGA.max_iter a)) in Hb by lia.
        rewrite Hlt in Hb by lia. done.
    + exists n. repeat split; [done..| | |].
      * intros k Hk. rewrite <- (take_range k (FminPSSAGA.max_iter a)) by lia.
        by apply Hlt.
      * intros Hf. destruct Hs as [[_ ?]|(_ & ? & _)]; [congruence|done].
      * intros Ht. destruct Hs as [[Hb _]|(_ & _ & Hs)]; [exact Hb|congruence].
Qed.
End Termination.

(** * The checks made before the first epoch *)

Section SetUp.
Local Open Scope Qc_scope.

Lemma copy_contents (h : heap) (l : loc) :
  snd (np_copy h l) !!! fst (np_copy h l) = h !!! l.
Proof. unfold np_copy, alloc. cbn [fst snd]. apply lookup_total_insert_eq. Qed.

Lemma saga_value_error a h :
  outcome (FminSAGA.fmin_SAGA a h) = inl ValueError
  <-> (length (h !!! FminSAGA.x0 a) = snd (shape (FminSAGA.A a))
       /\ fst (shape (FminSAGA.A a)) = length (FminSAGA.b a)
       /\ FminSAGA.step_size a < 0).
Proof.
  unfold FminSAGA.fmin_SAGA.
  pose proof (copy_contents h (FminSAGA.x0 a)) as Hc.
  destruct (np_copy h (FminSAGA.x0 a)) as [x h1]. cbn [fst snd] in Hc. rewrite Hc.
  repeat (case_bool_decide; cbn [negb outcome]); try (split; [discriminate|tauto]).
  - done.
  - repeat case_match; cbn [outcome]; (split; [discriminate|tauto]).
Qed.

Lemma saga_value_error_early a h :
  outcome (FminSAGA.fmin_SAGA a h) = inl ValueError ->
  dispatched (FminSAGA.fmin_SAGA a h) = [].
Proof.
  unfold FminSAGA.fmin_SAGA.
  destruct (np_copy h (FminSAGA.x0 a)) as [x h1].
  repeat (case_bool_decide; cbn [negb outcome dispatched]); try done.
  repeat case_match; cbn [outcome dispatched]; done.
Qed.

Lemma factory_raises_not_value_error h_blocks A :
  PSSAGA.factory_raises h_blocks A ≠ Some ValueError.
Proof. unfold PSSAGA.factory_raises. repeat case_match; done. Qed.

Lemma pssaga_value_error_early a h :
  outcome (FminPSSAGA.fmin_PSSAGA a h) = inl ValueError ->
  dispatched (FminPSSAGA.fmin_PSSAGA a h) = [].
Proof.
  unfold FminPSSAGA.fmin_PSSAGA.
  pose proof (factory_raises_not_value_error
                (FminPSSAGA.resolve_h_blocks (FminPSSAGA.h_prox a) (FminPSSAGA.h_blocks a)
                   (snd (shape (FminPSSAGA.A a)))) (FminPSSAGA.A a)) as Hf.
  repeat (case_match; cbn [negb outcome dispatched] in * ); simplify_eq; done.
Qed.

Lemma pssaga_value_error a h :
  outcome (FminPSSAGA.fmin_PSSAGA a h) = inl ValueError
  <-> (FminPSSAGA.g_prox a ≠ IsOther /\ FminPSSAGA.h_prox a ≠ IsOther
       /\ fst (shape (FminPSSAGA.A a)) = length (FminPSSAGA.b a)
       /\ FminPSSAGA.step_size a < 0).
Proof.
  unfold FminPSSAGA.fmin_PSSAGA.
  pose proof (factory_raises_not_value_error
                (FminPSSAGA.resolve_h_blocks (FminPSSAGA.h_prox a) (FminPSSAGA.h_blocks a)
                   (snd (shape (FminPSSAGA.A a)))) (FminPSSAGA.A a)) as Hf.
  destruct (FminPSSAGA.g_prox a), (FminPSSAGA.h_prox a);
    try (cbn [outcome]; split; [discriminate|intros (?&?&?); done]);
    repeat (case_match; cbn [negb outcome] in * ); try case_bool_decide; try case_bool_decide;
    cbn [negb outcome] in *; simplify_eq;
    try (split; [discriminate|intros (?&?&?&?); done]);
    try (split; [intros; done|done]);
    try (split; [intros [=]; congruence|intros (?&?&?&?); done]).
Qed.

(** The two size assertions of [fmin_SAGA] come first. *)
Lemma saga_dimension_mismatch a h :
  length (h !!! FminSAGA.x0 a) ≠ snd (shape (FminSAGA.A a))
  \/ fst (shape (FminSAGA.A a)) ≠ length (FminSAGA.b a) ->
  outcome (FminSAGA.fmin_SAGA a h) = inl AssertionError
  /\ dispatched (FminSAGA.fmin_SAGA a h) = [].
Proof.
  intros Hne. unfold FminSAGA.fmin_SAGA.
  pose proof (copy_contents h (FminSAGA.x0 a)) as Hc.
  destruct (np_copy h (FminSAGA.x0 a)) as [x h1]. cbn [fst snd] in Hc. rewrite Hc.
  repeat (case_bool_decide; cbn [negb outcome dispatched]); try done.
  all: by destruct Hne.
Qed.

(** C5 (amended).  Both solvers raise the [ValueError] of the step-size
    check exactly when the step size is negative and the checks made before
    it pass (the two size assertions in [fmin_SAGA]; the two proximal
    arguments and the sample-count assertion in [fmin_PSSAGA]); no epoch
    kernel has run when it is raised.  A step size of zero, like a positive
    one, does not raise it. *)
Theorem step_size_check :
  (forall a h,
      (outcome (FminSAGA.fmin_SAGA a h) = inl ValueError
       <-> (length (h !!! FminSAGA.x0 a) = snd (shape (FminSAGA.A a))
            /\ fst (shape (FminSAGA.A a)) = length (FminSAGA.b a)
            /\ FminSAGA.step_size a < 0))
      /\ (outcome (FminSAGA.fmin_SAGA a h) = inl ValueError ->
          dispatched (FminSAGA.fmin_SAGA a h) = []))
  /\ (forall a h,
        (outcome (FminPSSAGA.fmin_PSSAGA a h) = inl ValueError
         <-> (FminPSSAGA.g_prox a ≠ IsOther /\ FminPSSAGA.h_prox a ≠ IsOther
              /\ fst (shape (FminPSSAGA.A a)) = length (FminPSSAGA.b a)
              /\ FminPSSAGA.step_size a < 0))
        /\ (outcome (FminPSSAGA.fmin_PSSAGA a h) = inl ValueError ->
            dispatched (FminPSSAGA.fmin_PSSAGA a h) = [])).
Proof.
  split; intros a h; split.
  - apply saga_value_error.
  - apply saga_value_error_early.
  - apply pssaga_value_error.
  - apply pssaga_value_error_early.
Qed.
End SetUp.

(** * Omitted and identity proximal operators *)

(** The fields of a call with another proximal argument are those of the
    call. *)
Ltac saga_args :=
  cbn [saga_with_g_prox FminSAGA.fun_deriv FminSAGA.A FminSAGA.b FminSAGA.x0
       FminSAGA.alpha FminSAGA.beta FminSAGA.g_prox FminSAGA.step_size FminSAGA.g_blocks
       FminSAGA.max_iter FminSAGA.tol FminSAGA.trace FminSAGA.draws].

Ltac pssaga_args :=
  cbn [pssaga_with_prox FminPSSAGA.fun_deriv FminPSSAGA.A FminPSSAGA.b FminPSSAGA.x0
       FminPSSAGA.alpha FminPSSAGA.beta FminPSSAGA.gamma FminPSSAGA.g_prox
       FminPSSAGA.h_prox FminPSSAGA.step_size FminPSSAGA.h_blocks
       FminPSSAGA.max_iter FminPSSAGA.tol FminPSSAGA.trace FminPSSAGA.draws].

Section SagaIdentity.
Variable a : FminSAGA.args.
Variables p p' : callable_arg prox.
Variables f f' : prox.
Hypothesis f_f' : forall step x low high, f step x low high = f' step x low high.

Lemma saga_epoch_iteration_ext h x mg ga s :
  FminSAGA.epoch_iteration (saga_with_g_prox a p) f h x mg ga s
  = FminSAGA.epoch_iteration (saga_with_g_prox a p') f' h x mg ga s.
Proof.
  unfold FminSAGA.epoch_iteration, SAGA.epoch_iteration_template.
  saga_args.
  rewrite (foldl_pointwise _
    (SAGA.sample_update (FminSAGA.fun_deriv a) f' (FminSAGA.A a) (FminSAGA.b a)
       (FminSAGA.alpha a) (FminSAGA.beta a) (FminSAGA.step_size a))); [done|].
  intros [[x0 mg0] ga0] i. unfold SAGA.sample_update. by rewrite f_f'.
Qed.

Lemma saga_certificate_ext x ga :
  FminSAGA.certificate_sq (saga_with_g_prox a p) f x ga
  = FminSAGA.certificate_sq (saga_with_g_prox a p') f' x ga.
Proof. unfold FminSAGA.certificate_sq. cbn. by rewrite f_f'. Qed.

Lemma saga_epochs_ext x mg ga its : forall h log v,
  FminSAGA.epochs (saga_with_g_prox a p) f x mg ga its h log v
  = FminSAGA.epochs (saga_with_g_prox a p') f' x mg ga its h log v.
Proof.
  induction its as [|i its IH]; intros h log v; [done|].
  cbn [FminSAGA.epochs]. cbv zeta.
  rewrite saga_epoch_iteration_ext, saga_certificate_ext.
  saga_args.
  destruct (below_tol _ _); [done|]. apply IH.
Qed.
End SagaIdentity.

Section PssagaIdentity.
Variable a : FminPSSAGA.args.
Variables pg pg' : callable_arg prox2.
Variables ph ph' : callable_arg prox.
Variables g g' : prox2.
Variables f f' : prox.
Hypothesis g_g' : forall step u v low high w, g step u v low high w = g' step u v low high w.
Hypothesis f_f' : forall step x low high, f step x low high = f' step x low high.

Lemma pssaga_sample_update_ext fp blocks A b al be ga step s i :
  PSSAGA.sample_update fp g f blocks A b al be ga step s i
  = PSSAGA.sample_update fp g' f' blocks A b al be ga step s i.
Proof.
  unfold PSSAGA.sample_update.
  rewrite (foldl_pointwise (PSSAGA.prox_g_block g blocks A be step)
             (PSSAGA.prox_g_block g' blocks A be step)).
  2:{ intros s0 k. unfold PSSAGA.prox_g_block. by rewrite g_g'. }
  cbv zeta.
  rewrite (foldl_pointwise (PSSAGA.prox_h_block f blocks A al ga step)
             (PSSAGA.prox_h_block f' blocks A al ga step)); [done|].
  intros s0 k. unfold PSSAGA.prox_h_block. by rewrite f_f'.
Qed.

Lemma pssaga_epoch_iteration_ext blocks h y x z mg ga s :
  FminPSSAGA.epoch_iteration (pssaga_with_prox a pg ph) g f blocks h y x z mg ga s
  = FminPSSAGA.epoch_iteration (pssaga_with_prox a pg' ph') g' f' blocks h y x z mg ga s.
Proof.
  unfold FminPSSAGA.epoch_iteration, PSSAGA.epoch_iteration_template.
  pssaga_args.
  rewrite (foldl_pointwise _
    (PSSAGA.sample_update (FminPSSAGA.fun_deriv a) g' f' blocks (FminPSSAGA.A a)
       (FminPSSAGA.b a) (FminPSSAGA.alpha a) (FminPSSAGA.beta a) (FminPSSAGA.gamma a)
       (FminPSSAGA.step_size a))); [done|].
  intros s0 i. apply pssaga_sample_update_ext.
Qed.

Lemma pssaga_epochs_ext blocks y x z mg ga its : forall h log v,
  FminPSSAGA.epochs (pssaga_with_prox a pg ph) g f blocks y x z mg ga its h log v
  = FminPSSAGA.epochs (pssaga_with_prox a pg' ph') g' f' blocks y x z mg ga its h log v.
Proof.
  induction its as [|i its IH]; intros h log v; [done|].
  cbn [FminPSSAGA.epochs]. cbv zeta.
  rewrite pssaga_epoch_iteration_ext.
  pssaga_args.
  destruct (below_tol _ _); [done|]. apply IH.
Qed.
End PssagaIdentity.

Section Identity.
Lemma default_g_prox_identity2 : is_identity2 FminPSSAGA.default_g_prox.
Proof. by intros step u v low high w. Qed.

Lemma saga_none_identity a f h :
  is_identity f ->
  FminSAGA.fmin_SAGA (saga_with_g_prox a (IsCallable f)) h
  = FminSAGA.fmin_SAGA (saga_with_g_prox a IsNone) h.
Proof.
  intros Hf. unfold FminSAGA.fmin_SAGA, FminSAGA.warm_up.
  saga_args.
  destruct (np_copy h (FminSAGA.x0 a)) as [x h1].
  do 2 (destruct (negb _); [done|]). destruct (bool_decide _); [done|].
  destruct (negb _); [done|].
  destruct (alloc h1 _) as [mg h2]. destruct (alloc h2 _) as [ga h3].
  destruct (SAGA.init_gradient _ _ _ _ _ _) as [mg' ga'].
  destruct (np_copy _ x) as [xc h4].
  rewrite (saga_epoch_iteration_ext a (IsCallable f) IsNone f FminSAGA.default_g_prox Hf).
  by rewrite (saga_epochs_ext a (IsCallable f) IsNone f FminSAGA.default_g_prox Hf).
Qed.

Lemma pssaga_none_identity_g a f hp h :
  is_identity2 f ->
  FminPSSAGA.fmin_PSSAGA (pssaga_with_prox a (IsCallable f) hp) h
  = FminPSSAGA.fmin_PSSAGA (pssaga_with_prox a IsNone hp) h.
Proof.
  intros Hf. unfold FminPSSAGA.fmin_PSSAGA.
  pssaga_args.
  destruct (match hp with IsCallable f0 => Some f0 | IsNone => _ | IsOther => None end)
    as [prox_h|]; [|done].
  destruct (np_copy h (FminPSSAGA.x0 a)) as [y h1].
  destruct (np_copy h1 (FminPSSAGA.x0 a)) as [x h2].
  destruct (np_copy h2 x) as [z h3].
  destruct (negb _); [done|]. destruct (bool_decide _); [done|].
  destruct (PSSAGA.factory_raises _ _); [done|].
  destruct (alloc h3 _) as [mg h4]. destruct (alloc h4 _) as [ga h5].
  destruct (PSSAGA.init_gradient _ _ _ _ _ _) as [mg' ga'].
  assert (forall step u v low high w,
             f step u v low high w = FminPSSAGA.default_g_prox step u v low high w) as Hg
    by (intros; apply Hf).
  rewrite (pssaga_epoch_iteration_ext a (IsCallable f) IsNone hp hp f
             FminPSSAGA.default_g_prox prox_h prox_h Hg (fun _ _ _ _ => eq_refl)).
  by rewrite (pssaga_epochs_ext a (IsCallable f) IsNone hp hp f
                FminPSSAGA.default_g_prox prox_h prox_h Hg (fun _ _ _ _ => eq_refl)).
Qed.

Lemma pssaga_none_identity_h a f gp blocks h :
  is_identity f ->
  FminPSSAGA.h_blocks a = Some blocks ->
  FminPSSAGA.fmin_PSSAGA (pssaga_with_prox a gp (IsCallable f)) h
  = FminPSSAGA.fmin_PSSAGA (pssaga_with_prox a gp IsNone) h.
Proof.
  intros Hf Hb. unfold FminPSSAGA.fmin_PSSAGA.
  pssaga_args.
  rewrite Hb. cbn [FminPSSAGA.resolve_h_blocks].
  destruct (match gp with IsCallable f0 => Some f0 | IsNone => _ | IsOther => None end)
    as [prox_g|]; [|done].
  destruct (np_copy h (FminPSSAGA.x0 a)) as [y h1].
  destruct (np_copy h1 (FminPSSAGA.x0 a)) as [x h2].
  destruct (np_copy h2 x) as [z h3].
  destruct (negb _); [done|]. destruct (bool_decide _); [done|].
  destruct (PSSAGA.factory_raises _ _); [done|].
  destruct (alloc h3 _) as [mg h4]. destruct (alloc h4 _) as [ga h5].
  destruct (PSSAGA.init_gradient _ _ _ _ _ _) as [mg' ga'].
  rewrite (pssaga_epoch_iteration_ext a gp gp (IsCallable f) IsNone prox_g prox_g
             f FminPSSAGA.default_h_prox (fun _ _ _ _ _ _ => eq_refl) Hf).
  by rewrite (pssaga_epochs_ext a gp gp (IsCallable f) IsNone prox_g prox_g
                f FminPSSAGA.default_h_prox (fun _ _ _ _ _ _ => eq_refl) Hf).
Qed.

(** C8 (amended).  In exact arithmetic a call with no proximal callable for
    a term returns what the call with an explicit identity operator for
    that term returns, all other arguments equal (the whole run: heap,
    dispatched samples, result and recorded coefficients): for the term [g]
    of [fmin_SAGA], for the first term of [fmin_PSSAGA], and for the second
    term of [fmin_PSSAGA] when [h_blocks] is given. *)
Theorem omitted_prox_is_identity :
  (forall a f h,
      is_identity f ->
      FminSAGA.fmin_SAGA (saga_with_g_prox a IsNone) h
      = FminSAGA.fmin_SAGA (saga_with_g_prox a (IsCallable f)) h)
  /\ (forall a f hp h,
        is_identity2 f ->
        FminPSSAGA.fmin_PSSAGA (pssaga_with_prox a IsNone hp) h
        = FminPSSAGA.fmin_PSSAGA (pssaga_with_prox a (IsCallable f) hp) h)
  /\ (forall a f gp blocks h,
        is_identity f ->
        FminPSSAGA.h_blocks a = Some blocks ->
        FminPSSAGA.fmin_PSSAGA (pssaga_with_prox a gp IsNone) h
        = FminPSSAGA.fmin_PSSAGA (pssaga_with_prox a gp (IsCallable f)) h).
Proof.
  split; [|split].
  - intros. symmetry. by apply saga_none_identity.
  - intros. symmetry. by apply pssaga_none_identity_g.
  - intros. symmetry. by eapply pssaga_none_identity_h.
Qed.
End Identity.

(** * The block-support index *)

Section FirstOccurrences.
Lemma record_first_spec acc v :
  NoDup acc ->
  NoDup (record_first acc v) /\ forall w, w ∈ record_first acc v <-> w ∈ acc \/ w = v.
Proof.
  intros Hnd. unfold record_first. destruct (decide (v ∈ acc)) as [Hin|Hnin].
  - split; [done|]. intros w. split; [by left|]. by intros [?| ->].
  - split.
    + apply list.NoDup_app. repeat split; [done| |apply NoDup_singleton].
      intros w Hw ->%list_elem_of_singleton. done.
    + intros w. rewrite elem_of_app, list_elem_of_singleton. done.
Qed.

Lemma foldl_record_first_spec l : forall acc,
  NoDup acc ->
  NoDup (foldl record_first acc l)
  /\ forall w, w ∈ foldl record_first acc l <-> w ∈ acc \/ w ∈ l.
Proof.
  induction l as [|v l IH]; intros acc Hnd.
  - split; [done|]. intros w. rewrite elem_of_nil. tauto.
  - cbn [foldl]. destruct (record_first_spec acc v Hnd) as [Hnd' Hin'].
    destruct (IH _ Hnd') as [Hnd'' Hin'']. split; [done|].
    intros w. rewrite Hin'', Hin', elem_of_cons. tauto.
Qed.

Lemma first_occurrences_spec l :
  NoDup (first_occurrences l) /\ forall w, w ∈ first_occurrences l <-> w ∈ l.
Proof.
  destruct (foldl_record_first_spec l [] (NoDup_nil_2)) as [Hnd Hin].
  split; [done|]. intros w. unfold first_occurrences. rewrite Hin, elem_of_nil. tauto.
Qed.
End FirstOccurrences.

Section SupportMatrix.
Variables A_indices A_indptr g_blocks : list nat.
Variable n_blocks : nat.

Let blk (j : nat) : nat := g_blocks !!! (A_indices !!! j).

Local Abbreviation rows_before := (support_rows_before A_indices A_indptr g_blocks).
Local Abbreviation rows_inv := (support_rows_inv A_indices A_indptr g_blocks n_blocks).
Local Abbreviation row_ids i := (first_occurrences (row_blocks A_indices A_indptr g_blocks i)).

Lemma visit_step s prefix acc j :
  support_visit_inv n_blocks s prefix acc ->
  blk j < n_blocks ->
  counter_indptr s < length (BS_indices s) ->
  let s' := support_visit A_indices g_blocks s j in
  support_visit_inv n_blocks s' prefix (record_first acc (blk j))
  /\ length (BS_indices s') = length (BS_indices s)
  /\ BS_indptr s' = BS_indptr s
  /\ counter_indptr s' <= S (counter_indptr s).
Proof.
  intros (Htake & Hcount & Hlen & Hseen) Hblk Hroom. cbv zeta.
  unfold support_visit. fold (blk j).
  pose proof (Hseen _ Hblk) as Hj.
  destruct (decide (seen_blocks s !!! blk j = 0)) as [Hz|Hnz].
  - assert (blk j ∉ acc) as Hnin.
    { intros Hin. rewrite decide_True in Hj by done. lia. }
    unfold record_first, support_visit_inv. rewrite decide_False by done.
    cbn [BS_indices BS_indptr seen_blocks counter_indptr].
    repeat split.
    + rewrite Nat.add_1_r.
      rewrite (take_S_r _ _ (blk j)) by (by apply list_lookup_insert_eq).
      rewrite take_insert_ge by lia. rewrite Htake. by rewrite app_assoc.
    + rewrite length_app. cbn [length]. lia.
    + by rewrite length_insert.
    + intros v Hv. destruct (decide (v = blk j)) as [->|Hne].
      * rewrite list_lookup_total_insert_eq by lia.
        rewrite decide_True; [done|]. apply elem_of_app. right. left.
      * rewrite list_lookup_total_insert_ne by done. rewrite (Hseen v Hv).
        destruct (decide (v ∈ acc)) as [Hin|Hin'].
        -- rewrite decide_True; [done|]. apply elem_of_app. by left.
        -- rewrite decide_False; [done|].
           intros [?|?%list_elem_of_singleton]%elem_of_app; done.
    + by rewrite length_insert.
    + lia.
  - assert (blk j ∈ acc) as Hin.
    { destruct (decide (blk j ∈ acc)); [done|]. by rewrite Hj in Hnz. }
    unfold record_first. rewrite decide_True by done.
    repeat split; try done. lia.
Qed.

Lemma visit_fold js : forall s prefix acc,
  support_visit_inv n_blocks s prefix acc ->
  Forall (fun j => blk j < n_blocks) js ->
  counter_indptr s + length js <= length (BS_indices s) ->
  let s' := foldl (support_visit A_indices g_blocks) s js in
  support_visit_inv n_blocks s' prefix (foldl record_first acc (blk <$> js))
  /\ length (BS_indices s') = length (BS_indices s)
  /\ BS_indptr s' = BS_indptr s
  /\ counter_indptr s' <= counter_indptr s + length js.
Proof.
  induction js as [|j js IH]; intros s prefix acc Hinv Hblk Hroom; cbv zeta.
  - cbn. repeat split; try done; [apply Hinv..|lia].
  - cbn [foldl fmap list_fmap length] in *.
    apply list.Forall_cons in Hblk as [Hj Hblk].
    destruct (visit_step s prefix acc j Hinv Hj) as (Hinv' & Hlen' & Hptr' & Hc'); [lia|].
    destruct (IH _ prefix _ Hinv' Hblk) as (Hinv'' & Hlen'' & Hptr'' & Hc''); [lia|].
    repeat split; try apply Hinv''; [congruence..|lia].
Qed.

Lemma lookup_total_beyond (l : list nat) i : length l <= i -> l !!! i = 0.
Proof.
  intros Hi. rewrite list_lookup_total_alt.
  assert (l !! i = None) as -> by (by apply lookup_ge_None_2). done.
Qed.

Lemma cleanup_length BS js : forall seen,
  length (foldl (support_cleanup BS) seen js) = length seen.
Proof.
  induction js as [|j js IH]; intros seen; [done|].
  cbn [foldl]. rewrite IH. apply length_insert.
Qed.

Lemma cleanup_fold (BS : list nat) js : forall seen v,
  foldl (support_cleanup BS) seen js !!! v
  = if decide (v ∈ (fun j => BS !!! j) <$> js) then 0 else seen !!! v.
Proof.
  induction js as [|j js IH]; intros seen v.
  - cbn. by rewrite decide_False by apply not_elem_of_nil.
  - cbn [foldl fmap list_fmap]. rewrite IH. unfold support_cleanup.
    destruct (decide (v ∈ (fun j => BS !!! j) <$> js)) as [Hin|Hnin].
    + rewrite decide_True; [done|]. by right.
    + rewrite list_lookup_total_insert.
      destruct (decide (BS !!! j = v)) as [<-|Hne].
      * rewrite (decide_True (P := BS !!! j ∈ _ :: _)) by left.
        case_decide; [done|]. apply lookup_total_beyond. lia.
      * rewrite decide_False by tauto.
        rewrite decide_False; [done|]. intros [?|?]%elem_of_cons; done.
Qed.

Lemma recorded_ids (acc : list nat) : forall prefix BS : list nat,
  take (length prefix + length acc) BS = prefix ++ acc ->
  (fun j => BS !!! j) <$> seq (length prefix) (length acc) = acc.
Proof.
  induction acc as [|v acc IH]; intros prefix BS Htake; [done|].
  cbn [length seq fmap list_fmap]. f_equal.
  - apply list_lookup_total_correct.
    rewrite <- (lookup_take_lt _ (length prefix + length (v :: acc)))
      by (cbn [length]; lia).
    rewrite Htake. by apply list_lookup_middle.
  - specialize (IH (prefix ++ [v]) BS). rewrite length_app in IH. cbn [length] in IH.
    rewrite Nat.add_1_r in IH. apply IH.
    rewrite <- app_assoc. cbn [app]. rewrite <- Htake. f_equal. cbn [length]. lia.
Qed.

Lemma rows_before_S i :
  rows_before (S i)
  = rows_before i ++ [row_ids i].
Proof. unfold support_rows_before. by rewrite seq_S, fmap_app. Qed.

Lemma concat_rows_before_S i :
  concat (rows_before (S i))
  = concat (rows_before i) ++ row_ids i.
Proof. rewrite rows_before_S, concat_app. cbn [concat]. by rewrite app_nil_r. Qed.

Hypothesis args_ok : support_args_ok A_indices A_indptr g_blocks n_blocks.

Lemma row_step s i :
  i < length A_indptr - 1 ->
  rows_inv s i ->
  rows_inv (support_row A_indices A_indptr g_blocks s i) (S i).
Proof.
  intros Hi (Htake & Hcount & HlenBS & Hlenptr & Hptr & Hlenseen & Hseen & Hbound).
  destruct args_ok as (Hmono & Hlast & Hblocks).
  rewrite list.Forall_forall in Hmono, Hlast, Hblocks.
  assert (A_indptr !!! i <= A_indptr !!! (i + 1)) as Hle
    by (apply Hmono, elem_of_seq; lia).
  assert (A_indptr !!! (i + 1) <= length A_indices) as Hhigh
    by (apply Hlast, list_elem_of_lookup_total_2; lia).
  assert (Forall (fun j => blk j < n_blocks)
                 (Np.range (A_indptr !!! i) (A_indptr !!! (i + 1)))) as Hblk.
  { specialize (Hblocks i). unfold row_blocks, row_range in Hblocks.
    rewrite Forall_fmap in Hblocks. apply Hblocks, elem_of_seq. lia. }
  assert (length (Np.range (A_indptr !!! i) (A_indptr !!! (i + 1)))
          = A_indptr !!! (i + 1) - A_indptr !!! i) as Hrange
    by (unfold Np.range; apply length_seq).
  destruct (visit_fold (Np.range (A_indptr !!! i) (A_indptr !!! (i + 1))) s
              (concat (rows_before i)) [])
    as ((Htake' & Hcount' & Hlenseen' & Hseen') & HlenBS' & Hptr' & Hc'); [|done|lia|].
  { repeat split; [by rewrite app_nil_r|cbn [length]; lia|done|].
    intros v Hv. rewrite decide_False by apply not_elem_of_nil. by apply Hseen. }
  unfold support_row. cbv zeta.
  set (s' := foldl (support_visit A_indices g_blocks) s _) in *.
  fold (row_blocks A_indices A_indptr g_blocks i) in Htake', Hcount', Hseen'.
  change (foldl record_first [] (blk <$> Np.range (A_indptr !!! i) (A_indptr !!! (i + 1))))
    with (row_ids i)
    in Htake', Hcount', Hseen'.
  set (acc := row_ids i) in *.
  unfold support_rows_inv. cbn [BS_indices BS_indptr seen_blocks counter_indptr].
  rewrite concat_rows_before_S. fold acc.
  repeat split.
  - done.
  - by rewrite length_app.
  - congruence.
  - rewrite length_insert. congruence.
  - intros k Hk. destruct (decide (k = S i)) as [->|Hne].
    + rewrite Nat.add_1_r, list_lookup_total_insert_eq by (rewrite Hptr'; lia).
      rewrite concat_rows_before_S. fold acc. by rewrite length_app.
    + rewrite list_lookup_total_insert_ne by lia. rewrite Hptr'. apply Hptr. lia.
  - by rewrite cleanup_length.
  - intros v Hv. rewrite cleanup_fold.
    rewrite list_lookup_total_insert_ne by lia. rewrite Hptr', (Hptr i) by lia.
    unfold Np.range. rewrite Hcount'.
    replace (length (concat (rows_before i)) + length acc
             - length (concat (rows_before i)))
      with (length acc) by lia.
    rewrite (recorded_ids acc (concat (rows_before i)) (BS_indices s'))
      by (by rewrite <- Hcount').
    rewrite (Hseen' v Hv). by destruct (decide (v ∈ acc)).
  - rewrite <- Nat.add_1_r. lia.
Qed.

Lemma rows_before_split i n :
  i < n ->
  exists rest,
    concat (rows_before n)
    = concat (rows_before i)
      ++ row_ids i ++ rest.
Proof.
  intros Hi. exists (concat ((fun r => first_occurrences
                                        (row_blocks A_indices A_indptr g_blocks r))
                               <$> seq (S i) (n - S i))).
  rewrite app_assoc, <- concat_rows_before_S, <- concat_app. f_equal.
  unfold support_rows_before. rewrite <- fmap_app. f_equal.
  replace n with (S i + (n - S i)) at 1 by lia. by rewrite seq_app.
Qed.

Lemma loop_inv n :
  n <= length A_indptr - 1 ->
  rows_inv
    (foldl (support_row A_indices A_indptr g_blocks)
              {| BS_indices := Np.izeros (length A_indices);
                 BS_indptr := <[0 := 0]> (Np.izeros (length A_indptr));
                 seen_blocks := Np.izeros n_blocks;
                 counter_indptr := 0 |}
              (seq 0 n)) n.
Proof.
  induction n as [|n IH]; intros Hn.
  - unfold support_rows_inv, Np.izeros.
    cbn [foldl seq BS_indices BS_indptr seen_blocks counter_indptr support_rows_before
         fmap list_fmap concat length take].
    rewrite length_insert, !length_replicate. repeat split; try done; [| |lia].
    + intros k Hk. assert (k = 0) as -> by lia.
      rewrite list_lookup_total_insert. case_decide; [done|].
      destruct (length A_indptr); [done|]. done.
    + intros v Hv. by apply lookup_total_replicate_2.
  - rewrite seq_S, foldl_snoc. cbn [Nat.add]. apply row_step; [lia|]. apply IH. lia.
Qed.

End SupportMatrix.

(** * The solvers on small problems *)

Section RepeatedColumn.
Import Examples.
Local Open Scope Qc_scope.

(** C2 (as stated) fails on a row that stores a column twice.  For the
    matrix [[3/2]] stored as the two entries [1] and [1/2] of column [0],
    [b = [1]] and [x = [0]], with the memory [[-1]] and the average
    [[-3/2]] that [init_gradient] leaves, the pass on sample [0] with step
    [1/2] applies the coefficient update once for each stored entry and
    leaves [x[0] = 3/2], where the update of the claim with
    [A[0, 0] = 3/2] gives [3/4]. *)
Lemma saga_repeated_column :
  let x := [0] in
  let memory := (SAGA.init_gradient deriv_squared A_twice [1] (Np.zeros 1) (Np.zeros 1) 1).1 in
  let gradient_average :=
    (SAGA.init_gradient deriv_squared A_twice [1] (Np.zeros 1) (Np.zeros 1) 1).2 in
  let p := x !!! 0%nat * entry A_twice 0 0 in
  let g_i := deriv_squared p ([1] !!! 0%nat) in
  let claimed :=
    x !!! 0%nat - half * ((g_i - memory !!! 0%nat) * entry A_twice 0 0
                          + gradient_average !!! 0%nat + 0 * x !!! 0%nat) in
  let r := SAGA.epoch_iteration_template deriv_squared identity_prox A_twice [1] 0 0
             x memory gradient_average [0%nat] half in
  entry A_twice 0 0 = Q2Qc (3 # 2)
  /\ memory = [-(1)] /\ gradient_average = [- Q2Qc (3 # 2)]
  /\ claimed = Q2Qc (3 # 4)
  /\ r.1.1 = [Q2Qc (3 # 2)]
  /\ r.1.1 !!! 0%nat ≠ claimed.
Proof.
  vm_compute. repeat split; try reflexivity.
  - f_equal. apply Qc_is_canon. reflexivity.
  - intros [=].
Qed.
End RepeatedColumn.

Section Runs.
Import Examples.

(** C3 (as stated) fails: after the only epoch of this run of [fmin_SAGA],
    the certificate is [1/2] (square [1/4]) while one proximal gradient
    step with the gradient at the current point gives [1/4] (square
    [1/16]); with [tol = 0.3] the run ends with [success=False] although
    that certificate is below [tol]. *)
Lemma saga_certificate_not_exact :
  match returned (FminSAGA.fmin_SAGA (saga_1x1 half) (heap_with (Np.zeros 1))) with
  | Some r =>
      let h := final_heap (FminSAGA.fmin_SAGA (saga_1x1 half) (heap_with (Np.zeros 1))) in
      let exact := proximal_gradient_certificate_sq deriv_squared FminSAGA.default_g_prox
                     A1 [1%Qc] 0%Qc 0%Qc half (h !!! FminSAGA.res_x r) in
      FminSAGA.res_certificate r ≠ exact
      /\ FminSAGA.res_success r = false
      /\ below_tol exact three_tenths = true
  | None => False
  end.
Proof. vm_compute. split; [intros [=]|split; reflexivity]. Qed.

(** C4: [fmin_SAGA] draws its sample indices with [np.random.randint]; the
    array [[0, 0]] is one it can return for two samples, the epoch kernel
    then receives it, and it is not a permutation of [[0, 1]]. *)
Lemma saga_samples_with_repetition :
  randint_outcome 2 [0; 0]
  /\ dispatched (FminSAGA.fmin_SAGA saga_2x2 (heap_with (Np.zeros 2))) = [[0]; [0; 0]]
  /\ ~ permutation_outcome 2 [0; 0].
Proof.
  split; [|split].
  - split; [reflexivity|]. repeat constructor.
  - vm_compute. reflexivity.
  - unfold permutation_outcome. intros H.
    assert (1 ∈ [0; 0]) as Hin by (rewrite H; cbn; right; left).
    apply elem_of_cons in Hin as [Hin|Hin]; [discriminate|].
    apply elem_of_cons in Hin as [Hin|Hin]; [discriminate|].
    by apply elem_of_nil in Hin.
Qed.

(** C5 (as stated) fails: a step size of zero is accepted. *)
Lemma saga_zero_step_size_accepted :
  (FminSAGA.step_size (saga_1x1 0%Qc) <= 0)%Qc
  /\ outcome (FminSAGA.fmin_SAGA (saga_1x1 0%Qc) (heap_with (Np.zeros 1))) ≠ inl ValueError.
Proof. split; [vm_compute; discriminate|]. vm_compute. discriminate. Qed.

(** C6: [fmin_PSSAGA] does not compare the size of [x0] with the number of
    features; with three coefficients for the two features of [I2] it
    raises nothing, runs the kernel and returns. *)
Lemma pssaga_accepts_wrong_size :
  length (heap_with (Np.zeros 3) !!! FminPSSAGA.x0 (pssaga_2x2 IsNone))
    ≠ snd (shape (FminPSSAGA.A (pssaga_2x2 IsNone)))
  /\ dispatched (FminPSSAGA.fmin_PSSAGA (pssaga_2x2 IsNone) (heap_with (Np.zeros 3)))
     = [[0]; [0; 1]]
  /\ FminPSSAGA.res_success
       <$> returned (FminPSSAGA.fmin_PSSAGA (pssaga_2x2 IsNone) (heap_with (Np.zeros 3)))
     = Some false.
Proof. split; [vm_compute; lia|split; vm_compute; reflexivity]. Qed.

(** C7 (as stated) fails: without [g_blocks], [fmin_SAGA] puts the two
    features of a problem in one block. *)
Lemma saga_default_blocks_shared :
  ~ one_feature_per_block (FminSAGA.resolve_g_blocks None 2).
Proof.
  unfold one_feature_per_block. cbn. intros H.
  inversion H as [|? ? Hnotin _]. apply Hnotin. left.
Qed.

(** C8 (as stated) fails: in [fmin_PSSAGA] without [h_blocks], the
    coefficients recorded after the first epoch differ between
    [h_prox=None] and an explicit identity operator. *)
Lemma pssaga_none_differs_from_identity :
  is_identity identity_prox
  /\ (map fractions ∘ FminPSSAGA.res_trace_x)
       <$> returned (FminPSSAGA.fmin_PSSAGA (pssaga_2x2 IsNone) (heap_with (Np.zeros 2)))
     = Some [[0; 0]; [1 # 2; 0]]%Q
  /\ (map fractions ∘ FminPSSAGA.res_trace_x)
       <$> returned (FminPSSAGA.fmin_PSSAGA (pssaga_2x2 (IsCallable identity_prox))
                       (heap_with (Np.zeros 2)))
     = Some [[0; 0]; [3 # 8; 1 # 2]]%Q
  /\ FminPSSAGA.res_trace_x
       <$> returned (FminPSSAGA.fmin_PSSAGA (pssaga_2x2 IsNone) (heap_with (Np.zeros 2)))
     ≠ FminPSSAGA.res_trace_x
         <$> returned (FminPSSAGA.fmin_PSSAGA (pssaga_2x2 (IsCallable identity_prox))
                         (heap_with (Np.zeros 2))).
Proof.
  split; [done|split; [|split]]; [vm_compute; reflexivity..|].
  intros H. apply (f_equal (fmap (map fractions))) in H. vm_compute in H. discriminate.
Qed.


(** C7 (amended).  A block assignment that is given is used as it is.
    When it is omitted, [fmin_SAGA] puts every feature in block [0], and so
    does [fmin_PSSAGA] when [h_prox] is supplied; [fmin_PSSAGA] uses one
    block per feature only when [h_prox] is omitted too. *)
Theorem default_block_assignment (n_features : nat) :
  FminSAGA.resolve_g_blocks None n_features = replicate n_features 0
  /\ (forall f, FminPSSAGA.resolve_h_blocks (IsCallable f) None n_features
                = replicate n_features 0)
  /\ FminPSSAGA.resolve_h_blocks IsNone None n_features = seq 0 n_features
  /\ one_feature_per_block (FminPSSAGA.resolve_h_blocks IsNone None n_features)
  /\ (forall g, FminSAGA.resolve_g_blocks (Some g) n_features = g)
  /\ (forall hp g, FminPSSAGA.resolve_h_blocks hp (Some g) n_features = g).
Proof.
  repeat split; try reflexivity.
  - apply NoDup_seq.
  - by intros [].
Qed.
End Runs.

(** * The theorems on the small problems *)

Section Witnesses.
Import Examples.

(** C1 on the identity matrix: the invariant after [init_gradient] and one
    pass of the SAGA kernel on sample [1]. *)
Lemma gradient_average_invariant_witness :
  columns_in_range I2
  /\ forall x mg ga,
       SAGA.sample_update deriv_squared identity_prox I2 [1; 1]%Qc 0%Qc 0%Qc half
         (Np.zeros 2,
          (SAGA.init_gradient deriv_squared I2 [1; 1]%Qc (Np.zeros 2) (Np.zeros 2) 2).1,
          (SAGA.init_gradient deriv_squared I2 [1; 1]%Qc (Np.zeros 2) (Np.zeros 2) 2).2) 1
       = (x, mg, ga) ->
       forall j, j < 2 -> ga !!! j = average_of_memory I2 mg j.
Proof.
  assert (columns_in_range I2) as Hcol by (vm_compute; repeat constructor).
  split; [exact Hcol|].
  intros x mg ga E.
  apply (proj1 (gradient_average_invariant deriv_squared I2 [1; 1]%Qc Hcol)
           identity_prox 0%Qc 0%Qc x mg ga).
  rewrite <- E.
  apply saga_after_sample.
  - apply saga_after_init.
  - cbn. lia.
Defined.

(** C3 (amended) on runs of one epoch of the two solvers: the loop ends at
    an iteration below [max_iter]. *)
Lemma certificate_and_success_witness :
  (0 < FminSAGA.max_iter saga_2x2
   /\ FminSAGA.success locals_before_loop = false
   /\ exists n, n < FminSAGA.max_iter saga_2x2
        /\ FminSAGA.it (FminSAGA.epochs saga_2x2 identity_prox 0 1 2
                          (Np.range 0 (FminSAGA.max_iter saga_2x2))
                          heap_after_init [] locals_before_loop).2 = Some n)
  /\ (0 < FminPSSAGA.max_iter pssaga_2x2_blocks
      /\ FminPSSAGA.success pssaga_locals_before_loop = false
      /\ exists n, n < FminPSSAGA.max_iter pssaga_2x2_blocks
           /\ FminPSSAGA.it
                (FminPSSAGA.epochs pssaga_2x2_blocks FminPSSAGA.default_g_prox
                   identity_prox [0; 0] 0 1 2 3 4
                   (Np.range 0 (FminPSSAGA.max_iter pssaga_2x2_blocks))
                   pssaga_heap_after_init [] pssaga_locals_before_loop).2 = Some n).
Proof.
  assert (0 < FminSAGA.max_iter saga_2x2) as Hmax by (cbn; lia).
  assert (FminSAGA.success locals_before_loop = false) as Hs by reflexivity.
  assert (0 < FminPSSAGA.max_iter pssaga_2x2_blocks) as Hmax' by (cbn; lia).
  assert (FminPSSAGA.success pssaga_locals_before_loop = false) as Hs' by reflexivity.
  split.
  - split; [exact Hmax|]. split; [exact Hs|].
    destruct (proj1 certificate_and_success saga_2x2 identity_prox 0 1 2
                heap_after_init [] locals_before_loop Hmax Hs)
      as (_ & _ & n & Hn & Hit & _).
    exists n. split; [exact Hn|exact Hit].
  - split; [exact Hmax'|]. split; [exact Hs'|].
    destruct (proj2 certificate_and_success pssaga_2x2_blocks FminPSSAGA.default_g_prox
                identity_prox [0; 0] 0 1 2 3 4
                pssaga_heap_after_init [] pssaga_locals_before_loop Hmax' Hs')
      as (_ & _ & n & Hn & Hit & _).
    exists n. split; [exact Hn|exact Hit].
Defined.

(** C5 (amended) on a call with the step size [-1/2]: the checks before the
    step-size check pass, the call raises [ValueError] and no kernel has
    run. *)
Lemma step_size_check_witness :
  (length (heap_with (Np.zeros 1) !!! FminSAGA.x0 (saga_1x1 (- half)))
   = snd (shape (FminSAGA.A (saga_1x1 (- half))))
   /\ fst (shape (FminSAGA.A (saga_1x1 (- half)))) = length (FminSAGA.b (saga_1x1 (- half)))
   /\ (FminSAGA.step_size (saga_1x1 (- half)) < 0)%Qc)
  /\ outcome (FminSAGA.fmin_SAGA (saga_1x1 (- half)) (heap_with (Np.zeros 1)))
     = inl ValueError
  /\ dispatched (FminSAGA.fmin_SAGA (saga_1x1 (- half)) (heap_with (Np.zeros 1))) = [].
Proof.
  assert (length (heap_with (Np.zeros 1) !!! FminSAGA.x0 (saga_1x1 (- half)))
          = snd (shape (FminSAGA.A (saga_1x1 (- half))))
          /\ fst (shape (FminSAGA.A (saga_1x1 (- half))))
             = length (FminSAGA.b (saga_1x1 (- half)))
          /\ (FminSAGA.step_size (saga_1x1 (- half)) < 0)%Qc) as H
    by (vm_compute; repeat split).
  pose proof (proj1 step_size_check (saga_1x1 (- half)) (heap_with (Np.zeros 1)))
    as [Hiff Hearly].
  split; [exact H|]. split; [exact (proj2 Hiff H)|exact (Hearly (proj2 Hiff H))].
Defined.

(** C8 (amended) on the 2 by 2 problems: the three pairs of calls return the
    same run. *)
Lemma omitted_prox_is_identity_witness :
  is_identity identity_prox
  /\ is_identity2 FminPSSAGA.default_g_prox
  /\ FminPSSAGA.h_blocks pssaga_2x2_blocks = Some [0; 0]
  /\ FminSAGA.fmin_SAGA (saga_with_g_prox saga_2x2 IsNone) (heap_with (Np.zeros 2))
     = FminSAGA.fmin_SAGA (saga_with_g_prox saga_2x2 (IsCallable identity_prox))
         (heap_with (Np.zeros 2))
  /\ FminPSSAGA.fmin_PSSAGA (pssaga_with_prox pssaga_2x2_blocks IsNone IsNone)
       (heap_with (Np.zeros 2))
     = FminPSSAGA.fmin_PSSAGA
         (pssaga_with_prox pssaga_2x2_blocks (IsCallable FminPSSAGA.default_g_prox) IsNone)
         (heap_with (Np.zeros 2))
  /\ FminPSSAGA.fmin_PSSAGA (pssaga_with_prox pssaga_2x2_blocks IsNone IsNone)
       (heap_with (Np.zeros 2))
     = FminPSSAGA.fmin_PSSAGA
         (pssaga_with_prox pssaga_2x2_blocks IsNone (IsCallable identity_prox))
         (heap_with (Np.zeros 2)).
Proof.
  assert (is_identity identity_prox) as H1 by (intros ? ? ? ?; reflexivity).
  assert (is_identity2 FminPSSAGA.default_g_prox) as H2
    by (intros ? ? ? ? ? ?; reflexivity).
  assert (FminPSSAGA.h_blocks pssaga_2x2_blocks = Some [0; 0]) as H3 by reflexivity.
  destruct omitted_prox_is_identity as (Hs & Hg & Hh).
  split; [exact H1|]. split; [exact H2|]. split; [exact H3|].
  split; [|split].
  - exact (Hs saga_2x2 identity_prox (heap_with (Np.zeros 2)) H1).
  - exact (Hg pssaga_2x2_blocks FminPSSAGA.default_g_prox IsNone (heap_with (Np.zeros 2)) H2).
  - exact (Hh pssaga_2x2_blocks identity_prox IsNone [0; 0] (heap_with (Np.zeros 2)) H1 H3).
Defined.


(** C2 (amended) on the identity matrix: the pass on sample [0] from
    [x = [1, 0]], the memory [[-1, -1]] and the average [[-1/2, -1/2]] that
    [init_gradient] leaves gives [g_0 = 0], [x[0] = 3/4], the memory
    [[0, -1]] and the average [0] at feature [0]. *)
Lemma saga_epoch_steps_witness :
  NoDup ((fun k => indices I2 !!! k) <$> row_range (indptr I2) 0)
  /\ Forall (fun j => j < length [1; 0]%Qc /\ j < length [- half; - half]%Qc)
            ((fun k => indices I2 !!! k) <$> row_range (indptr I2) 0)
  /\ 0 < length [-(1); -(1)]%Qc
  /\ fractions
       (SAGA.epoch_iteration_template deriv_squared identity_prox I2 [1; 1]%Qc 0%Qc 0%Qc
          [1; 0]%Qc [-(1); -(1)]%Qc [- half; - half]%Qc ([] ++ [0]) half).1.2
     = [0; -1 # 1]%Q
  /\ this
       ((SAGA.epoch_iteration_template deriv_squared identity_prox I2 [1; 1]%Qc 0%Qc 0%Qc
           [1; 0]%Qc [-(1); -(1)]%Qc [- half; - half]%Qc ([] ++ [0]) half).2 !!! 0)
     = 0%Q
  /\ this
       ((SAGA.epoch_iteration_template deriv_squared identity_prox I2 [1; 1]%Qc 0%Qc 0%Qc
           [1; 0]%Qc [-(1); -(1)]%Qc [- half; - half]%Qc ([] ++ [0]) half).1.1 !!! 0)
     = (3 # 4)%Q.
Proof.
  assert (NoDup ((fun k => indices I2 !!! k) <$> row_range (indptr I2) 0)) as Hnd
    by (vm_compute; apply NoDup_singleton).
  assert (Forall (fun j => j < length [1; 0]%Qc /\ j < length [- half; - half]%Qc)
                 ((fun k => indices I2 !!! k) <$> row_range (indptr I2) 0)) as Hin
    by (vm_compute; repeat constructor).
  assert (0 < length [-(1); -(1)]%Qc) as Hi by (cbn; lia).
  split; [exact Hnd|]. split; [exact Hin|]. split; [exact Hi|].
  destruct (saga_epoch_steps deriv_squared identity_prox I2 [1; 1]%Qc 0%Qc 0%Qc half
              [1; 0]%Qc [-(1); -(1)]%Qc [- half; - half]%Qc [] 0 [] Hnd Hin Hi)
    as ((x1 & _ & Hx1 & Hx) & Hlen & Hga & Hmem & _).
  split; [|split].
  - rewrite Hmem. vm_compute. reflexivity.
  - rewrite Hga. vm_compute. reflexivity.
  - rewrite Hx. unfold identity_prox. rewrite Hx1. vm_compute. reflexivity.
Defined.

(** C10 on the arrays that [init_gradient] leaves for the identity matrix,
    with [x = [1, 0]]: the warm-up leaves [x] as it is, turns the memory
    [[-1, -1]] into [[0, -1]], and adds [1/2] to the average at feature
    [0]. *)
Lemma warm_up_frame_witness :
  (0 ≠ 1 /\ 0 ≠ 2 /\ 1 ≠ 2)
  /\ (is_Some (heap_away_from_zero !! 0) /\ is_Some (heap_away_from_zero !! 1)
      /\ is_Some (heap_away_from_zero !! 2))
  /\ 0 < fst (shape (FminSAGA.A saga_2x2))
  /\ columns_in_range (FminSAGA.A saga_2x2)
  /\ (length (heap_away_from_zero !!! 0) = snd (shape (FminSAGA.A saga_2x2))
      /\ length (heap_away_from_zero !!! 1) = fst (shape (FminSAGA.A saga_2x2))
      /\ length (heap_away_from_zero !!! 2) = snd (shape (FminSAGA.A saga_2x2)))
  /\ FminSAGA.warm_up saga_2x2 identity_prox heap_away_from_zero 0 1 2 !! 0
     = Some [1; 0]%Qc
  /\ fractions <$> FminSAGA.warm_up saga_2x2 identity_prox heap_away_from_zero 0 1 2 !! 1
     = Some [0; -1 # 1]%Q
  /\ this ((FminSAGA.warm_up saga_2x2 identity_prox heap_away_from_zero 0 1 2 !!! 2) !!! 0)
     = 0%Q.
Proof.
  assert (0 ≠ 1) as H01 by lia. assert (0 ≠ 2) as H02 by lia.
  assert (1 ≠ 2) as H12 by lia.
  assert (is_Some (heap_away_from_zero !! 0)) as H0 by (vm_compute; eexists; reflexivity).
  assert (is_Some (heap_away_from_zero !! 1)) as H1 by (vm_compute; eexists; reflexivity).
  assert (is_Some (heap_away_from_zero !! 2)) as H2 by (vm_compute; eexists; reflexivity).
  assert (0 < fst (shape (FminSAGA.A saga_2x2))) as Hn by (cbn; lia).
  assert (columns_in_range (FminSAGA.A saga_2x2)) as Hcol by (vm_compute; repeat constructor).
  assert (length (heap_away_from_zero !!! 0) = snd (shape (FminSAGA.A saga_2x2))) as Lx
    by reflexivity.
  assert (length (heap_away_from_zero !!! 1) = fst (shape (FminSAGA.A saga_2x2))) as Lm
    by reflexivity.
  assert (length (heap_away_from_zero !!! 2) = snd (shape (FminSAGA.A saga_2x2))) as Lg
    by reflexivity.
  split; [exact (conj H01 (conj H02 H12))|].
  split; [exact (conj H0 (conj H1 H2))|].
  split; [exact Hn|]. split; [exact Hcol|].
  split; [exact (conj Lx (conj Lm Lg))|].
  pose proof (warm_up_frame saga_2x2 identity_prox heap_away_from_zero 0 1 2
                H01 H02 H12 H0 H1 H2 Hn Hcol Lx Lm Lg) as Hw.
  cbv zeta in Hw. destruct Hw as (Ex & Em & _ & _ & _ & Ega & _).
  split; [|split].
  - etransitivity; [exact Ex|reflexivity].
  - etransitivity; [exact (f_equal (fmap fractions) Em)|vm_compute; reflexivity].
  - etransitivity; [exact (f_equal this (Ega 0))|vm_compute; reflexivity].
Defined.
End Witnesses.

(** * Further properties of the module *)


(** * Losses and the L1 proximal operator *)

(** Goals on [Qc] as goals on [Q], where [lra] decides linear arithmetic. *)
Ltac qc_to_q :=
  repeat match goal with
         | |- @eq Qc _ _ => apply Qc_is_canon
         | H : @eq Qc ?a ?b |- _ =>
             let H' := fresh in
             assert (H' : (this a == this b)%Q) by (rewrite H; reflexivity); clear H
         end;
  unfold Qclt, Qcle, Qcminus, Qcdiv, Qcopp, Qcplus, Qcmult, Q2Qc in *; cbn [this] in *;
  rewrite ?Qred_correct in *.

Ltac qc_lra := qc_to_q; lra.

Section SquaredLoss.
Local Open Scope Qc_scope.

Lemma square_nonneg (a : Qc) : 0 <= a * a.
Proof.
  destruct (decide (a < 0)) as [Hneg|Hpos].
  - replace (a * a) with ((- a) * (- a)) by ring.
    apply Qcmult_nonneg_nonneg; qc_lra.
  - apply Qcmult_nonneg_nonneg; qc_lra.
Qed.

(** X1.  [deriv_squared] is the derivative of [f_squared] in its first
    argument: between two predictions the loss differs from its tangent by
    half the square of the step, so the tangent never lies above the loss. *)
Theorem deriv_squared_tangent (p q y : Qc) :
  f_squared q y
  = f_squared p y + deriv_squared p y * (q - p) + Q2Qc (1 # 2) * ((q - p) * (q - p))
  /\ f_squared p y + deriv_squared p y * (q - p) <= f_squared q y.
Proof.
  assert (f_squared q y
          = f_squared p y + deriv_squared p y * (q - p)
            + Q2Qc (1 # 2) * ((q - p) * (q - p))) as E
    by (unfold f_squared, deriv_squared; qc_to_q; ring).
  split; [exact E|]. rewrite E.
  pose proof (square_nonneg (q - p)) as Hsq.
  set (t := (q - p) * (q - p)) in *. set (u := f_squared p y + _).
  clearbody t u. qc_lra.
Qed.
End SquaredLoss.

Section ProxL1.
Local Open Scope Qc_scope.

Lemma list_eq_total (l1 l2 : list Qc) :
  length l1 = length l2 -> (forall j, l1 !!! j = l2 !!! j) -> l1 = l2.
Proof.
  intros Hlen Heq. apply list_eq. intros j.
  destruct (decide (j < length l1)%nat) as [Hj|Hj].
  - rewrite !(list_lookup_lookup_total_lt _ j) by lia. by rewrite Heq.
  - rewrite !lookup_ge_None_2 by lia. done.
Qed.

Lemma lookup_total_out (l : list Qc) j : (length l <= j)%nat -> l !!! j = 0.
Proof.
  intros Hj. rewrite list_lookup_total_alt.
  assert (l !! j = None) as -> by (by apply lookup_ge_None_2). done.
Qed.

(** A loop that rewrites the entries at distinct positions, each from its own
    old value. *)
Lemma foldl_rewrite_entries (g : Qc -> Qc) js : forall (x : list Qc) j,
  g 0 = 0 -> NoDup js ->
  foldl (fun x j => <[j := g (x !!! j)]> x) x js !!! j
  = if decide (j ∈ js) then g (x !!! j) else x !!! j.
Proof.
  induction js as [|j0 js IH]; intros x j Hg Hnd.
  - cbn [foldl]. by rewrite decide_False by apply not_elem_of_nil.
  - apply list.NoDup_cons in Hnd as [Hj0 Hnd]. cbn [foldl]. rewrite IH by done.
    destruct (decide (j ∈ js)) as [Hin|Hnin].
    + rewrite decide_True by (by right).
      rewrite list_lookup_total_insert_ne; [done|]. by intros ->.
    + destruct (decide (j0 = j)) as [->|Hne].
      * rewrite decide_True by left.
        destruct (decide (j < length x)%nat).
        -- by rewrite list_lookup_total_insert_eq.
        -- rewrite list_insert_ge by lia. rewrite (lookup_total_out x j) by lia.
           by rewrite Hg.
      * rewrite list_lookup_total_insert_ne by done.
        rewrite decide_False; [done|]. intros [?|?]%elem_of_cons; done.
Qed.

Lemma foldl_rewrite_length (g : Qc -> Qc) js : forall x : list Qc,
  length (foldl (fun x j => <[j := g (x !!! j)]> x) x js) = length x.
Proof.
  induction js as [|j0 js IH]; intros x; [done|].
  cbn [foldl]. rewrite IH. apply length_insert.
Qed.

Lemma soft_threshold_zero s : soft_threshold s 0 = 0.
Proof.
  unfold soft_threshold. replace (- 0 - s) with (0 - s) by ring. ring.
Qed.

Lemma prox_L1_lookup s x low high j :
  prox_L1 s x low high !!! j
  = if decide (low <= j < high)%nat then soft_threshold s (x !!! j) else x !!! j.
Proof.
  unfold prox_L1, Np.range.
  change (foldl _ x ?js) with
    (foldl (fun (x : list Qc) (j : nat) => <[j := soft_threshold s (x !!! j)]> x) x js).
  rewrite (foldl_rewrite_entries (soft_threshold s));
    [|apply soft_threshold_zero|apply NoDup_seq].
  destruct (decide (low <= j < high)%nat).
  - rewrite decide_True; [done|]. apply elem_of_seq. lia.
  - rewrite decide_False; [done|]. rewrite elem_of_seq. lia.
Qed.

Lemma soft_threshold_cases s v :
  0 <= s ->
  (s < v -> soft_threshold s v = v - s)
  /\ (v < - s -> soft_threshold s v = v + s)
  /\ (- s <= v -> v <= s -> soft_threshold s v = 0).
Proof.
  intros Hs. unfold soft_threshold, fmax.
  repeat split; intros; repeat case_decide; qc_lra.
Qed.

Lemma prox_L1_length s x low high : length (prox_L1 s x low high) = length x.
Proof. unfold prox_L1. apply (foldl_rewrite_length (soft_threshold s)). Qed.

(** X2.  With a step size that is not negative, [prox_L1] keeps the size of
    its array, leaves the entries outside [[low, high)] as they are, and
    moves every entry of the range towards zero by the step size: an entry
    above the step loses it, an entry below its opposite gains it, and an
    entry within the step of zero becomes exactly zero. *)
Theorem prox_L1_soft_threshold s x low high j :
  0 <= s ->
  length (prox_L1 s x low high) = length x
  /\ (~ (low <= j < high)%nat -> prox_L1 s x low high !!! j = x !!! j)
  /\ ((low <= j < high)%nat ->
      (s < x !!! j -> prox_L1 s x low high !!! j = x !!! j - s)
      /\ (x !!! j < - s -> prox_L1 s x low high !!! j = x !!! j + s)
      /\ (- s <= x !!! j -> x !!! j <= s -> prox_L1 s x low high !!! j = 0)).
Proof.
  intros Hs. split; [apply prox_L1_length|]. rewrite prox_L1_lookup. split.
  - intros Hout. by rewrite decide_False.
  - intros Hin. rewrite decide_True by done. by apply soft_threshold_cases.
Qed.

(** The cost of one coordinate in [prox_objective]. *)
Lemma prox_objective_cons s v x w u :
  prox_objective s (v :: x) (w :: u)
  = s * qabs w + Q2Qc (1 # 2) * ((w - v) * (w - v)) + prox_objective s x u.
Proof.
  unfold prox_objective, f_L1, norm_sq, vsub.
  cbn [zip_with fmap list_fmap]. rewrite !sum_cons. ring.
Qed.

Lemma soft_threshold_optimal s v w :
  0 <= s ->
  s * qabs (soft_threshold s v)
  + Q2Qc (1 # 2) * ((soft_threshold s v - v) * (soft_threshold s v - v))
  <= s * qabs w + Q2Qc (1 # 2) * ((w - v) * (w - v)).
Proof.
  intros Hs. destruct (soft_threshold_cases s v Hs) as (Hhigh & Hlow & Hmid).
  pose proof (square_nonneg (w - v + s)) as Sq1.
  pose proof (square_nonneg (w - v - s)) as Sq2.
  pose proof (square_nonneg w) as Sq3.
  assert (0 <= s * qabs w) as Habs.
  { apply Qcmult_nonneg_nonneg; [done|]. unfold qabs. case_decide; qc_lra. }
  assert (0 <= s * (qabs w - w)) as Hup.
  { apply Qcmult_nonneg_nonneg; [done|]. unfold qabs. case_decide; qc_lra. }
  assert (0 <= s * (qabs w + w)) as Hdown.
  { apply Qcmult_nonneg_nonneg; [done|]. unfold qabs. case_decide; qc_lra. }
  destruct (decide (s < v)) as [Hv|Hv].
  - rewrite (Hhigh Hv). unfold qabs at 1. rewrite decide_False by qc_lra.
    set (a := qabs w) in *. clearbody a. qc_lra.
  - destruct (decide (v < - s)) as [Hv'|Hv'].
    + rewrite (Hlow Hv'). unfold qabs at 1. rewrite decide_True by qc_lra.
      set (a := qabs w) in *. clearbody a. qc_lra.
    + rewrite Hmid by qc_lra. unfold qabs at 1. rewrite decide_False by qc_lra.
      assert (0 <= qabs w * (s - v) /\ 0 <= qabs w * (s + v)) as [P1 P2].
      { split; (apply Qcmult_nonneg_nonneg; [unfold qabs; case_decide; qc_lra|qc_lra]). }
      unfold qabs in *. case_decide; qc_lra.
Qed.

Lemma prox_L1_full s x :
  prox_L1 s x 0 (length x) = soft_threshold s <$> x.
Proof.
  apply list_eq_total; [by rewrite prox_L1_length, length_fmap|].
  intros j. rewrite prox_L1_lookup.
  destruct (decide (j < length x)%nat) as [Hj|Hj].
  - rewrite decide_True by lia. by rewrite (list_lookup_total_fmap (soft_threshold s)).
  - rewrite decide_False by lia. rewrite !lookup_total_out; [done|..]; [|lia].
    rewrite length_fmap. lia.
Qed.

Lemma soft_threshold_minimises s x : forall u,
  0 <= s -> length u = length x ->
  prox_objective s x (soft_threshold s <$> x) <= prox_objective s x u.
Proof.
  induction x as [|v x IH]; intros [|w u] Hs Hlen; try discriminate.
  - apply Qcle_refl.
  - rewrite fmap_cons, !prox_objective_cons.
    pose proof (soft_threshold_optimal s v w Hs) as Hc.
    pose proof (IH u Hs ltac:(by injection Hlen)) as Hr.
    set (c1 := s * qabs (soft_threshold s v) + _) in *.
    set (c2 := s * qabs w + _) in *.
    set (r1 := prox_objective s x _) in *. set (r2 := prox_objective s x u) in *.
    clearbody c1 c2 r1 r2. qc_lra.
Qed.

(** X3.  [prox_L1] applied to a whole array computes the proximal operator
    of [step_size * f_L1]: among the arrays of the same size, its result
    minimises [step_size * f_L1(u) + 0.5 * |u - x|^2]. *)
Theorem prox_L1_minimises s x u :
  0 <= s -> length u = length x ->
  prox_objective s x (prox_L1 s x 0 (length x)) <= prox_objective s x u.
Proof. intros Hs Hlen. rewrite prox_L1_full. by apply soft_threshold_minimises. Qed.

Lemma prox_L1_soft_threshold_witness :
  0 <= 1
  /\ (0 <= 0 < 2)%nat
  /\ 1 < [Q2Qc 3; 0] !!! 0%nat
  /\ prox_L1 1 [Q2Qc 3; 0] 0 2 !!! 0%nat = [Q2Qc 3; 0] !!! 0%nat - 1.
Proof.
  assert (0 <= 1) as Hs by (vm_compute; discriminate).
  assert (0 <= 0 < 2)%nat as Hin by lia.
  assert (1 < [Q2Qc 3; 0] !!! 0%nat) as Hgt by (vm_compute; reflexivity).
  split; [exact Hs|]. split; [exact Hin|]. split; [exact Hgt|].
  exact (proj1 (proj2 (proj2 (prox_L1_soft_threshold 1 [Q2Qc 3; 0] 0 2 0 Hs)) Hin) Hgt).
Defined.

Lemma prox_L1_minimises_witness :
  0 <= 1
  /\ length [Q2Qc 2; 0] = length [Q2Qc 3; 0]
  /\ prox_objective 1 [Q2Qc 3; 0] (prox_L1 1 [Q2Qc 3; 0] 0 (length [Q2Qc 3; 0]))
     <= prox_objective 1 [Q2Qc 3; 0] [Q2Qc 2; 0].
Proof.
  assert (0 <= 1) as Hs by (vm_compute; discriminate).
  assert (length [Q2Qc 2; 0] = length [Q2Qc 3; 0]) as Hlen by reflexivity.
  split; [exact Hs|]. split; [exact Hlen|].
  exact (prox_L1_minimises 1 [Q2Qc 3; 0] [Q2Qc 2; 0] Hs Hlen).
Defined.
End ProxL1.


(** * The check of the block assignment *)

Section Blocks.
Lemma insert_sorted_elem v l w : w ∈ Np.insert_sorted v l <-> w = v \/ w ∈ l.
Proof.
  induction l as [|u l IH]; cbn [Np.insert_sorted].
  - rewrite list_elem_of_singleton, elem_of_nil. tauto.
  - repeat case_decide; rewrite ?elem_of_cons, ?IH; subst; tauto.
Qed.

Lemma insert_sorted_sorted v l :
  StronglySorted lt l -> StronglySorted lt (Np.insert_sorted v l).
Proof.
  induction 1 as [|u l Hl IH Hu]; cbn [Np.insert_sorted].
  - repeat constructor.
  - repeat case_decide.
    + constructor; [by constructor|]. constructor; [done|].
      eapply Forall_impl; [exact Hu|]. intros; cbn in *; lia.
    + by constructor.
    + constructor; [done|]. apply list.Forall_forall. intros w Hw.
      apply insert_sorted_elem in Hw as [->|Hw]; [lia|].
      rewrite list.Forall_forall in Hu. by apply Hu.
Qed.

Lemma unique_elem a v : v ∈ Np.unique a <-> v ∈ a.
Proof.
  induction a as [|u a IH]; [done|].
  cbn [Np.unique foldr]. fold (Np.unique a).
  rewrite insert_sorted_elem, elem_of_cons, IH. tauto.
Qed.

Lemma unique_sorted a : StronglySorted lt (Np.unique a).
Proof.
  induction a as [|u a IH]; [constructor|].
  cbn [Np.unique foldr]. by apply insert_sorted_sorted.
Qed.

Lemma seq_sorted j n : StronglySorted lt (seq j n).
Proof.
  revert j. induction n as [|n IH]; intros j; [constructor|].
  cbn [seq]. constructor; [apply IH|]. apply list.Forall_forall.
  intros w Hw%elem_of_seq. lia.
Qed.

Lemma sorted_NoDup l : StronglySorted lt l -> NoDup l.
Proof.
  induction 1 as [|u l Hl IH Hu]; constructor; [|done].
  intros Hin. rewrite list.Forall_forall in Hu. specialize (Hu u Hin). lia.
Qed.

#[local] Instance lt_antisymm : AntiSymm eq lt.
Proof. intros x y ? ?. lia. Qed.

(** X4.  The assertion on the block ids that the two factories make passes
    exactly when the ids in use are [0, 1, ..., n - 1] for some [n], with no
    gap; [n] is then the number of blocks that the factory counts. *)
Theorem blocks_contiguous_iff blocks :
  (blocks_contiguous blocks = true
   <-> exists n, forall v, v ∈ blocks <-> v < n)
  /\ (blocks_contiguous blocks = true ->
      forall v, v ∈ blocks <-> v < length (Np.unique blocks)).
Proof.
  unfold blocks_contiguous, Np.arange. rewrite bool_decide_eq_true.
  assert (Np.unique blocks = seq 0 (length (Np.unique blocks)) ->
          forall v, v ∈ blocks <-> v < length (Np.unique blocks)) as Hfwd.
  { intros E v. set (n := length (Np.unique blocks)) in *.
    rewrite <- unique_elem, E, elem_of_seq. lia. }
  split; [|exact Hfwd]. split.
  - intros E. exists (length (Np.unique blocks)). by apply Hfwd.
  - intros [n Hn].
    assert (Np.unique blocks = seq 0 n) as E.
    { apply (StronglySorted_unique lt); [apply unique_sorted|apply seq_sorted|].
      apply NoDup_Permutation; [apply sorted_NoDup, unique_sorted|apply NoDup_seq|].
      intros v. rewrite unique_elem, Hn, elem_of_seq. lia. }
    rewrite E at 1. by rewrite E, length_seq.
Qed.
End Blocks.


(** * The ranges of the reverse block map *)

Section ReverseBlocks.
Implicit Types blocks : list nat.

Lemma reverse_indptr_lookup blocks n_blocks h :
  h <= n_blocks ->
  reverse_indptr blocks n_blocks !!! h = length (filter (fun v => v < h) blocks).
Proof.
  intros Hh. unfold reverse_indptr.
  rewrite (list_lookup_total_fmap (fun h => length (filter (fun v => v < h) blocks)))
    by (rewrite length_seq; lia).
  by rewrite lookup_total_seq_lt by lia.
Qed.

Lemma count_below_mono blocks h :
  length (filter (fun v => v < h) blocks)
  + length (filter (fun v => v = h) blocks)
  = length (filter (fun v => v < S h) blocks).
Proof.
  induction blocks as [|v blocks IH]; [done|].
  rewrite !filter_cons. repeat case_decide; cbn [length]; lia.
Qed.

Lemma count_below_zero blocks : length (filter (fun v => v < 0) blocks) = 0.
Proof.
  induction blocks as [|v blocks IH]; [done|].
  by rewrite filter_cons, decide_False by lia.
Qed.

Lemma count_below_all blocks n :
  Forall (fun v => v < n) blocks -> length (filter (fun v => v < n) blocks) = length blocks.
Proof.
  induction 1 as [|v blocks Hv _ IH]; [done|].
  rewrite filter_cons, decide_True by done. cbn [length]. lia.
Qed.

Lemma reverse_indptr_step blocks n_blocks h :
  h < n_blocks ->
  reverse_indptr blocks n_blocks !!! (h + 1)
  = reverse_indptr blocks n_blocks !!! h + length (filter (fun v => v = h) blocks).
Proof.
  intros Hh. rewrite !reverse_indptr_lookup by lia.
  rewrite Nat.add_1_r. symmetry. apply count_below_mono.
Qed.

Lemma reverse_indptr_mono blocks n_blocks h k :
  h <= k -> k <= n_blocks ->
  reverse_indptr blocks n_blocks !!! h <= reverse_indptr blocks n_blocks !!! k.
Proof.
  intros Hhk. induction Hhk as [|k Hhk IH]; intros Hk; [done|].
  specialize (IH ltac:(lia)). rewrite <- Nat.add_1_r, reverse_indptr_step by lia. lia.
Qed.

(** X5.  The row pointers of the reverse block map cut the features into
    consecutive ranges, one per block: they start at [0], the range of block
    [h] has as many features as the block, and when every id is below
    [n_blocks] they end at the number of features, so that every feature
    index lies in the range of exactly one block. *)
Theorem reverse_indptr_partition blocks n_blocks :
  Forall (fun v => v < n_blocks) blocks ->
  length (reverse_indptr blocks n_blocks) = S n_blocks
  /\ reverse_indptr blocks n_blocks !!! 0 = 0
  /\ reverse_indptr blocks n_blocks !!! n_blocks = length blocks
  /\ (forall h, h < n_blocks ->
        reverse_indptr blocks n_blocks !!! (h + 1)
        = reverse_indptr blocks n_blocks !!! h
          + length (filter (fun v => v = h) blocks))
  /\ (forall j, j < length blocks ->
        exists h, h < n_blocks
          /\ (reverse_indptr blocks n_blocks !!! h <= j
              < reverse_indptr blocks n_blocks !!! (h + 1))
          /\ forall h', h' < n_blocks ->
               reverse_indptr blocks n_blocks !!! h' <= j
               < reverse_indptr blocks n_blocks !!! (h' + 1) ->
               h' = h).
Proof.
  intros Hall.
  assert (reverse_indptr blocks n_blocks !!! 0 = 0) as H0.
  { rewrite reverse_indptr_lookup by lia. apply count_below_zero. }
  assert (reverse_indptr blocks n_blocks !!! n_blocks = length blocks) as Hn.
  { rewrite reverse_indptr_lookup by lia. by apply count_below_all. }
  split; [unfold reverse_indptr; by rewrite length_fmap, length_seq|].
  split; [done|]. split; [done|]. split; [intros; by apply reverse_indptr_step|].
  intros j Hj.
  assert (exists h, h < n_blocks
            /\ reverse_indptr blocks n_blocks !!! h <= j
               < reverse_indptr blocks n_blocks !!! (h + 1)) as (h & Hh & Hin).
  { assert (forall k, k <= n_blocks -> j < reverse_indptr blocks n_blocks !!! k ->
              exists h, h < k
                /\ reverse_indptr blocks n_blocks !!! h <= j
                   < reverse_indptr blocks n_blocks !!! (h + 1)) as Hfind.
    { induction k as [|k IH]; intros Hk Hjk; [rewrite H0 in Hjk; lia|].
      destruct (decide (j < reverse_indptr blocks n_blocks !!! k)) as [Hlt|Hge].
      - destruct (IH ltac:(lia) Hlt) as (h & Hh & Hin). exists h. split; [lia|done].
      - exists k. rewrite Nat.add_1_r. split; [lia|]. lia. }
    destruct (Hfind n_blocks ltac:(lia) ltac:(lia)) as (h & Hh & Hin). by exists h. }
  exists h. split; [done|]. split; [done|].
  intros h' Hh' Hin'.
  destruct (Nat.lt_trichotomy h' h) as [Hlt|[->|Hgt]]; [|done|].
  - pose proof (reverse_indptr_mono blocks n_blocks (h' + 1) h ltac:(lia) ltac:(lia)). lia.
  - pose proof (reverse_indptr_mono blocks n_blocks (h + 1) h' ltac:(lia) ltac:(lia)). lia.
Qed.

Lemma reverse_indptr_partition_witness :
  Forall (fun v => v < 2) [0; 1; 0]
  /\ reverse_indptr [0; 1; 0] 2 !!! 2 = length [0; 1; 0].
Proof.
  assert (Forall (fun v => v < 2) [0; 1; 0]) as Hall by (repeat constructor).
  split; [exact Hall|].
  exact (proj1 (proj2 (proj2 (reverse_indptr_partition [0; 1; 0] 2 Hall)))).
Defined.

(** In a nondecreasing array the entries below a bound come first. *)
Lemma count_below_sorted h : forall blocks,
  (forall i j, i <= j < length blocks -> blocks !!! i <= blocks !!! j) ->
  forall j, j < length blocks ->
    j < length (filter (fun v => v < h) blocks) <-> blocks !!! j < h.
Proof.
  induction blocks as [|a l IH]; intros Hs j Hj; [cbn in Hj; lia|].
  assert (forall i j, i <= j < length l -> l !!! i <= l !!! j) as Hs'.
  { intros i k Hik. apply (Hs (S i) (S k)). cbn [length]. lia. }
  rewrite filter_cons. destruct (decide (a < h)) as [Ha|Ha].
  - destruct j as [|j]; cbn [length].
    + split; [intros _; exact Ha|lia].
    + cbn [length] in Hj. change ((a :: l) !!! S j) with (l !!! j).
      rewrite <- (IH Hs' j) by lia. lia.
  - assert (length (filter (fun v => v < h) l) = 0) as ->.
    { destruct (decide (0 < length (filter (fun v => v < h) l))) as [Hpos|]; [|lia].
      pose proof (length_filter (fun v => v < h) l) as Hle.
      assert (0 < length l) as Hl by lia.
      apply (IH Hs' 0) in Hpos; [|lia].
      pose proof (Hs 0 1 ltac:(cbn [length]; lia)) as H01.
      change ((a :: l) !!! 0) with a in H01. change ((a :: l) !!! 1) with (l !!! 0) in H01.
      lia. }
    pose proof (Hs 0 j ltac:(lia)) as H0j. change ((a :: l) !!! 0) with a in H0j. lia.
Qed.

(** X6.  The epoch kernel of PSSAGA treats the features
    [RB_indptr[h] .. RB_indptr[h+1] - 1] as block [h].  That range holds the
    features assigned to block [h], for every block, exactly when the block
    ids never decrease along the features. *)
Theorem reverse_indptr_ranges blocks n_blocks :
  Forall (fun v => v < n_blocks) blocks ->
  (forall j h, j < length blocks -> h < n_blocks ->
     (reverse_indptr blocks n_blocks !!! h <= j
      < reverse_indptr blocks n_blocks !!! (h + 1)
      <-> blocks !!! j = h))
  <-> (forall i j, i <= j < length blocks -> blocks !!! i <= blocks !!! j).
Proof.
  intros Hall. split.
  - intros Hranges i j Hij.
    assert (forall k, k < length blocks -> blocks !!! k < n_blocks) as Hid.
    { intros k Hk. rewrite list.Forall_forall in Hall. apply Hall.
      apply list_elem_of_lookup_total_2. done. }
    pose proof (proj2 (Hranges i _ ltac:(lia) (Hid i ltac:(lia))) eq_refl) as Hi.
    pose proof (proj2 (Hranges j _ ltac:(lia) (Hid j ltac:(lia))) eq_refl) as Hj.
    destruct (decide (blocks !!! i <= blocks !!! j)) as [|Hgt]; [done|].
    pose proof (reverse_indptr_mono blocks n_blocks (blocks !!! j + 1) (blocks !!! i)
                  ltac:(lia) ltac:(pose proof (Hid i ltac:(lia)); lia)).
    lia.
  - intros Hs j h Hj Hh. rewrite !reverse_indptr_lookup by lia.
    rewrite Nat.add_1_r.
    pose proof (count_below_sorted h blocks Hs j Hj).
    pose proof (count_below_sorted (S h) blocks Hs j Hj).
    lia.
Qed.

Lemma reverse_indptr_ranges_witness :
  Forall (fun v => v < 2) [0; 0; 1]
  /\ (forall i j, i <= j < length [0; 0; 1] -> [0; 0; 1] !!! i <= [0; 0; 1] !!! j)
  /\ (reverse_indptr [0; 0; 1] 2 !!! 1 <= 2 < reverse_indptr [0; 0; 1] 2 !!! (1 + 1)
      <-> [0; 0; 1] !!! 2 = 1).
Proof.
  assert (Forall (fun v => v < 2) [0; 0; 1]) as Hall by (repeat constructor).
  assert (forall i j, i <= j < length [0; 0; 1] -> [0; 0; 1] !!! i <= [0; 0; 1] !!! j)
    as Hs.
  { intros i j Hij. cbn [length] in Hij.
    destruct i as [|[|[|i]]], j as [|[|[|j]]]; cbn; lia. }
  split; [exact Hall|]. split; [exact Hs|].
  exact (proj2 (reverse_indptr_ranges [0; 0; 1] 2 Hall) Hs 2 1 ltac:(cbn; lia) ltac:(lia)).
Defined.
End ReverseBlocks.

(** * A call of [fmin_SAGA], from its checks to its result *)

Section SagaCall.
Local Open Scope Qc_scope.
Variable a : FminSAGA.args.

Lemma saga_epoch_iteration_frame prox_g (h : heap) x mg ga s l :
  l ≠ x -> l ≠ mg -> l ≠ ga ->
  FminSAGA.epoch_iteration a prox_g h x mg ga s !! l = h !! l.
Proof.
  intros. unfold FminSAGA.epoch_iteration.
  destruct (SAGA.epoch_iteration_template _ _ _ _ _ _ _ _ _ _ _) as [[x' mg'] ga'].
  by rewrite !lookup_insert_ne by done.
Qed.

Lemma saga_epochs_frame prox_g x mg ga l its : forall (h : heap) log v,
  l ≠ x -> l ≠ mg -> l ≠ ga ->
  (FminSAGA.epochs a prox_g x mg ga its h log v).1.1 !! l = h !! l.
Proof.
  induction its as [|i its IH]; intros h log v ? ? ?; [done|].
  cbn [FminSAGA.epochs]. cbv zeta.
  destruct (below_tol _ _); cbn [fst]; [by apply saga_epoch_iteration_frame|].
  rewrite IH by done. by apply saga_epoch_iteration_frame.
Qed.

(** A call whose checks pass: the arrays it allocates are new, the warm-up
    leaves [x] with the contents of [x0], and the result is built from the
    state in which the loop on epochs ends. *)
Lemma saga_call (h : heap) prox_g :
  length (h !!! FminSAGA.x0 a) = snd (shape (FminSAGA.A a)) ->
  fst (shape (FminSAGA.A a)) = length (FminSAGA.b a) ->
  ~ FminSAGA.step_size a < 0 ->
  saga_prox_in_use a = Some prox_g ->
  blocks_contiguous
    (FminSAGA.resolve_g_blocks (FminSAGA.g_blocks a) (snd (shape (FminSAGA.A a)))) = true ->
  exists x mg ga (h0 : heap),
    (h !! x = None /\ h !! mg = None /\ h !! ga = None)
    /\ (x ≠ mg /\ x ≠ ga /\ mg ≠ ga)
    /\ (forall l, is_Some (h !! l) -> h0 !! l = h !! l)
    /\ h0 !! x = Some (h !!! FminSAGA.x0 a)
    /\ FminSAGA.fmin_SAGA a h
       = saga_return a x
           (FminSAGA.epochs a prox_g x mg ga (Np.range 0 (FminSAGA.max_iter a)) h0
              [[0%nat]] (saga_locals_at_start (h !!! FminSAGA.x0 a))).
Proof.
  intros Hx Hb Hs Hp Hbl. unfold FminSAGA.fmin_SAGA, saga_prox_in_use in *.
  pose proof (copy_contents h (FminSAGA.x0 a)) as Hc.
  pose proof (alloc_fresh h (h !!! FminSAGA.x0 a)) as Fx.
  unfold np_copy in *.
  destruct (alloc h (h !!! FminSAGA.x0 a)) as [x h1] eqn:E1.
  assert (h1 = <[x := h !!! FminSAGA.x0 a]> h) as ->.
  { unfold alloc in E1. by injection E1 as <- <-. }
  cbn [fst snd] in Hc, Fx. rewrite Hc.
  rewrite (bool_decide_eq_true_2 _ Hx), (bool_decide_eq_true_2 _ Hb),
    (bool_decide_eq_false_2 _ Hs). cbn [negb].
  rewrite Hp, Hbl. cbn [negb].
  set (h1 := <[x := h !!! FminSAGA.x0 a]> h) in *.
  pose proof (alloc_fresh h1 (Np.zeros (fst (shape (FminSAGA.A a))))) as Fm.
  destruct (alloc h1 _) as [mg h2] eqn:E2.
  assert (h2 = <[mg := Np.zeros (fst (shape (FminSAGA.A a)))]> h1) as ->.
  { unfold alloc in E2. by injection E2 as <- <-. }
  cbn [fst] in Fm.
  set (h2 := <[mg := _]> h1) in *.
  pose proof (alloc_fresh h2 (Np.zeros (snd (shape (FminSAGA.A a))))) as Fg.
  destruct (alloc h2 _) as [ga h3] eqn:E3.
  assert (h3 = <[ga := Np.zeros (snd (shape (FminSAGA.A a)))]> h2) as ->.
  { unfold alloc in E3. by injection E3 as <- <-. }
  cbn [fst] in Fg.
  set (h3 := <[ga := _]> h2) in *.
  destruct (SAGA.init_gradient _ _ _ _ _ _) as [mg' ga'].
  set (h4 := <[ga := ga']> (<[mg := mg']> h3)).
  assert (x ≠ mg) as Hxm by (intros ->; subst h1; by rewrite lookup_insert_eq in Fm).
  assert (x ≠ ga) as Hxg.
  { intros ->. subst h2 h1. rewrite lookup_insert_ne, lookup_insert_eq in Fg; done. }
  assert (mg ≠ ga) as Hmg by (intros ->; subst h2; by rewrite lookup_insert_eq in Fg).
  assert (h !! mg = None) as Fm'.
  { subst h1. by rewrite lookup_insert_ne in Fm. }
  assert (h !! ga = None) as Fg'.
  { subst h2 h1. by rewrite !lookup_insert_ne in Fg. }
  assert (forall l, is_Some (h !! l) -> h4 !! l = h !! l) as Hframe4.
  { intros l Hl. subst h4 h3 h2 h1.
    rewrite !lookup_insert_ne; [done|intros ->..]; destruct Hl; congruence. }
  assert (h4 !! x = Some (h !!! FminSAGA.x0 a)) as Hx4.
  { subst h4 h3 h2 h1. rewrite !lookup_insert_ne by done. by rewrite lookup_insert_eq. }
  unfold FminSAGA.warm_up, np_copy.
  pose proof (alloc_fresh h4 (h4 !!! x)) as Fc.
  destruct (alloc h4 (h4 !!! x)) as [xc h5] eqn:E5.
  assert (h5 = <[xc := h4 !!! x]> h4) as ->.
  { unfold alloc in E5. by injection E5 as <- <-. }
  cbn [fst] in Fc.
  assert (xc ≠ x) as Hcx by (intros ->; congruence).
  assert (xc ≠ mg) as Hcm.
  { intros ->. subst h4. rewrite lookup_insert_ne, lookup_insert_eq in Fc; done. }
  assert (xc ≠ ga) as Hcg by (intros ->; subst h4; by rewrite lookup_insert_eq in Fc).
  set (h0 := FminSAGA.epoch_iteration a prox_g (<[xc := h4 !!! x]> h4) xc mg ga [0%nat]).
  assert (h0 !! x = Some (h !!! FminSAGA.x0 a)) as Hx0.
  { subst h0. rewrite saga_epoch_iteration_frame by done.
    by rewrite lookup_insert_ne. }
  assert (h0 !!! x = h !!! FminSAGA.x0 a) as Hx0'.
  { by rewrite lookup_total_alt, Hx0. }
  exists x, mg, ga, h0. split; [done|]. split; [done|]. split; [|split; [done|]].
  - intros l Hl. subst h0.
    assert (l ≠ xc) by (intros ->; rewrite <- (Hframe4 xc Hl) in Hl; destruct Hl; congruence).
    rewrite saga_epoch_iteration_frame; [|intros ->; destruct Hl; congruence..].
    rewrite lookup_insert_ne by done. by apply Hframe4.
  - rewrite Hx0'. unfold saga_return, saga_locals_at_start.
    destruct (FminSAGA.epochs _ _ _ _ _ _ _ _ _) as [[h' log] v]. reflexivity.
Qed.

(** A call with a failing check ends with the exception of the first check
    that fails, the copy of [x0] being the only array allocated. *)
Lemma saga_call_fails (h : heap) :
  ~ saga_checks_pass a h ->
  exists e,
    FminSAGA.fmin_SAGA a h = Run (np_copy h (FminSAGA.x0 a)).2 [] (inl e)
    /\ (e = AssertionError /\ ~ saga_sizes_agree a h
        \/ e = ValueError /\ saga_sizes_agree a h /\ FminSAGA.step_size a < 0
        \/ e = NotImplementedError /\ saga_sizes_agree a h
           /\ ~ FminSAGA.step_size a < 0 /\ FminSAGA.g_prox a = IsOther
        \/ e = AssertionError /\ saga_sizes_agree a h
           /\ ~ FminSAGA.step_size a < 0 /\ FminSAGA.g_prox a ≠ IsOther
           /\ blocks_contiguous
                (FminSAGA.resolve_g_blocks (FminSAGA.g_blocks a)
                   (snd (shape (FminSAGA.A a)))) = false).
Proof.
  intros Hfail. unfold saga_checks_pass, saga_sizes_agree in *.
  unfold FminSAGA.fmin_SAGA.
  pose proof (copy_contents h (FminSAGA.x0 a)) as Hc.
  destruct (np_copy h (FminSAGA.x0 a)) as [x h1]. cbn [fst snd] in *. rewrite Hc.
  case_bool_decide as Hx; cbn [negb].
  2:{ exists AssertionError. split; [done|]. left. split; [done|]. tauto. }
  case_bool_decide as Hb; cbn [negb].
  2:{ exists AssertionError. split; [done|]. left. split; [done|]. tauto. }
  case_bool_decide as Hs.
  { exists ValueError. split; [done|]. right. left. done. }
  destruct (FminSAGA.g_prox a) as [|f|] eqn:Hp.
  3:{ exists NotImplementedError. split; [done|]. right. right. left. done. }
  all: destruct (blocks_contiguous _) eqn:Hbl; cbn [negb];
    [exfalso; apply Hfail; done|].
  all: exists AssertionError; split; [done|]; right; right; right; done.
Qed.

Lemma saga_prox_available (h : heap) :
  saga_checks_pass a h -> exists prox_g, saga_prox_in_use a = Some prox_g.
Proof.
  intros (_ & _ & Hp & _). unfold saga_prox_in_use.
  destruct (FminSAGA.g_prox a); [by eexists|by eexists|done].
Qed.

Lemma saga_checks_decided (h : heap) : saga_checks_pass a h \/ ~ saga_checks_pass a h.
Proof.
  unfold saga_checks_pass, saga_sizes_agree.
  destruct (decide (length (h !!! FminSAGA.x0 a) = snd (shape (FminSAGA.A a))));
    [|right; tauto].
  destruct (decide (fst (shape (FminSAGA.A a)) = length (FminSAGA.b a))); [|right; tauto].
  destruct (decide (FminSAGA.step_size a < 0)); [right; tauto|].
  destruct (blocks_contiguous _); [|right; intros (_ & _ & _ & ?); done].
  destruct (FminSAGA.g_prox a); [left|left|right]; try done.
  intros (_ & _ & ? & _); done.
Qed.
End SagaCall.

Section SagaLoopTrace.
Variable a : FminSAGA.args.
Variable prox_g : prox.
Variables x mg ga : loc.

Let cert (h : heap) : Qc := FminSAGA.certificate_sq a prox_g (h !!! x) (h !!! ga).
Let after (its : list nat) (h : heap) : heap := FminSAGA.run_epochs a prox_g x mg ga its h.
Let loop (its : list nat) (h : heap) (log : list (list nat)) (v : FminSAGA.locals) :=
  FminSAGA.epochs a prox_g x mg ga its h log v.

(** The state in which the loop on epochs ends, with what it recorded. *)
Lemma saga_epochs_trace its : forall h log v,
  its ≠ [] ->
  exists k,
    k < length its
    /\ (loop its h log v).1.1 = after (take (S k) its) h
    /\ (loop its h log v).1.2 = log ++ (FminSAGA.draws a <$> take (S k) its)
    /\ FminSAGA.it (loop its h log v).2 = its !! k
    /\ FminSAGA.certificate (loop its h log v).2 = Some (cert (after (take (S k) its) h))
    /\ FminSAGA.success (loop its h log v).2
       = (if below_tol (cert (after (take (S k) its) h)) (FminSAGA.tol a) then true
          else FminSAGA.success v)
    /\ (below_tol (cert (after (take (S k) its) h)) (FminSAGA.tol a) = false ->
        S k = length its)
    /\ (forall k', k' < k ->
          below_tol (cert (after (take (S k') its) h)) (FminSAGA.tol a) = false)
    /\ FminSAGA.trace_x (loop its h log v).2
       = FminSAGA.trace_x v
         ++ (if FminSAGA.trace a
             then (fun j => after (take (S j) its) h !!! x) <$> seq 0 (S k) else [])
    /\ FminSAGA.trace_certificate (loop its h log v).2
       = FminSAGA.trace_certificate v
         ++ (if FminSAGA.trace a
             then (fun j => Some (cert (after (take (S j) its) h))) <$> seq 0 (S k)
             else []).
Proof.
  unfold loop. induction its as [|i its IH]; intros h log v Hne; [done|].
  cbn [FminSAGA.epochs]. cbv zeta.
  set (h1 := FminSAGA.epoch_iteration a prox_g h x mg ga (FminSAGA.draws a i)).
  fold (cert h1).
  assert (forall j, after (take (S j) (i :: its)) h = after (take j its) h1) as Hafter
    by done.
  destruct (below_tol (cert h1) (FminSAGA.tol a)) eqn:Hb.
  - exists 0. rewrite !Hafter, ?take_0. change (after [] h1) with h1. rewrite Hb.
    cbn [fst snd take length lookup list_lookup fmap list_fmap seq
         FminSAGA.it FminSAGA.certificate FminSAGA.success FminSAGA.trace_x
         FminSAGA.trace_certificate].
    split; [lia|]. repeat split; try done; try lia.
    all: destruct (FminSAGA.trace a); by rewrite ?app_nil_r.
  - destruct its as [|i' its'].
    + exists 0. rewrite !Hafter, ?take_0. change (after [] h1) with h1. rewrite Hb.
      cbn [FminSAGA.epochs fst snd take length lookup list_lookup fmap list_fmap seq
           FminSAGA.it FminSAGA.certificate FminSAGA.success FminSAGA.trace_x
           FminSAGA.trace_certificate].
      split; [lia|]. repeat split; try done; try lia.
      all: destruct (FminSAGA.trace a); by rewrite ?app_nil_r.
    + set (v1 := FminSAGA.Locals _ _ _ _ _).
      destruct (IH h1 (log ++ [FminSAGA.draws a i]) v1)
        as (k & Hk & Hh & Hl & Hi & Hc & Hs & Hlast & Hlt & Htx & Htc); [done|].
      exists (S k). rewrite Hh, Hl, Hi, Hc, Hs, Htx, Htc. rewrite !Hafter.
      split; [cbn [length] in *; lia|]. repeat split; try done.
      * by rewrite <- app_assoc.
      * intros Hnb. specialize (Hlast Hnb). cbn [length] in *. lia.
      * intros [|k'] Hk'; [exact Hb|]. rewrite Hafter. apply Hlt. lia.
      * subst v1. cbn [FminSAGA.trace_x].
        destruct (FminSAGA.trace a); [|by rewrite !app_nil_r].
        rewrite <- app_assoc. f_equal.
        change (seq 0 (S (S k))) with (0 :: seq 1 (S k)).
        rewrite fmap_cons, <- fmap_S_seq, <- list_fmap_compose. reflexivity.
      * subst v1. cbn [FminSAGA.trace_certificate].
        destruct (FminSAGA.trace a); [|by rewrite !app_nil_r].
        rewrite <- app_assoc. f_equal.
        change (seq 0 (S (S k))) with (0 :: seq 1 (S k)).
        rewrite fmap_cons, <- fmap_S_seq, <- list_fmap_compose. reflexivity.
Qed.
End SagaLoopTrace.

Section SagaDriver.
Local Open Scope Qc_scope.
Variable a : FminSAGA.args.

(** A call whose checks pass, with no epoch to run. *)
Lemma saga_call_no_epoch (h : heap) :
  saga_checks_pass a h -> FminSAGA.max_iter a = 0%nat ->
  exists h0 : heap,
    (forall l, is_Some (h !! l) -> h0 !! l = h !! l)
    /\ FminSAGA.fmin_SAGA a h = Run h0 [[0%nat]] (inl UnboundLocalError).
Proof.
  intros Hpass Hmax. destruct (saga_prox_available a h Hpass) as [prox_g Hp].
  destruct Hpass as ([Hx Hb] & Hs & _ & Hbl).
  destruct (saga_call a h prox_g Hx Hb Hs Hp Hbl)
    as (x & mg & ga & h0 & _ & _ & Hframe & _ & E).
  exists h0. split; [done|]. rewrite E, Hmax. reflexivity.
Qed.

(** A call whose checks pass, with at least one epoch to run. *)
Lemma saga_call_returns (h : heap) prox_g :
  saga_checks_pass a h -> saga_prox_in_use a = Some prox_g ->
  (0 < FminSAGA.max_iter a)%nat ->
  exists x mg ga (h0 : heap) n,
    (h !! x = None /\ h !! mg = None /\ h !! ga = None)
    /\ (x ≠ mg /\ x ≠ ga /\ mg ≠ ga)
    /\ (forall l, is_Some (h !! l) -> h0 !! l = h !! l)
    /\ h0 !! x = Some (h !!! FminSAGA.x0 a)
    /\ (n < FminSAGA.max_iter a)%nat
    /\ let after k := FminSAGA.run_epochs a prox_g x mg ga (seq 0 (S k)) h0 in
       let cert k := FminSAGA.certificate_sq a prox_g (after k !!! x) (after k !!! ga) in
       FminSAGA.fmin_SAGA a h
       = Run (after n) ([0%nat] :: (FminSAGA.draws a <$> seq 0 (S n)))
           (inr {| FminSAGA.res_x := x;
                   FminSAGA.res_success := below_tol (cert n) (FminSAGA.tol a);
                   FminSAGA.res_nit := n;
                   FminSAGA.res_trace_points :=
                     if FminSAGA.trace a
                     then h !!! FminSAGA.x0 a :: ((fun k => after k !!! x) <$> seq 0 (S n))
                     else [];
                   FminSAGA.res_certificate := cert n;
                   FminSAGA.res_trace_certificate :=
                     None :: (if FminSAGA.trace a
                              then (fun k => Some (cert k)) <$> seq 0 (S n) else []) |})
       /\ (below_tol (cert n) (FminSAGA.tol a) = false -> S n = FminSAGA.max_iter a)
       /\ (forall k, (k < n)%nat -> below_tol (cert k) (FminSAGA.tol a) = false).
Proof.
  intros ([Hx Hb] & Hs & _ & Hbl) Hp Hmax.
  destruct (saga_call a h prox_g Hx Hb Hs Hp Hbl)
    as (x & mg & ga & h0 & Hfresh & Hne & Hframe & Hx0 & E).
  destruct (saga_epochs_trace a prox_g x mg ga (Np.range 0 (FminSAGA.max_iter a)) h0
              [[0%nat]] (saga_locals_at_start (h !!! FminSAGA.x0 a)))
    as (n & Hn & Hh & Hl & Hi & Hc & Hsu & Hlast & Hlt & Htx & Htc).
  { intros E'. apply (f_equal length) in E'. rewrite range_length in E'. cbn in E'. lia. }
  rewrite range_length in Hn, Hlast.
  rewrite take_range in Hh, Hl, Hc, Hsu, Hlast by lia. rewrite range_lookup in Hi by lia.
  exists x, mg, ga, h0, n. do 5 (split; [done|]). cbv zeta.
  split; [|split; [exact Hlast|]].
  2:{ intros k Hk. rewrite <- (take_range k (FminSAGA.max_iter a)) by lia.
      apply Hlt. lia. }
  rewrite E. unfold saga_return. rewrite Hi, Hc, Hh, Hl, Hsu, Htx, Htc.
  cbn [saga_locals_at_start FminSAGA.success FminSAGA.trace_x FminSAGA.trace_certificate app].
  f_equal. f_equal. f_equal.
  - by destruct (below_tol _ _).
  - destruct (FminSAGA.trace a); [|done]. f_equal. apply list_fmap_ext.
    intros j k Hk. apply lookup_seq in Hk as [-> Hk]. cbn [Nat.add].
    by rewrite take_range by lia.
  - f_equal. destruct (FminSAGA.trace a); [|done]. apply list_fmap_ext.
    intros j k Hk. apply lookup_seq in Hk as [-> Hk]. cbn [Nat.add].
    by rewrite take_range by lia.
Qed.

(** X7.  How a call of [fmin_SAGA] ends, for a problem with at least one
    sample and one block id per feature.  It raises [AssertionError] when a
    size assertion fails, or when the step size is accepted, [g_prox] is
    usable and the block ids fail the assertion of the factory;
    [NotImplementedError] when the sizes agree, the step size is accepted
    and [g_prox] is neither a callable nor [None]; with every check passed
    and [max_iter = 0] it raises [UnboundLocalError] at its [return], after
    the warm-up pass; it returns a result exactly when every check passes and
    [max_iter] is positive.  It never raises the errors of the PSSAGA
    factory, and a kernel has run exactly when every check passed. *)
Theorem fmin_SAGA_outcome (h : heap) :
  saga_inputs_ok a ->
  (outcome (FminSAGA.fmin_SAGA a h) = inl AssertionError
   <-> ~ saga_sizes_agree a h
       \/ (~ FminSAGA.step_size a < 0 /\ FminSAGA.g_prox a ≠ IsOther
           /\ blocks_contiguous
                (FminSAGA.resolve_g_blocks (FminSAGA.g_blocks a)
                   (snd (shape (FminSAGA.A a)))) = false))
  /\ (outcome (FminSAGA.fmin_SAGA a h) = inl NotImplementedError
      <-> saga_sizes_agree a h /\ ~ FminSAGA.step_size a < 0
          /\ FminSAGA.g_prox a = IsOther)
  /\ (outcome (FminSAGA.fmin_SAGA a h) = inl UnboundLocalError
      <-> saga_checks_pass a h /\ FminSAGA.max_iter a = 0%nat)
  /\ ((exists r, outcome (FminSAGA.fmin_SAGA a h) = inr r)
      <-> saga_checks_pass a h /\ (0 < FminSAGA.max_iter a)%nat)
  /\ outcome (FminSAGA.fmin_SAGA a h) ≠ inl IndexError
  /\ outcome (FminSAGA.fmin_SAGA a h) ≠ inl SciPyValueError
  /\ (dispatched (FminSAGA.fmin_SAGA a h) = [] <-> ~ saga_checks_pass a h).
Proof.
  intros _. destruct (saga_checks_decided a h) as [Hpass|Hfail].
  - pose proof Hpass as (Hsz & Hs & Hp & Hbl).
    destruct (decide (FminSAGA.max_iter a = 0%nat)) as [Hmax|Hmax].
    + destruct (saga_call_no_epoch h Hpass Hmax) as (h0 & _ & ->). cbn [outcome dispatched].
      split_and!.
      * split; [discriminate|]. intros [?|(_ & _ & ?)]; [done|congruence].
      * split; [discriminate|]. intros (_ & _ & ?). done.
      * done.
      * split; [intros [? [=]]|]. intros [_ ?]. lia.
      * discriminate.
      * discriminate.
      * split; [discriminate|done].
    + destruct (saga_prox_available a h Hpass) as [prox_g Hpg].
      destruct (saga_call_returns h prox_g Hpass Hpg ltac:(lia))
        as (x & mg & ga & h0 & n & _ & _ & _ & _ & _ & E & _ & _).
      cbv zeta in E. rewrite E. cbn [outcome dispatched].
      split_and!.
      * split; [discriminate|]. intros [?|(_ & _ & ?)]; [done|congruence].
      * split; [discriminate|]. intros (_ & _ & ?). done.
      * split; [discriminate|]. intros [_ ?]. done.
      * split; [intros _; split; [done|lia]|]. intros _. by eexists.
      * discriminate.
      * discriminate.
      * split; [discriminate|done].
  - destruct (saga_call_fails a h Hfail) as (e & -> & Hcases). cbn [outcome dispatched].
    assert (forall r : FminSAGA.result, @inl exn FminSAGA.result e ≠ inr r) as Hnr by done.
    destruct Hcases as [[-> ?]|[(-> & ? & ?)|[(-> & ? & ? & ?)|(-> & ? & ? & ? & ?)]]].
    + split_and!; try discriminate; try done.
      * split; [by left|done].
      * split; [discriminate|]. intros (? & _). done.
      * split; [discriminate|]. intros [? _]. done.
      * split; [intros [? [=]]|]. intros [? _]. done.
    + split_and!; try discriminate; try done.
      * split; [discriminate|]. intros [?|(? & _)]; done.
      * split; [discriminate|]. intros (_ & ? & _). done.
      * split; [discriminate|]. intros [? _]. done.
      * split; [intros [? [=]]|]. intros [? _]. done.
    + split_and!; try discriminate; try done.
      * split; [discriminate|]. intros [?|(_ & ? & _)]; done.
      * split; [discriminate|]. intros [? _]. done.
      * split; [intros [? [=]]|]. intros [? _]. done.
    + split_and!; try discriminate; try done.
      * split; [by right|done].
      * split; [discriminate|]. intros (_ & _ & ?). done.
      * split; [discriminate|]. intros [? _]. done.
      * split; [intros [? [=]]|]. intros [? _]. done.
Qed.

Lemma last_fmap_seq {B : Type} (f : nat -> B) (b : B) n :
  last (b :: (f <$> seq 0 (S n))) = Some (f n).
Proof.
  rewrite seq_S, fmap_app, app_comm_cons. cbn [fmap list_fmap]. by rewrite last_snoc.
Qed.

Lemma saga_run_epochs_frame prox_g x mg ga l its : forall h : heap,
  l ≠ x -> l ≠ mg -> l ≠ ga ->
  FminSAGA.run_epochs a prox_g x mg ga its h !! l = h !! l.
Proof.
  unfold FminSAGA.run_epochs.
  induction its as [|i its IH]; intros h ? ? ?; [done|].
  cbn [foldl]. rewrite IH by done. by apply saga_epoch_iteration_frame.
Qed.

(** X8.  [fmin_SAGA] works on arrays of its own.  For a well-formed matrix
    with at least one sample, a block assignment with one id per feature
    and sample indices as the generator returns them: whatever way the call
    ends, every array that existed before it, [x0] among them, has the
    contents it had, and the solution returned is a new array. *)
Theorem fmin_SAGA_keeps_arrays (h : heap) (l : loc) :
  saga_call_in_bounds a ->
  is_Some (h !! l) ->
  final_heap (FminSAGA.fmin_SAGA a h) !! l = h !! l
  /\ forall r, outcome (FminSAGA.fmin_SAGA a h) = inr r -> FminSAGA.res_x r ≠ l.
Proof.
  intros _ Hl. destruct (saga_checks_decided a h) as [Hpass|Hfail].
  - destruct (decide (FminSAGA.max_iter a = 0%nat)) as [Hmax|Hmax].
    + destruct (saga_call_no_epoch h Hpass Hmax) as (h0 & Hframe & ->).
      cbn [final_heap outcome]. split; [by apply Hframe|]. intros r [=].
    + destruct (saga_prox_available a h Hpass) as [prox_g Hpg].
      destruct (saga_call_returns h prox_g Hpass Hpg ltac:(lia))
        as (x & mg & ga & h0 & n & (Fx & Fm & Fg) & _ & Hframe & _ & _ & E & _ & _).
      cbv zeta in E. rewrite E. cbn [final_heap outcome]. split.
      * rewrite saga_run_epochs_frame; [by apply Hframe|intros ->..];
          destruct Hl; congruence.
      * intros r [= <-]. cbn [FminSAGA.res_x]. intros ->. destruct Hl; congruence.
  - destruct (saga_call_fails a h Hfail) as (e & -> & _). cbn [final_heap outcome].
    split; [|intros r [=]]. unfold np_copy.
    pose proof (alloc_fresh h (h !!! FminSAGA.x0 a)) as Hfresh.
    unfold alloc in *. cbn [fst snd] in *.
    rewrite lookup_insert_ne; [done|]. intros E. rewrite E in Hfresh.
    destruct Hl; congruence.
Qed.

(** X9.  What a call of [fmin_SAGA] that returns has done and recorded, for
    a problem with at least one sample and one block id per feature:
    [nit] is the index of the last epoch, below [max_iter]; the kernel was
    handed the warm-up sample and then one array of the generator per epoch;
    [success] says whether the returned certificate is below [tol], and
    without success every one of the [max_iter] epochs has run.  The
    certificate trace starts with [inf]; with [trace] set it has
    [nit + 2] entries like the trace of points, it ends with the returned
    certificate, and the points recorded go from the contents of [x0] to the
    solution; with [trace] unset nothing else is recorded. *)
Theorem fmin_SAGA_result (h : heap) :
  saga_inputs_ok a -> saga_checks_pass a h -> (0 < FminSAGA.max_iter a)%nat ->
  exists r,
    outcome (FminSAGA.fmin_SAGA a h) = inr r
    /\ (FminSAGA.res_nit r < FminSAGA.max_iter a)%nat
    /\ dispatched (FminSAGA.fmin_SAGA a h)
       = [0%nat] :: (FminSAGA.draws a <$> seq 0 (S (FminSAGA.res_nit r)))
    /\ FminSAGA.res_success r = below_tol (FminSAGA.res_certificate r) (FminSAGA.tol a)
    /\ (FminSAGA.res_success r = false -> S (FminSAGA.res_nit r) = FminSAGA.max_iter a)
    /\ head (FminSAGA.res_trace_certificate r) = Some None
    /\ (FminSAGA.trace a = true ->
        length (FminSAGA.res_trace_certificate r) = (FminSAGA.res_nit r + 2)%nat
        /\ length (FminSAGA.res_trace_points r) = (FminSAGA.res_nit r + 2)%nat
        /\ last (FminSAGA.res_trace_certificate r) = Some (Some (FminSAGA.res_certificate r))
        /\ head (FminSAGA.res_trace_points r) = Some (h !!! FminSAGA.x0 a)
        /\ last (FminSAGA.res_trace_points r)
           = Some (final_heap (FminSAGA.fmin_SAGA a h) !!! FminSAGA.res_x r))
    /\ (FminSAGA.trace a = false ->
        FminSAGA.res_trace_certificate r = [None] /\ FminSAGA.res_trace_points r = []).
Proof.
  intros _ Hpass Hmax. destruct (saga_prox_available a h Hpass) as [prox_g Hpg].
  destruct (saga_call_returns h prox_g Hpass Hpg Hmax)
    as (x & mg & ga & h0 & n & _ & _ & _ & _ & Hn & E & Hlast & _).
  cbv zeta in E. rewrite E. eexists. split; [reflexivity|].
  cbn [outcome dispatched final_heap FminSAGA.res_x FminSAGA.res_success FminSAGA.res_nit
       FminSAGA.res_trace_points FminSAGA.res_certificate FminSAGA.res_trace_certificate].
  split; [done|]. split; [done|]. split; [done|]. split; [done|]. split; [done|].
  split.
  - intros ->. cbn [length]. rewrite !length_fmap, !length_seq.
    split; [lia|]. split; [lia|].
    by rewrite !last_fmap_seq.
  - intros ->. done.
Qed.
End SagaDriver.

Section SagaDriverWitnesses.
Import Examples.

Lemma saga_2x2_checks_pass : saga_checks_pass saga_2x2 (heap_with (Np.zeros 2)).
Proof.
  split; [split; reflexivity|]. split; [vm_compute; discriminate|].
  split; [discriminate|]. vm_compute. reflexivity.
Defined.

Lemma saga_2x2_inputs_ok : saga_inputs_ok saga_2x2.
Proof. split; [cbn; lia|reflexivity]. Defined.

Lemma fmin_SAGA_outcome_witness :
  saga_inputs_ok saga_2x2
  /\ ((exists r, outcome (FminSAGA.fmin_SAGA saga_2x2 (heap_with (Np.zeros 2))) = inr r)
      <-> saga_checks_pass saga_2x2 (heap_with (Np.zeros 2))
          /\ 0 < FminSAGA.max_iter saga_2x2).
Proof.
  split; [exact saga_2x2_inputs_ok|].
  exact (proj1 (proj2 (proj2 (proj2
           (fmin_SAGA_outcome saga_2x2 (heap_with (Np.zeros 2)) saga_2x2_inputs_ok))))).
Defined.

Lemma saga_2x2_in_bounds : saga_call_in_bounds saga_2x2.
Proof.
  split; [exact saga_2x2_inputs_ok|]. split; [vm_compute; repeat constructor|].
  intros it. split; [reflexivity|]. repeat constructor.
Defined.

Lemma fmin_SAGA_keeps_arrays_witness :
  saga_call_in_bounds saga_2x2
  /\ is_Some (heap_with (Np.zeros 2) !! 0)
  /\ final_heap (FminSAGA.fmin_SAGA saga_2x2 (heap_with (Np.zeros 2))) !! 0
     = heap_with (Np.zeros 2) !! 0.
Proof.
  assert (is_Some (heap_with (Np.zeros 2) !! 0)) as H by (vm_compute; eexists; reflexivity).
  split; [exact saga_2x2_in_bounds|]. split; [exact H|].
  exact (proj1 (fmin_SAGA_keeps_arrays saga_2x2 (heap_with (Np.zeros 2)) 0
                  saga_2x2_in_bounds H)).
Defined.

Lemma fmin_SAGA_result_witness :
  saga_inputs_ok saga_2x2
  /\ saga_checks_pass saga_2x2 (heap_with (Np.zeros 2))
  /\ 0 < FminSAGA.max_iter saga_2x2
  /\ exists r,
       outcome (FminSAGA.fmin_SAGA saga_2x2 (heap_with (Np.zeros 2))) = inr r
       /\ FminSAGA.res_nit r < FminSAGA.max_iter saga_2x2.
Proof.
  assert (0 < FminSAGA.max_iter saga_2x2) as Hmax by (cbn; lia).
  split; [exact saga_2x2_inputs_ok|].
  split; [exact saga_2x2_checks_pass|]. split; [exact Hmax|].
  destruct (fmin_SAGA_result saga_2x2 (heap_with (Np.zeros 2)) saga_2x2_inputs_ok
              saga_2x2_checks_pass Hmax) as (r & Hr & Hn & _).
  exists r. split; [exact Hr|exact Hn].
Defined.
End SagaDriverWitnesses.

(** * Arguments of [fmin_SAGA] with no effect, or with a degenerate one *)

Section SagaBlocks.
Variable a : FminSAGA.args.
Variables g g' : option (list nat).

Lemma saga_epochs_blocks prox_g x mg ga its : forall h log v,
  FminSAGA.epochs (saga_with_g_blocks a g) prox_g x mg ga its h log v
  = FminSAGA.epochs (saga_with_g_blocks a g') prox_g x mg ga its h log v.
Proof.
  induction its as [|i its IH]; intros h log v; [done|].
  cbn [FminSAGA.epochs]. cbv zeta.
  change (FminSAGA.epoch_iteration (saga_with_g_blocks a g') prox_g h x mg ga
            (FminSAGA.draws (saga_with_g_blocks a g') i))
    with (FminSAGA.epoch_iteration (saga_with_g_blocks a g) prox_g h x mg ga
            (FminSAGA.draws (saga_with_g_blocks a g) i)).
  set (h1 := FminSAGA.epoch_iteration _ _ _ _ _ _ _).
  change (FminSAGA.certificate_sq (saga_with_g_blocks a g') prox_g (h1 !!! x) (h1 !!! ga))
    with (FminSAGA.certificate_sq (saga_with_g_blocks a g) prox_g (h1 !!! x) (h1 !!! ga)).
  set (c := FminSAGA.certificate_sq _ _ _ _).
  cbn [saga_with_g_blocks FminSAGA.tol FminSAGA.trace FminSAGA.draws].
  destruct (below_tol c (FminSAGA.tol a)); [done|]. apply IH.
Qed.

(** X10.  [g_blocks] has no effect on a run of [fmin_SAGA] beyond the
    assertion on its ids: two calls whose block assignments have one id per
    feature and pass the assertion, all other arguments equal, leave the
    same heap, hand the same samples to the kernel and return the same
    result; and the assignment used when [g_blocks] is omitted always
    passes. *)
Theorem fmin_SAGA_ignores_g_blocks (h : heap) :
  blocks_contiguous (FminSAGA.resolve_g_blocks None (snd (shape (FminSAGA.A a)))) = true
  /\ (saga_inputs_ok (saga_with_g_blocks a g) ->
      saga_inputs_ok (saga_with_g_blocks a g') ->
      blocks_contiguous (FminSAGA.resolve_g_blocks g (snd (shape (FminSAGA.A a)))) = true ->
      blocks_contiguous (FminSAGA.resolve_g_blocks g' (snd (shape (FminSAGA.A a)))) = true ->
      FminSAGA.fmin_SAGA (saga_with_g_blocks a g) h
      = FminSAGA.fmin_SAGA (saga_with_g_blocks a g') h).
Proof.
  split.
  - unfold blocks_contiguous, FminSAGA.resolve_g_blocks, Np.izeros, Np.arange.
    apply bool_decide_eq_true. destruct (snd (shape (FminSAGA.A a))) as [|n]; [done|].
    assert (Np.unique (replicate (S n) 0) = [0]) as ->; [|done].
    induction n as [|n IH]; [done|].
    change (replicate (S (S n)) 0) with (0 :: replicate (S n) 0).
    unfold Np.unique in *. cbn [foldr]. rewrite IH. done.
  - intros _ _ Hg Hg'. unfold FminSAGA.fmin_SAGA, FminSAGA.warm_up.
    cbn [saga_with_g_blocks FminSAGA.fun_deriv FminSAGA.A FminSAGA.b FminSAGA.x0
         FminSAGA.alpha FminSAGA.beta FminSAGA.g_prox FminSAGA.step_size FminSAGA.g_blocks
         FminSAGA.max_iter FminSAGA.tol FminSAGA.trace FminSAGA.draws].
    rewrite Hg, Hg'.
    destruct (np_copy h (FminSAGA.x0 a)) as [x h1].
    do 2 (destruct (negb _); [done|]). destruct (bool_decide _); [done|].
    destruct (match FminSAGA.g_prox a with IsCallable f => _ | IsNone => _ | IsOther => _ end)
      as [prox_g|]; [|done].
    cbn [negb].
    destruct (alloc h1 _) as [mg h2]. destruct (alloc h2 _) as [ga h3].
    destruct (SAGA.init_gradient _ _ _ _ _ _) as [mg' ga'].
    destruct (np_copy _ x) as [xc h4].
    change (FminSAGA.epoch_iteration (saga_with_g_blocks a g') prox_g h4 xc mg ga [0])
      with (FminSAGA.epoch_iteration (saga_with_g_blocks a g) prox_g h4 xc mg ga [0]).
    by rewrite saga_epochs_blocks.
Qed.
End SagaBlocks.

Section SagaBlocksWitness.
Import Examples.

Lemma fmin_SAGA_ignores_g_blocks_witness :
  saga_inputs_ok (saga_with_g_blocks saga_2x2 (Some [0; 0]))
  /\ saga_inputs_ok (saga_with_g_blocks saga_2x2 (Some [1; 0]))
  /\ blocks_contiguous (FminSAGA.resolve_g_blocks (Some [0; 0]) (snd (shape (FminSAGA.A saga_2x2))))
     = true
  /\ blocks_contiguous (FminSAGA.resolve_g_blocks (Some [1; 0]) (snd (shape (FminSAGA.A saga_2x2))))
     = true
  /\ FminSAGA.fmin_SAGA (saga_with_g_blocks saga_2x2 (Some [0; 0])) (heap_with (Np.zeros 2))
     = FminSAGA.fmin_SAGA (saga_with_g_blocks saga_2x2 (Some [1; 0])) (heap_with (Np.zeros 2)).
Proof.
  assert (saga_inputs_ok (saga_with_g_blocks saga_2x2 (Some [0; 0]))) as H1
    by (split; [cbn; lia|reflexivity]).
  assert (saga_inputs_ok (saga_with_g_blocks saga_2x2 (Some [1; 0]))) as H2
    by (split; [cbn; lia|reflexivity]).
  assert (blocks_contiguous
            (FminSAGA.resolve_g_blocks (Some [0; 0]) (snd (shape (FminSAGA.A saga_2x2))))
          = true) as H3 by (vm_compute; reflexivity).
  assert (blocks_contiguous
            (FminSAGA.resolve_g_blocks (Some [1; 0]) (snd (shape (FminSAGA.A saga_2x2))))
          = true) as H4 by (vm_compute; reflexivity).
  split; [exact H1|]. split; [exact H2|]. split; [exact H3|]. split; [exact H4|].
  exact (proj2 (fmin_SAGA_ignores_g_blocks saga_2x2 (Some [0; 0]) (Some [1; 0])
                  (heap_with (Np.zeros 2))) H1 H2 H3 H4).
Defined.
End SagaBlocksWitness.

Section SagaZeroStep.
Local Open Scope Qc_scope.
Variable a : FminSAGA.args.
Hypothesis zero_step : FminSAGA.step_size a = 0.

Lemma insert_same (l : list Qc) j : <[j := l !!! j]> l = l.
Proof.
  destruct (decide (j < length l)%nat) as [Hj|Hj].
  - apply list_insert_id. by apply list_lookup_lookup_total_lt.
  - apply list_insert_ge. lia.
Qed.

Lemma saga_zero_step_sample st i :
  (SAGA.sample_update (FminSAGA.fun_deriv a) FminSAGA.default_g_prox (FminSAGA.A a)
     (FminSAGA.b a) (FminSAGA.alpha a) (FminSAGA.beta a) (FminSAGA.step_size a) st i).1.1
  = st.1.1.
Proof.
  destruct st as [[x mg] ga]. unfold SAGA.sample_update, FminSAGA.default_g_prox.
  cbn [fst]. rewrite zero_step.
  generalize (row_range (indptr (FminSAGA.A a)) i) as ks.
  intros ks. revert x. induction ks as [|k ks IH]; intros x; [done|].
  cbn [foldl]. unfold SAGA.update_coefficient at 2.
  match goal with |- context [<[?j := ?v]> x] =>
    replace v with (x !!! j) by ring end.
  rewrite insert_same. apply IH.
Qed.

Lemma saga_zero_step_epoch s : forall x mg ga,
  (SAGA.epoch_iteration_template (FminSAGA.fun_deriv a) FminSAGA.default_g_prox
     (FminSAGA.A a) (FminSAGA.b a) (FminSAGA.alpha a) (FminSAGA.beta a)
     x mg ga s (FminSAGA.step_size a)).1.1 = x.
Proof.
  unfold SAGA.epoch_iteration_template.
  induction s as [|i s IH]; intros x mg ga; [done|].
  cbn [foldl].
  pose proof (saga_zero_step_sample (x, mg, ga) i) as Hx. cbn [fst] in Hx.
  destruct (SAGA.sample_update _ _ _ _ _ _ _ _ _) as [[x1 mg1] ga1].
  cbn [fst] in Hx. subst x1. apply IH.
Qed.

Lemma saga_zero_step_call (h : heap) x mg ga s :
  x ≠ mg -> x ≠ ga ->
  FminSAGA.epoch_iteration a FminSAGA.default_g_prox h x mg ga s !!! x = h !!! x.
Proof.
  intros Hxm Hxg. unfold FminSAGA.epoch_iteration.
  pose proof (saga_zero_step_epoch s (h !!! x) (h !!! mg) (h !!! ga)) as Hx.
  destruct (SAGA.epoch_iteration_template _ _ _ _ _ _ _ _ _ _ _) as [[x' mg'] ga'].
  cbn [fst] in Hx. subst x'.
  rewrite !lookup_total_insert_ne by done. by rewrite lookup_total_insert_eq.
Qed.

Lemma saga_zero_step_run (h : heap) x mg ga its :
  x ≠ mg -> x ≠ ga ->
  FminSAGA.run_epochs a FminSAGA.default_g_prox x mg ga its h !!! x = h !!! x.
Proof.
  intros Hxm Hxg. unfold FminSAGA.run_epochs. revert h.
  induction its as [|i its IH]; intros h; [done|].
  cbn [foldl]. rewrite IH. by apply saga_zero_step_call.
Qed.

Lemma zero_step_distance (x : list Qc) : forall g,
  norm_sq (vsub x (vsub x (vscale 0 g))) = 0.
Proof.
  unfold norm_sq, vsub, vscale.
  induction x as [|c x IH]; intros g; [done|].
  destruct g as [|d g]; [done|].
  rewrite fmap_cons. cbn [zip_with]. rewrite fmap_cons, sum_cons, IH. ring.
Qed.

Lemma saga_zero_step_certificate x ga :
  FminSAGA.certificate_sq a FminSAGA.default_g_prox x ga = 0.
Proof.
  unfold FminSAGA.certificate_sq, FminSAGA.default_g_prox. rewrite zero_step.
  apply zero_step_distance.
Qed.

(** X11.  A step size of zero passes the step-size check, and with
    [g_prox] omitted the call then reports convergence at once (for a
    problem with at least one sample and one block id per feature): the
    kernel leaves the coefficients as they are, the certificate of the
    first epoch is zero, and for any positive [tol] the call returns after
    one epoch with [success] set, [nit = 0] and a solution equal to [x0]. *)
Theorem fmin_SAGA_zero_step (h : heap) :
  saga_inputs_ok a -> saga_checks_pass a h -> FminSAGA.g_prox a = IsNone ->
  0 < FminSAGA.tol a -> (0 < FminSAGA.max_iter a)%nat ->
  exists r,
    outcome (FminSAGA.fmin_SAGA a h) = inr r
    /\ FminSAGA.res_success r = true
    /\ FminSAGA.res_nit r = 0%nat
    /\ FminSAGA.res_certificate r = 0
    /\ final_heap (FminSAGA.fmin_SAGA a h) !!! FminSAGA.res_x r = h !!! FminSAGA.x0 a.
Proof.
  intros _ Hpass Hnone Htol Hmax.
  assert (saga_prox_in_use a = Some FminSAGA.default_g_prox) as Hp
    by (unfold saga_prox_in_use; by rewrite Hnone).
  destruct (saga_call_returns a h _ Hpass Hp Hmax)
    as (x & mg & ga & h0 & n & _ & (Hxm & Hxg & _) & _ & Hx0 & Hn & E & _ & Hfirst).
  cbv zeta in E, Hfirst.
  assert (below_tol 0 (FminSAGA.tol a) = true) as Hb.
  { unfold below_tol. rewrite !bool_decide_eq_true_2; [done| |done].
    replace 0 with (0 * FminSAGA.tol a) at 1 by ring.
    by apply Qcmult_lt_compat_r. }
  assert (n = 0%nat) as ->.
  { destruct n as [|n]; [done|]. specialize (Hfirst 0%nat ltac:(lia)).
    rewrite saga_zero_step_certificate in Hfirst. congruence. }
  rewrite E. eexists. split; [reflexivity|].
  cbn [outcome final_heap FminSAGA.res_x FminSAGA.res_success FminSAGA.res_nit
       FminSAGA.res_certificate].
  rewrite saga_zero_step_certificate, saga_zero_step_run by done.
  split; [done|]. split; [done|]. split; [done|].
  by rewrite lookup_total_alt, Hx0.
Qed.
End SagaZeroStep.

Section SagaZeroStepWitness.
Import Examples.

Lemma fmin_SAGA_zero_step_witness :
  FminSAGA.step_size (saga_1x1 0) = 0%Qc
  /\ saga_inputs_ok (saga_1x1 0)
  /\ saga_checks_pass (saga_1x1 0) (heap_with (Np.zeros 1))
  /\ FminSAGA.g_prox (saga_1x1 0) = IsNone
  /\ (0 < FminSAGA.tol (saga_1x1 0))%Qc
  /\ 0 < FminSAGA.max_iter (saga_1x1 0)
  /\ exists r,
       outcome (FminSAGA.fmin_SAGA (saga_1x1 0) (heap_with (Np.zeros 1))) = inr r
       /\ FminSAGA.res_success r = true.
Proof.
  assert (FminSAGA.step_size (saga_1x1 0) = 0%Qc) as Hz by reflexivity.
  assert (saga_inputs_ok (saga_1x1 0)) as Hin by (split; [cbn; lia|reflexivity]).
  assert (saga_checks_pass (saga_1x1 0) (heap_with (Np.zeros 1))) as Hpass.
  { split; [split; reflexivity|]. split; [vm_compute; discriminate|].
    split; [discriminate|]. vm_compute. reflexivity. }
  assert (FminSAGA.g_prox (saga_1x1 0) = IsNone) as Hnone by reflexivity.
  assert (0 < FminSAGA.tol (saga_1x1 0))%Qc as Htol by (vm_compute; reflexivity).
  assert (0 < FminSAGA.max_iter (saga_1x1 0)) as Hmax by (cbn; lia).
  split; [exact Hz|]. split; [exact Hin|]. split; [exact Hpass|]. split; [exact Hnone|].
  split; [exact Htol|]. split; [exact Hmax|].
  destruct (fmin_SAGA_zero_step (saga_1x1 0) Hz (heap_with (Np.zeros 1))
              Hin Hpass Hnone Htol Hmax) as (r & Hr & Hs & _).
  exists r. split; [exact Hr|exact Hs].
Defined.
End SagaZeroStepWitness.

(** * A call of [fmin_PSSAGA], from its checks to its result *)

Section PssagaCall.
Local Open Scope Qc_scope.
Variable a : FminPSSAGA.args.

Let blocks := pssaga_blocks_in_use a.

Lemma alloc_spec (h : heap) v :
  exists l, alloc h v = (l, <[l := v]> h) /\ h !! l = None.
Proof. eexists. split; [reflexivity|]. apply (alloc_fresh h v). Qed.

Lemma pssaga_epoch_iteration_frame prox_g prox_h bl (h : heap) y x z mg ga s l :
  l ≠ y -> l ≠ x -> l ≠ z -> l ≠ mg -> l ≠ ga ->
  FminPSSAGA.epoch_iteration a prox_g prox_h bl h y x z mg ga s !! l = h !! l.
Proof.
  intros. unfold FminPSSAGA.epoch_iteration. cbv zeta.
  by rewrite !lookup_insert_ne by done.
Qed.

Lemma pssaga_run_epochs_frame prox_g prox_h bl y x z mg ga l its : forall h : heap,
  l ≠ y -> l ≠ x -> l ≠ z -> l ≠ mg -> l ≠ ga ->
  FminPSSAGA.run_epochs a prox_g prox_h bl y x z mg ga its h !! l = h !! l.
Proof.
  unfold FminPSSAGA.run_epochs.
  induction its as [|i its IH]; intros h ? ? ? ? ?; [done|].
  cbn [foldl]. rewrite IH by done. by apply pssaga_epoch_iteration_frame.
Qed.

(** A call whose checks pass: the five arrays it allocates are new and
    distinct, the three vectors start as copies of [x0], the memory as
    [init_gradient] leaves it, and the result is built from the state in
    which the loop on epochs ends, the warm-up pass made. *)
Lemma pssaga_call (h : heap) prox_g prox_h :
  pssaga_checks_pass a -> pssaga_prox_in_use a = Some (prox_g, prox_h) ->
  exists y x z mg ga (h0 : heap),
    (h !! y = None /\ h !! x = None /\ h !! z = None /\ h !! mg = None /\ h !! ga = None)
    /\ NoDup [y; x; z; mg; ga]
    /\ (forall l, is_Some (h !! l) -> h0 !! l = h !! l)
    /\ (h0 !! y = Some (h !!! FminPSSAGA.x0 a) /\ h0 !! x = Some (h !!! FminPSSAGA.x0 a)
        /\ h0 !! z = Some (h !!! FminPSSAGA.x0 a))
    /\ (h0 !! mg
        = Some (PSSAGA.init_gradient (FminPSSAGA.fun_deriv a) (FminPSSAGA.A a)
                  (FminPSSAGA.b a) (Np.zeros (fst (shape (FminPSSAGA.A a))))
                  (Np.zeros (snd (shape (FminPSSAGA.A a))))
                  (fst (shape (FminPSSAGA.A a)))).1
        /\ h0 !! ga
           = Some (PSSAGA.init_gradient (FminPSSAGA.fun_deriv a) (FminPSSAGA.A a)
                     (FminPSSAGA.b a) (Np.zeros (fst (shape (FminPSSAGA.A a))))
                     (Np.zeros (snd (shape (FminPSSAGA.A a))))
                     (fst (shape (FminPSSAGA.A a)))).2)
    /\ FminPSSAGA.fmin_PSSAGA a h
       = pssaga_return y x z
           (FminPSSAGA.epochs a prox_g prox_h blocks y x z mg ga
              (Np.range 0 (FminPSSAGA.max_iter a))
              (FminPSSAGA.epoch_iteration a prox_g prox_h blocks h0 y x z mg ga [0%nat])
              [[0%nat]]
              (pssaga_locals_at_start
                 (FminPSSAGA.epoch_iteration a prox_g prox_h blocks h0 y x z mg ga [0%nat]
                  !!! x))).
Proof.
  intros ((Hg & Hh & Hb & Hs) & Hf) Hp.
  unfold FminPSSAGA.fmin_PSSAGA. fold (pssaga_blocks_in_use a). fold blocks.
  fold blocks in Hf.
  assert ((match FminPSSAGA.g_prox a with
           | IsCallable f => Some f
           | IsNone => Some FminPSSAGA.default_g_prox
           | IsOther => None
           end) = Some prox_g
          /\ (match FminPSSAGA.h_prox a with
              | IsCallable f => Some f
              | IsNone => Some FminPSSAGA.default_h_prox
              | IsOther => None
              end) = Some prox_h) as [-> ->].
  { unfold pssaga_prox_in_use in Hp.
    destruct (FminPSSAGA.g_prox a), (FminPSSAGA.h_prox a); try done;
      by injection Hp as <- <-. }
  unfold np_copy.
  destruct (alloc_spec h (h !!! FminPSSAGA.x0 a)) as (y & -> & Fy).
  set (v0 := h !!! FminPSSAGA.x0 a).
  set (h1 := <[y := v0]> h).
  assert (h1 !!! FminPSSAGA.x0 a = v0) as ->.
  { subst h1 v0. destruct (decide (y = FminPSSAGA.x0 a)) as [->|].
    - by rewrite lookup_total_insert_eq.
    - by rewrite lookup_total_insert_ne. }
  destruct (alloc_spec h1 v0) as (x & -> & Fx).
  set (h2 := <[x := v0]> h1).
  assert (h2 !!! x = v0) as -> by (subst h2; by rewrite lookup_total_insert_eq).
  destruct (alloc_spec h2 v0) as (z & -> & Fz).
  set (h3 := <[z := v0]> h2).
  rewrite (bool_decide_eq_true_2 _ Hb), (bool_decide_eq_false_2 _ Hs). cbn [negb].
  rewrite Hf.
  destruct (alloc_spec h3 (Np.zeros (fst (shape (FminPSSAGA.A a))))) as (mg & -> & Fm).
  set (h4 := <[mg := _]> h3).
  destruct (alloc_spec h4 (Np.zeros (snd (shape (FminPSSAGA.A a))))) as (ga & -> & Fg).
  set (h5 := <[ga := _]> h4).
  assert (h5 !!! mg = Np.zeros (fst (shape (FminPSSAGA.A a)))) as ->.
  { subst h5 h4. apply lookup_insert_None in Fg as [_ ?].
    rewrite lookup_total_insert_ne by done. by rewrite lookup_total_insert_eq. }
  assert (h5 !!! ga = Np.zeros (snd (shape (FminPSSAGA.A a)))) as ->
    by (subst h5; by rewrite lookup_total_insert_eq).
  destruct (PSSAGA.init_gradient _ _ _ _ _ _) as [mg' ga'] eqn:Einit.
  set (h0 := <[ga := ga']> (<[mg := mg']> h5)).
  subst h5 h4 h3 h2 h1.
  apply lookup_insert_None in Fg as [Fg Hgm].
  apply lookup_insert_None in Fg as [Fg Hgz].
  apply lookup_insert_None in Fg as [Fg Hgx].
  apply lookup_insert_None in Fg as [Fg Hgy].
  apply lookup_insert_None in Fm as [Fm Hmz].
  apply lookup_insert_None in Fm as [Fm Hmx].
  apply lookup_insert_None in Fm as [Fm Hmy].
  apply lookup_insert_None in Fz as [Fz Hzx].
  apply lookup_insert_None in Fz as [Fz Hzy].
  apply lookup_insert_None in Fx as [Fx Hxy].
  exists y, x, z, mg, ga, h0. split; [done|]. split.
  { repeat (apply NoDup_cons_2;
              [intros Hin; repeat (apply elem_of_cons in Hin as [?|Hin]; [congruence|]);
               by apply elem_of_nil in Hin|]).
    apply NoDup_nil_2. }
  split; [|split; [|split]].
  - intros l Hl. subst h0.
    rewrite !lookup_insert_ne; [done|intros ->..]; destruct Hl; congruence.
  - subst h0. split; [|split].
    + rewrite !lookup_insert_ne by done. by rewrite lookup_insert_eq.
    + rewrite !lookup_insert_ne by done. by rewrite lookup_insert_eq.
    + rewrite !lookup_insert_ne by done. by rewrite lookup_insert_eq.
  - subst h0. cbn [fst snd]. split.
    + rewrite lookup_insert_ne by done. by rewrite lookup_insert_eq.
    + by rewrite lookup_insert_eq.
  - unfold pssaga_return, pssaga_locals_at_start.
    destruct (FminPSSAGA.epochs _ _ _ _ _ _ _ _ _ _ _ _ _) as [[h' log] v]. reflexivity.
Qed.
End PssagaCall.

Section FactoryIndexError.

(** With one block id per feature and ids that pass the assertion of the
    factory, every block holds a feature: its range in [RB_h_indptr] is
    not empty. *)
Lemma block_holds_feature bl A h :
  blocks_contiguous bl = true -> length bl = snd (shape A) ->
  h < PSSAGA.n_blocks_h bl ->
  PSSAGA.RB_h_indptr bl A !!! h < PSSAGA.RB_h_indptr bl A !!! (h + 1).
Proof.
  intros Hc Hlen Hh. unfold PSSAGA.RB_h_indptr. rewrite take_ge by lia.
  rewrite reverse_indptr_step by done.
  assert (h ∈ bl) as Hin.
  { apply unique_elem. apply bool_decide_eq_true in Hc. rewrite Hc.
    apply elem_of_seq. unfold PSSAGA.n_blocks_h in Hh. lia. }
  assert (h ∈ filter (fun v => v = h) bl) as Hf by (by apply list_elem_of_filter).
  destruct (filter (fun v => v = h) bl); [by apply elem_of_nil in Hf|cbn; lia].
Qed.

(** The loop that fills [d_weights] then reads [d_h[h]] for every block, so
    it fails exactly when the inferred columns of [BS_h] are fewer than the
    blocks. *)
Lemma last_block_unused bl A :
  blocks_contiguous bl = true -> length bl = snd (shape A) ->
  Exists (fun h => PSSAGA.BS_h_columns bl A <= h
                   /\ PSSAGA.RB_h_indptr bl A !!! h < PSSAGA.RB_h_indptr bl A !!! (h + 1))
         (Np.range 0 (PSSAGA.n_blocks_h bl))
  <-> PSSAGA.BS_h_columns bl A < PSSAGA.n_blocks_h bl.
Proof.
  intros Hc Hlen. rewrite Exists_exists. split.
  - intros (h & Hh & Hcol & _). unfold Np.range in Hh. apply elem_of_seq in Hh. lia.
  - intros Hcol. exists (PSSAGA.n_blocks_h bl - 1). split; [|split; [lia|]].
    + unfold Np.range. apply elem_of_seq. lia.
    + apply block_holds_feature; [done|done|lia].
Qed.
End FactoryIndexError.

Section PssagaChecks.
Local Open Scope Qc_scope.
Variable a : FminPSSAGA.args.

Lemma factory_raises_cases bl A e :
  length bl = snd (shape A) ->
  PSSAGA.factory_raises bl A = Some e
  <-> (e = AssertionError /\ blocks_contiguous bl = false)
      \/ (e = SciPyValueError /\ blocks_contiguous bl = true
          /\ PSSAGA.BS_h_indices bl A = [])
      \/ (e = IndexError /\ blocks_contiguous bl = true
          /\ PSSAGA.BS_h_indices bl A ≠ []
          /\ (PSSAGA.BS_h_columns bl A < PSSAGA.n_blocks_h bl)%nat).
Proof.
  intros Hlen. unfold PSSAGA.factory_raises.
  destruct (blocks_contiguous bl) eqn:Hc; cbn [negb].
  - destruct (decide (PSSAGA.BS_h_indices bl A = [])) as [Hnil|Hnil].
    + split; [intros [= <-]; right; left; done|].
      intros [[_ ?]|[(-> & _)|(_ & _ & ? & _)]]; done.
    + rewrite decide_False by lia.
      rewrite (decide_ext _ _ _ _ (last_block_unused bl A Hc Hlen)).
      destruct (decide (PSSAGA.BS_h_columns bl A < PSSAGA.n_blocks_h bl)%nat).
      * split; [intros [= <-]; right; right; done|].
        intros [[_ ?]|[(_ & _ & ?)|(-> & _)]]; done.
      * split; [done|]. intros [[_ ?]|[(_ & _ & ?)|(_ & _ & _ & ?)]]; done.
  - split; [intros [= <-]; left; done|].
    intros [[-> _]|[(_ & ? & _)|(_ & ? & _)]]; done.
Qed.

Lemma pssaga_checks_decided : pssaga_checks_pass a \/ ~ pssaga_checks_pass a.
Proof.
  unfold pssaga_checks_pass, pssaga_arguments_accepted.
  destruct (decide (fst (shape (FminPSSAGA.A a)) = length (FminPSSAGA.b a)));
    [|right; tauto].
  destruct (decide (FminPSSAGA.step_size a < 0)); [right; tauto|].
  destruct (PSSAGA.factory_raises _ _); [right; intros [_ ?]; done|].
  destruct (FminPSSAGA.g_prox a), (FminPSSAGA.h_prox a);
    try (left; done); right; intros [(? & ? & _) _]; done.
Qed.

Lemma pssaga_prox_available :
  pssaga_checks_pass a -> exists prox_g prox_h, pssaga_prox_in_use a = Some (prox_g, prox_h).
Proof.
  intros ((Hg & Hh & _) & _). unfold pssaga_prox_in_use.
  destruct (FminPSSAGA.g_prox a), (FminPSSAGA.h_prox a); try done; by do 2 eexists.
Qed.

(** A call with a failing check ends with the exception of the first check
    that fails; no array of the caller has changed. *)
Lemma pssaga_call_fails (h : heap) :
  ~ pssaga_checks_pass a ->
  exists e (hf : heap),
    FminPSSAGA.fmin_PSSAGA a h = Run hf [] (inl e)
    /\ (forall l, is_Some (h !! l) -> hf !! l = h !! l)
    /\ (e = NotImplementedError
        /\ (FminPSSAGA.g_prox a = IsOther \/ FminPSSAGA.h_prox a = IsOther)
        \/ e = AssertionError
           /\ FminPSSAGA.g_prox a ≠ IsOther /\ FminPSSAGA.h_prox a ≠ IsOther
           /\ fst (shape (FminPSSAGA.A a)) ≠ length (FminPSSAGA.b a)
        \/ e = ValueError
           /\ FminPSSAGA.g_prox a ≠ IsOther /\ FminPSSAGA.h_prox a ≠ IsOther
           /\ fst (shape (FminPSSAGA.A a)) = length (FminPSSAGA.b a)
           /\ FminPSSAGA.step_size a < 0
        \/ pssaga_arguments_accepted a
           /\ PSSAGA.factory_raises (pssaga_blocks_in_use a) (FminPSSAGA.A a) = Some e).
Proof.
  intros Hfail. unfold pssaga_checks_pass, pssaga_arguments_accepted in *.
  unfold FminPSSAGA.fmin_PSSAGA. fold (pssaga_blocks_in_use a).
  destruct (FminPSSAGA.g_prox a) as [|fg|] eqn:Hg.
  3:{ exists NotImplementedError, h. split; [by destruct (FminPSSAGA.h_prox a)|].
      split; [done|]. left. split; [done|]. by left. }
  all: destruct (FminPSSAGA.h_prox a) as [|fh|] eqn:Hh.
  all: try (exists NotImplementedError, h; split; [done|]; split; [done|];
            left; split; [done|]; by right).
  all: unfold np_copy.
  all: destruct (alloc_spec h (h !!! FminPSSAGA.x0 a)) as (y & -> & Fy).
  all: destruct (alloc_spec (<[y := h !!! FminPSSAGA.x0 a]> h)
                   (<[y := h !!! FminPSSAGA.x0 a]> h !!! FminPSSAGA.x0 a))
         as (x & -> & Fx).
  all: match goal with |- context [alloc ?hh ?v] =>
         destruct (alloc_spec hh v) as (z & -> & Fz) end.
  all: apply lookup_insert_None in Fz as [Fz _].
  all: apply lookup_insert_None in Fz as [Fz _].
  all: apply lookup_insert_None in Fx as [Fx _].
  all: match goal with |- context [Run ?hh [] _] =>
         assert (forall l, is_Some (h !! l) -> hh !! l = h !! l) as Hframe
           by (intros l Hl; rewrite !lookup_insert_ne; [done|intros ->..];
               destruct Hl; congruence) end.
  all: case_bool_decide as Hb; cbn [negb];
    [|exists AssertionError; eexists; split; [done|]; split; [exact Hframe|];
      right; left; done].
  all: case_bool_decide as Hs;
    [exists ValueError; eexists; split; [done|]; split; [exact Hframe|];
     right; right; left; done|].
  all: destruct (PSSAGA.factory_raises _ _) as [e|] eqn:Hf;
    [|exfalso; apply Hfail; done].
  all: exists e; eexists; split; [done|]; split; [exact Hframe|];
    right; right; right; done.
Qed.
End PssagaChecks.

Section PssagaLoopTrace.
Variable a : FminPSSAGA.args.
Variable prox_g : prox2.
Variable prox_h : prox.
Variable blocks : list nat.
Variables y x z mg ga : loc.

Let cert (h : heap) : Qc := norm_sq (vsub (h !!! x) (h !!! z)).
Let after (its : list nat) (h : heap) : heap :=
  FminPSSAGA.run_epochs a prox_g prox_h blocks y x z mg ga its h.
Let loop (its : list nat) (h : heap) (log : list (list nat)) (v : FminPSSAGA.locals) :=
  FminPSSAGA.epochs a prox_g prox_h blocks y x z mg ga its h log v.

(** The state in which the loop on epochs ends, with what it recorded. *)
Lemma pssaga_epochs_trace its : forall h log v,
  its ≠ [] ->
  exists k,
    k < length its
    /\ (loop its h log v).1.1 = after (take (S k) its) h
    /\ (loop its h log v).1.2 = log ++ (FminPSSAGA.draws a <$> take (S k) its)
    /\ FminPSSAGA.it (loop its h log v).2 = its !! k
    /\ FminPSSAGA.certificate (loop its h log v).2
       = Some (cert (after (take (S k) its) h))
    /\ FminPSSAGA.success (loop its h log v).2
       = (if below_tol (cert (after (take (S k) its) h)) (FminPSSAGA.tol a) then true
          else FminPSSAGA.success v)
    /\ (below_tol (cert (after (take (S k) its) h)) (FminPSSAGA.tol a) = false ->
        S k = length its)
    /\ (forall k', k' < k ->
          below_tol (cert (after (take (S k') its) h)) (FminPSSAGA.tol a) = false)
    /\ FminPSSAGA.trace_x (loop its h log v).2
       = FminPSSAGA.trace_x v
         ++ (if FminPSSAGA.trace a
             then (fun j => after (take (S j) its) h !!! x) <$> seq 0 (S k) else [])
    /\ FminPSSAGA.trace_certificate (loop its h log v).2
       = FminPSSAGA.trace_certificate v
         ++ (if FminPSSAGA.trace a
             then (fun j => Some (cert (after (take (S j) its) h))) <$> seq 0 (S k)
             else []).
Proof.
  unfold loop. induction its as [|i its IH]; intros h log v Hne; [done|].
  cbn [FminPSSAGA.epochs]. cbv zeta.
  set (h1 := FminPSSAGA.epoch_iteration a prox_g prox_h blocks h y x z mg ga
               (FminPSSAGA.draws a i)).
  fold (cert h1).
  assert (forall j, after (take (S j) (i :: its)) h = after (take j its) h1) as Hafter
    by done.
  destruct (below_tol (cert h1) (FminPSSAGA.tol a)) eqn:Hb.
  - exists 0. rewrite !Hafter, ?take_0. change (after [] h1) with h1. rewrite Hb.
    cbn [fst snd take length lookup list_lookup fmap list_fmap seq
         FminPSSAGA.it FminPSSAGA.certificate FminPSSAGA.success FminPSSAGA.trace_x
         FminPSSAGA.trace_certificate].
    split; [lia|]. repeat split; try done; try lia.
    all: destruct (FminPSSAGA.trace a); by rewrite ?app_nil_r.
  - destruct its as [|i' its'].
    + exists 0. rewrite !Hafter, ?take_0. change (after [] h1) with h1. rewrite Hb.
      cbn [FminPSSAGA.epochs fst snd take length lookup list_lookup fmap list_fmap seq
           FminPSSAGA.it FminPSSAGA.certificate FminPSSAGA.success FminPSSAGA.trace_x
           FminPSSAGA.trace_certificate].
      split; [lia|]. repeat split; try done; try lia.
      all: destruct (FminPSSAGA.trace a); by rewrite ?app_nil_r.
    + set (v1 := FminPSSAGA.Locals _ _ _ _ _).
      destruct (IH h1 (log ++ [FminPSSAGA.draws a i]) v1)
        as (k & Hk & Hh & Hl & Hi & Hc & Hs & Hlast & Hlt & Htx & Htc); [done|].
      exists (S k). rewrite Hh, Hl, Hi, Hc, Hs, Htx, Htc. rewrite !Hafter.
      split; [cbn [length] in *; lia|]. repeat split; try done.
      * by rewrite <- app_assoc.
      * intros Hnb. specialize (Hlast Hnb). cbn [length] in *. lia.
      * intros [|k'] Hk'; [exact Hb|]. rewrite Hafter. apply Hlt. lia.
      * subst v1. cbn [FminPSSAGA.trace_x].
        destruct (FminPSSAGA.trace a); [|by rewrite !app_nil_r].
        rewrite <- app_assoc. f_equal.
        change (seq 0 (S (S k))) with (0 :: seq 1 (S k)).
        rewrite fmap_cons, <- fmap_S_seq, <- list_fmap_compose. reflexivity.
      * subst v1. cbn [FminPSSAGA.trace_certificate].
        destruct (FminPSSAGA.trace a); [|by rewrite !app_nil_r].
        rewrite <- app_assoc. f_equal.
        change (seq 0 (S (S k))) with (0 :: seq 1 (S k)).
        rewrite fmap_cons, <- fmap_S_seq, <- list_fmap_compose. reflexivity.
Qed.
End PssagaLoopTrace.

Section PssagaDriver.
Local Open Scope Qc_scope.
Variable a : FminPSSAGA.args.

Let blocks := pssaga_blocks_in_use a.

(** A call whose checks pass, with no epoch to run. *)
Lemma pssaga_call_no_epoch (h : heap) :
  pssaga_checks_pass a -> FminPSSAGA.max_iter a = 0%nat ->
  exists h0 : heap,
    (forall l, is_Some (h !! l) -> h0 !! l = h !! l)
    /\ FminPSSAGA.fmin_PSSAGA a h = Run h0 [[0%nat]] (inl UnboundLocalError).
Proof.
  intros Hpass Hmax. destruct (pssaga_prox_available a Hpass) as (prox_g & prox_h & Hp).
  destruct (pssaga_call a h prox_g prox_h Hpass Hp)
    as (y & x & z & mg & ga & h0 & (Fy & Fx & Fz & Fm & Fg) & _ & Hframe & _ & _ & E).
  exists (FminPSSAGA.epoch_iteration a prox_g prox_h blocks h0 y x z mg ga [0%nat]).
  split; [|rewrite E, Hmax; reflexivity].
  intros l Hl.
  rewrite pssaga_epoch_iteration_frame; [by apply Hframe|intros ->..];
    destruct Hl; congruence.
Qed.

(** A call whose checks pass, with at least one epoch to run. *)
Lemma pssaga_call_returns (h : heap) prox_g prox_h :
  pssaga_checks_pass a -> pssaga_prox_in_use a = Some (prox_g, prox_h) ->
  (0 < FminPSSAGA.max_iter a)%nat ->
  exists y x z mg ga (h0 : heap) n,
    (h !! y = None /\ h !! x = None /\ h !! z = None /\ h !! mg = None /\ h !! ga = None)
    /\ NoDup [y; x; z; mg; ga]
    /\ (forall l, is_Some (h !! l) -> h0 !! l = h !! l)
    /\ (h0 !! y = Some (h !!! FminPSSAGA.x0 a) /\ h0 !! x = Some (h !!! FminPSSAGA.x0 a)
        /\ h0 !! z = Some (h !!! FminPSSAGA.x0 a))
    /\ (h0 !! mg
        = Some (PSSAGA.init_gradient (FminPSSAGA.fun_deriv a) (FminPSSAGA.A a)
                  (FminPSSAGA.b a) (Np.zeros (fst (shape (FminPSSAGA.A a))))
                  (Np.zeros (snd (shape (FminPSSAGA.A a))))
                  (fst (shape (FminPSSAGA.A a)))).1
        /\ h0 !! ga
           = Some (PSSAGA.init_gradient (FminPSSAGA.fun_deriv a) (FminPSSAGA.A a)
                     (FminPSSAGA.b a) (Np.zeros (fst (shape (FminPSSAGA.A a))))
                     (Np.zeros (snd (shape (FminPSSAGA.A a))))
                     (fst (shape (FminPSSAGA.A a)))).2)
    /\ (n < FminPSSAGA.max_iter a)%nat
    /\ let hw := FminPSSAGA.epoch_iteration a prox_g prox_h blocks h0 y x z mg ga [0%nat] in
       let after k :=
         FminPSSAGA.run_epochs a prox_g prox_h blocks y x z mg ga (seq 0 (S k)) hw in
       let cert k := norm_sq (vsub (after k !!! x) (after k !!! z)) in
       FminPSSAGA.fmin_PSSAGA a h
       = Run (after n) ([0%nat] :: (FminPSSAGA.draws a <$> seq 0 (S n)))
           (inr {| FminPSSAGA.res_x := x; FminPSSAGA.res_y := y; FminPSSAGA.res_z := z;
                   FminPSSAGA.res_success := below_tol (cert n) (FminPSSAGA.tol a);
                   FminPSSAGA.res_nit := n;
                   FminPSSAGA.res_trace_x :=
                     hw !!! x
                     :: (if FminPSSAGA.trace a
                         then (fun k => after k !!! x) <$> seq 0 (S n) else []);
                   FminPSSAGA.res_certificate := cert n;
                   FminPSSAGA.res_trace_certificate :=
                     None :: (if FminPSSAGA.trace a
                              then (fun k => Some (cert k)) <$> seq 0 (S n) else []) |})
       /\ (below_tol (cert n) (FminPSSAGA.tol a) = false -> S n = FminPSSAGA.max_iter a)
       /\ (forall k, (k < n)%nat -> below_tol (cert k) (FminPSSAGA.tol a) = false).
Proof.
  intros Hpass Hp Hmax.
  destruct (pssaga_call a h prox_g prox_h Hpass Hp)
    as (y & x & z & mg & ga & h0 & Hfresh & Hnd & Hframe & Hv & Hm & E).
  fold blocks in E.
  set (hw := FminPSSAGA.epoch_iteration a prox_g prox_h blocks h0 y x z mg ga [0%nat]) in *.
  destruct (pssaga_epochs_trace a prox_g prox_h blocks y x z mg ga
              (Np.range 0 (FminPSSAGA.max_iter a)) hw
              [[0%nat]] (pssaga_locals_at_start (hw !!! x)))
    as (n & Hn & Hh & Hl & Hi & Hc & Hsu & Hlast & Hlt & Htx & Htc).
  { intros E'. apply (f_equal length) in E'. rewrite range_length in E'. cbn in E'. lia. }
  rewrite range_length in Hn, Hlast.
  rewrite take_range in Hh, Hl, Hc, Hsu, Hlast by lia. rewrite range_lookup in Hi by lia.
  exists y, x, z, mg, ga, h0, n. do 6 (split; [done|]). cbv zeta.
  split; [|split; [exact Hlast|]].
  2:{ intros k Hk. rewrite <- (take_range k (FminPSSAGA.max_iter a)) by lia.
      apply Hlt. lia. }
  rewrite E. unfold pssaga_return. rewrite Hi, Hc, Hh, Hl, Hsu, Htx, Htc.
  cbn [pssaga_locals_at_start FminPSSAGA.success FminPSSAGA.trace_x
       FminPSSAGA.trace_certificate app].
  f_equal. f_equal. f_equal.
  - by destruct (below_tol _ _).
  - f_equal. destruct (FminPSSAGA.trace a); [|done]. apply list_fmap_ext.
    intros j k Hk. apply lookup_seq in Hk as [-> Hk]. cbn [Nat.add].
    by rewrite take_range by lia.
  - f_equal. destruct (FminPSSAGA.trace a); [|done]. apply list_fmap_ext.
    intros j k Hk. apply lookup_seq in Hk as [-> Hk]. cbn [Nat.add].
    by rewrite take_range by lia.
Qed.

(** X12.  How a call of [fmin_PSSAGA] ends, for a block assignment with one
    id per feature and an [x0] that has an entry for every feature.  The
    two proximal arguments are looked at first: [NotImplementedError] when
    one is neither a callable nor [None].  Then [AssertionError] when the
    sample counts differ, or when the step size is accepted and the block
    ids fail the assertion of the factory; the [ValueError] of SciPy when
    the arguments are accepted and the block support has no stored entry;
    [IndexError] when it has some but fewer columns than there are blocks.
    With every check passed and [max_iter = 0] the call raises
    [UnboundLocalError] at its [return], after the warm-up pass; it returns
    a result exactly when every check passes and [max_iter] is positive.  A
    kernel has run exactly when every check passed. *)
Theorem fmin_PSSAGA_outcome (h : heap) :
  pssaga_inputs_ok a h ->
  (outcome (FminPSSAGA.fmin_PSSAGA a h) = inl NotImplementedError
   <-> FminPSSAGA.g_prox a = IsOther \/ FminPSSAGA.h_prox a = IsOther)
  /\ (outcome (FminPSSAGA.fmin_PSSAGA a h) = inl AssertionError
      <-> FminPSSAGA.g_prox a ≠ IsOther /\ FminPSSAGA.h_prox a ≠ IsOther
          /\ (fst (shape (FminPSSAGA.A a)) ≠ length (FminPSSAGA.b a)
              \/ (~ FminPSSAGA.step_size a < 0 /\ blocks_contiguous blocks = false)))
  /\ (outcome (FminPSSAGA.fmin_PSSAGA a h) = inl SciPyValueError
      <-> pssaga_arguments_accepted a /\ blocks_contiguous blocks = true
          /\ PSSAGA.BS_h_indices blocks (FminPSSAGA.A a) = [])
  /\ (outcome (FminPSSAGA.fmin_PSSAGA a h) = inl IndexError
      <-> pssaga_arguments_accepted a /\ blocks_contiguous blocks = true
          /\ PSSAGA.BS_h_indices blocks (FminPSSAGA.A a) ≠ []
          /\ (PSSAGA.BS_h_columns blocks (FminPSSAGA.A a) < PSSAGA.n_blocks_h blocks)%nat)
  /\ (outcome (FminPSSAGA.fmin_PSSAGA a h) = inl UnboundLocalError
      <-> pssaga_checks_pass a /\ FminPSSAGA.max_iter a = 0%nat)
  /\ ((exists r, outcome (FminPSSAGA.fmin_PSSAGA a h) = inr r)
      <-> pssaga_checks_pass a /\ (0 < FminPSSAGA.max_iter a)%nat)
  /\ (dispatched (FminPSSAGA.fmin_PSSAGA a h) = [] <-> ~ pssaga_checks_pass a).
Proof.
  intros [Hlen _]. change (length blocks = snd (shape (FminPSSAGA.A a))) in Hlen.
  destruct (pssaga_checks_decided a) as [Hpass|Hfail].
  - pose proof Hpass as ((Hg & Hh & Hb & Hs) & Hf). fold blocks in Hf.
    assert (forall e, ~ (PSSAGA.factory_raises blocks (FminPSSAGA.A a) = Some e)) as Hnf
      by (intros e; rewrite Hf; done).
    assert (blocks_contiguous blocks = true) as Hbl.
    { destruct (blocks_contiguous blocks) eqn:Hbl; [done|].
      exfalso. apply (Hnf AssertionError), factory_raises_cases; [done|]. by left. }
    assert (PSSAGA.BS_h_indices blocks (FminPSSAGA.A a) ≠ []) as Hnil.
    { intros Hnil. apply (Hnf SciPyValueError), factory_raises_cases; [done|].
      right. by left. }
    assert (~ (PSSAGA.BS_h_columns blocks (FminPSSAGA.A a) < PSSAGA.n_blocks_h blocks)%nat)
      as Hcol.
    { intros Hcol. apply (Hnf IndexError), factory_raises_cases; [done|].
      right. by right. }
    destruct (decide (FminPSSAGA.max_iter a = 0%nat)) as [Hmax|Hmax].
    + destruct (pssaga_call_no_epoch h Hpass Hmax) as (h0 & _ & ->).
      cbn [outcome dispatched]. split_and!.
      * split; [discriminate|]. intros [?|?]; done.
      * split; [discriminate|]. intros (_ & _ & [?|[_ ?]]); [done|congruence].
      * split; [discriminate|]. intros (_ & _ & ?). done.
      * split; [discriminate|]. intros (_ & _ & _ & ?). done.
      * done.
      * split; [intros [? [=]]|]. intros [_ ?]. lia.
      * split; [discriminate|done].
    + destruct (pssaga_prox_available a Hpass) as (prox_g & prox_h & Hp).
      destruct (pssaga_call_returns h prox_g prox_h Hpass Hp ltac:(lia))
        as (y & x & z & mg & ga & h0 & n & _ & _ & _ & _ & _ & _ & E & _ & _).
      cbv zeta in E. rewrite E. cbn [outcome dispatched]. split_and!.
      * split; [discriminate|]. intros [?|?]; done.
      * split; [discriminate|]. intros (_ & _ & [?|[_ ?]]); [done|congruence].
      * split; [discriminate|]. intros (_ & _ & ?). done.
      * split; [discriminate|]. intros (_ & _ & _ & ?). done.
      * split; [discriminate|]. intros [_ ?]. done.
      * split; [intros _; split; [done|lia]|]. intros _. by eexists.
      * split; [discriminate|done].
  - destruct (pssaga_call_fails a h Hfail) as (e & hf & -> & _ & Hcases).
    cbn [outcome dispatched].
    destruct Hcases
      as [[-> Ho]|[(-> & Hg & Hh & Hb)|[(-> & Hg & Hh & Hb & Hs)|[Hacc Hf]]]].
    + split_and!; try done.
      * split; [discriminate|]. intros (? & ? & _). by destruct Ho.
      * split; [discriminate|]. intros ((? & ? & _) & _). by destruct Ho.
      * split; [discriminate|]. intros ((? & ? & _) & _). by destruct Ho.
      * split; [discriminate|]. intros [? _]. done.
      * split; [intros [? [=]]|]. intros [? _]. done.
    + split_and!; try done.
      * split; [discriminate|]. intros [?|?]; done.
      * split; [intros _|done]. split; [done|]. split; [done|]. by left.
      * split; [discriminate|]. intros ((_ & _ & ? & _) & _). done.
      * split; [discriminate|]. intros ((_ & _ & ? & _) & _). done.
      * split; [discriminate|]. intros [? _]. done.
      * split; [intros [? [=]]|]. intros [? _]. done.
    + split_and!; try done.
      * split; [discriminate|]. intros [?|?]; done.
      * split; [discriminate|]. intros (_ & _ & [?|[? _]]); done.
      * split; [discriminate|]. intros ((_ & _ & _ & ?) & _). done.
      * split; [discriminate|]. intros ((_ & _ & _ & ?) & _). done.
      * split; [discriminate|]. intros [? _]. done.
      * split; [intros [? [=]]|]. intros [? _]. done.
    + pose proof Hacc as (Hg & Hh & Hb & Hs). fold blocks in Hf.
      apply (proj1 (factory_raises_cases _ _ _ Hlen)) in Hf
        as [[-> Hbl]|[(-> & Hbl & Hnil)|(-> & Hbl & Hnil & Hcol)]].
      * split_and!; try done.
        -- split; [discriminate|]. intros [?|?]; done.
        -- split; [intros _|done]. split; [done|]. split; [done|]. right. done.
        -- split; [discriminate|]. intros (_ & ? & _). congruence.
        -- split; [discriminate|]. intros (_ & ? & _). congruence.
        -- split; [discriminate|]. intros [? _]. done.
        -- split; [intros [? [=]]|]. intros [? _]. done.
      * split_and!; try done.
        -- split; [discriminate|]. intros [?|?]; done.
        -- split; [discriminate|]. intros (_ & _ & [?|[_ ?]]); [done|congruence].
        -- split; [discriminate|]. intros (_ & _ & ? & _). done.
        -- split; [discriminate|]. intros [? _]. done.
        -- split; [intros [? [=]]|]. intros [? _]. done.
      * split_and!; try done.
        -- split; [discriminate|]. intros [?|?]; done.
        -- split; [discriminate|]. intros (_ & _ & [?|[_ ?]]); [done|congruence].
        -- split; [discriminate|]. intros (_ & _ & ?). done.
        -- split; [discriminate|]. intros [? _]. done.
        -- split; [intros [? [=]]|]. intros [? _]. done.
Qed.

(** X13.  [fmin_PSSAGA] works on arrays of its own.  For a well-formed
    matrix, a block assignment with one id per feature, an [x0] that has an
    entry for every feature and sample indices as the generator returns
    them: whatever way the call ends, every array that existed before it,
    [x0] among them, has the contents it had, and the three vectors [x],
    [y] and [z] returned are three distinct new arrays. *)
Theorem fmin_PSSAGA_keeps_arrays (h : heap) (l : loc) :
  pssaga_call_in_bounds a h ->
  is_Some (h !! l) ->
  final_heap (FminPSSAGA.fmin_PSSAGA a h) !! l = h !! l
  /\ forall r, outcome (FminPSSAGA.fmin_PSSAGA a h) = inr r ->
       NoDup [FminPSSAGA.res_x r; FminPSSAGA.res_y r; FminPSSAGA.res_z r; l].
Proof.
  intros _ Hl. destruct (pssaga_checks_decided a) as [Hpass|Hfail].
  - destruct (decide (FminPSSAGA.max_iter a = 0%nat)) as [Hmax|Hmax].
    + destruct (pssaga_call_no_epoch h Hpass Hmax) as (h0 & Hframe & ->).
      cbn [final_heap outcome]. split; [by apply Hframe|]. intros r [=].
    + destruct (pssaga_prox_available a Hpass) as (prox_g & prox_h & Hp).
      destruct (pssaga_call_returns h prox_g prox_h Hpass Hp ltac:(lia))
        as (y & x & z & mg & ga & h0 & n & (Fy & Fx & Fz & Fm & Fg) & Hnd & Hframe
            & _ & _ & _ & E & _ & _).
      cbv zeta in E. rewrite E. cbn [final_heap outcome]. split.
      * rewrite pssaga_run_epochs_frame, pssaga_epoch_iteration_frame;
          [by apply Hframe|intros ->..]; destruct Hl; congruence.
      * intros r [= <-].
        cbn [FminPSSAGA.res_x FminPSSAGA.res_y FminPSSAGA.res_z].
        apply list.NoDup_cons in Hnd as [Hy Hnd].
        apply list.NoDup_cons in Hnd as [Hx Hnd].
        apply list.NoDup_cons in Hnd as [Hz _].
        rewrite !elem_of_cons in Hy, Hx, Hz.
        repeat (apply NoDup_cons_2;
                  [intros Hin; repeat (apply elem_of_cons in Hin as [?|Hin];
                                       [subst; destruct Hl; try congruence; tauto|]);
                   by apply elem_of_nil in Hin|]).
        apply NoDup_nil_2.
  - destruct (pssaga_call_fails a h Hfail) as (e & hf & -> & Hframe & _).
    cbn [final_heap outcome]. split; [by apply Hframe|]. intros r [=].
Qed.

(** X14.  What a call of [fmin_PSSAGA] that returns has done and recorded,
    for a block assignment with one id per feature and an [x0] that has an
    entry for every feature: [nit] is the index of the last epoch, below [max_iter]; the kernel was
    handed the warm-up sample and then one array of the generator per epoch;
    [success] says whether the returned certificate is below [tol], and
    without success every one of the [max_iter] epochs has run; the returned
    certificate is the distance between the returned [x] and [z].  The
    certificate trace starts with [inf] and [trace_x] with one point; with
    [trace] set both have [nit + 2] entries, ending with the returned
    certificate and the solution; with [trace] unset they stay at one
    entry. *)
Theorem fmin_PSSAGA_result (h : heap) :
  pssaga_inputs_ok a h -> pssaga_checks_pass a -> (0 < FminPSSAGA.max_iter a)%nat ->
  exists r,
    outcome (FminPSSAGA.fmin_PSSAGA a h) = inr r
    /\ (FminPSSAGA.res_nit r < FminPSSAGA.max_iter a)%nat
    /\ dispatched (FminPSSAGA.fmin_PSSAGA a h)
       = [0%nat] :: (FminPSSAGA.draws a <$> seq 0 (S (FminPSSAGA.res_nit r)))
    /\ FminPSSAGA.res_success r
       = below_tol (FminPSSAGA.res_certificate r) (FminPSSAGA.tol a)
    /\ (FminPSSAGA.res_success r = false
        -> S (FminPSSAGA.res_nit r) = FminPSSAGA.max_iter a)
    /\ FminPSSAGA.res_certificate r
       = norm_sq (vsub (final_heap (FminPSSAGA.fmin_PSSAGA a h) !!! FminPSSAGA.res_x r)
                       (final_heap (FminPSSAGA.fmin_PSSAGA a h) !!! FminPSSAGA.res_z r))
    /\ head (FminPSSAGA.res_trace_certificate r) = Some None
    /\ (FminPSSAGA.trace a = true ->
        length (FminPSSAGA.res_trace_certificate r) = (FminPSSAGA.res_nit r + 2)%nat
        /\ length (FminPSSAGA.res_trace_x r) = (FminPSSAGA.res_nit r + 2)%nat
        /\ last (FminPSSAGA.res_trace_certificate r)
           = Some (Some (FminPSSAGA.res_certificate r))
        /\ last (FminPSSAGA.res_trace_x r)
           = Some (final_heap (FminPSSAGA.fmin_PSSAGA a h) !!! FminPSSAGA.res_x r))
    /\ (FminPSSAGA.trace a = false ->
        FminPSSAGA.res_trace_certificate r = [None]
        /\ length (FminPSSAGA.res_trace_x r) = 1%nat).
Proof.
  intros _ Hpass Hmax.
  destruct (pssaga_prox_available a Hpass) as (prox_g & prox_h & Hp).
  destruct (pssaga_call_returns h prox_g prox_h Hpass Hp Hmax)
    as (y & x & z & mg & ga & h0 & n & _ & _ & _ & _ & _ & Hn & E & Hlast & _).
  cbv zeta in E. rewrite E. eexists. split; [reflexivity|].
  cbn [outcome dispatched final_heap FminPSSAGA.res_x FminPSSAGA.res_z
       FminPSSAGA.res_success FminPSSAGA.res_nit FminPSSAGA.res_trace_x
       FminPSSAGA.res_certificate FminPSSAGA.res_trace_certificate].
  do 6 (split; [done|]). split.
  - intros ->. cbn [length]. rewrite !length_fmap, !length_seq.
    split; [lia|]. split; [lia|]. by rewrite !last_fmap_seq.
  - intros ->. done.
Qed.

(** X15.  The warm-up call of [fmin_PSSAGA] is made on the vectors of the
    solver themselves, not on copies.  For a block assignment with one id
    per feature and an [x0] that has an entry for every feature: when the
    loop on epochs starts, sample [0] has been processed once, and the first
    point of [trace_x] is the vector [x] that one pass of the kernel on
    sample [0] gives from three copies of [x0] and the memory that
    [init_gradient] leaves. *)
Theorem fmin_PSSAGA_warm_up_moves (h : heap) prox_g prox_h :
  pssaga_inputs_ok a h ->
  pssaga_checks_pass a -> pssaga_prox_in_use a = Some (prox_g, prox_h) ->
  (0 < FminPSSAGA.max_iter a)%nat ->
  exists r,
    outcome (FminPSSAGA.fmin_PSSAGA a h) = inr r
    /\ head (FminPSSAGA.res_trace_x r)
       = Some (PSSAGA.x
                 (PSSAGA.sample_update (FminPSSAGA.fun_deriv a) prox_g prox_h blocks
                    (FminPSSAGA.A a) (FminPSSAGA.b a) (FminPSSAGA.alpha a)
                    (FminPSSAGA.beta a) (FminPSSAGA.gamma a) (FminPSSAGA.step_size a)
                    {| PSSAGA.y := h !!! FminPSSAGA.x0 a;
                       PSSAGA.x := h !!! FminPSSAGA.x0 a;
                       PSSAGA.z := h !!! FminPSSAGA.x0 a;
                       PSSAGA.memory_gradient :=
                         (PSSAGA.init_gradient (FminPSSAGA.fun_deriv a) (FminPSSAGA.A a)
                            (FminPSSAGA.b a) (Np.zeros (fst (shape (FminPSSAGA.A a))))
                            (Np.zeros (snd (shape (FminPSSAGA.A a))))
                            (fst (shape (FminPSSAGA.A a)))).1;
                       PSSAGA.gradient_average :=
                         (PSSAGA.init_gradient (FminPSSAGA.fun_deriv a) (FminPSSAGA.A a)
                            (FminPSSAGA.b a) (Np.zeros (fst (shape (FminPSSAGA.A a))))
                            (Np.zeros (snd (shape (FminPSSAGA.A a))))
                            (fst (shape (FminPSSAGA.A a)))).2;
                       PSSAGA.grad_est := Np.zeros (snd (shape (FminPSSAGA.A a))) |}
                    0%nat)).
Proof.
  intros _ Hpass Hp Hmax.
  destruct (pssaga_call_returns h prox_g prox_h Hpass Hp Hmax)
    as (y & x & z & mg & ga & h0 & n & _ & Hnd & _ & (Hy & Hx & Hz) & (Hm & Hg) & _
        & E & _ & _).
  cbv zeta in E. rewrite E. eexists. split; [reflexivity|].
  cbn [outcome FminPSSAGA.res_trace_x head]. f_equal.
  apply list.NoDup_cons in Hnd as [_ Hnd].
  apply list.NoDup_cons in Hnd as [Hxn _].
  rewrite !elem_of_cons in Hxn.
  unfold FminPSSAGA.epoch_iteration. cbv zeta.
  rewrite !lookup_total_insert_ne by (intros ->; tauto).
  rewrite lookup_total_insert_eq.
  rewrite !lookup_total_alt, Hy, Hx, Hz, Hm, Hg. reflexivity.
Qed.
End PssagaDriver.

Section PssagaDriverWitnesses.
Import Examples.

Lemma pssaga_2x2_checks_pass : pssaga_checks_pass pssaga_2x2_blocks.
Proof.
  split; [|vm_compute; reflexivity].
  split; [discriminate|]. split; [discriminate|]. split; [reflexivity|].
  vm_compute. discriminate.
Defined.

Lemma pssaga_2x2_inputs_ok : pssaga_inputs_ok pssaga_2x2_blocks (heap_with (Np.zeros 2)).
Proof. split; [reflexivity|]. vm_compute. lia. Defined.

Lemma pssaga_2x2_in_bounds : pssaga_call_in_bounds pssaga_2x2_blocks (heap_with (Np.zeros 2)).
Proof.
  split; [exact pssaga_2x2_inputs_ok|]. split; [vm_compute; repeat constructor|].
  intros it. unfold permutation_outcome. cbn. reflexivity.
Defined.

Lemma fmin_PSSAGA_outcome_witness :
  pssaga_inputs_ok pssaga_2x2_blocks (heap_with (Np.zeros 2))
  /\ ((exists r, outcome (FminPSSAGA.fmin_PSSAGA pssaga_2x2_blocks (heap_with (Np.zeros 2)))
                 = inr r)
      <-> pssaga_checks_pass pssaga_2x2_blocks
          /\ 0 < FminPSSAGA.max_iter pssaga_2x2_blocks).
Proof.
  split; [exact pssaga_2x2_inputs_ok|].
  exact (proj1 (proj2 (proj2 (proj2 (proj2 (proj2
           (fmin_PSSAGA_outcome pssaga_2x2_blocks (heap_with (Np.zeros 2))
              pssaga_2x2_inputs_ok))))))).
Defined.

Lemma fmin_PSSAGA_keeps_arrays_witness :
  pssaga_call_in_bounds pssaga_2x2_blocks (heap_with (Np.zeros 2))
  /\ is_Some (heap_with (Np.zeros 2) !! 0)
  /\ final_heap (FminPSSAGA.fmin_PSSAGA pssaga_2x2_blocks (heap_with (Np.zeros 2))) !! 0
     = heap_with (Np.zeros 2) !! 0.
Proof.
  assert (is_Some (heap_with (Np.zeros 2) !! 0)) as H by (vm_compute; eexists; reflexivity).
  split; [exact pssaga_2x2_in_bounds|]. split; [exact H|].
  exact (proj1 (fmin_PSSAGA_keeps_arrays pssaga_2x2_blocks (heap_with (Np.zeros 2)) 0
                  pssaga_2x2_in_bounds H)).
Defined.

Lemma fmin_PSSAGA_result_witness :
  pssaga_inputs_ok pssaga_2x2_blocks (heap_with (Np.zeros 2))
  /\ pssaga_checks_pass pssaga_2x2_blocks
  /\ 0 < FminPSSAGA.max_iter pssaga_2x2_blocks
  /\ exists r,
       outcome (FminPSSAGA.fmin_PSSAGA pssaga_2x2_blocks (heap_with (Np.zeros 2))) = inr r
       /\ FminPSSAGA.res_nit r < FminPSSAGA.max_iter pssaga_2x2_blocks.
Proof.
  assert (0 < FminPSSAGA.max_iter pssaga_2x2_blocks) as Hmax by (cbn; lia).
  split; [exact pssaga_2x2_inputs_ok|].
  split; [exact pssaga_2x2_checks_pass|]. split; [exact Hmax|].
  destruct (fmin_PSSAGA_result pssaga_2x2_blocks (heap_with (Np.zeros 2))
              pssaga_2x2_inputs_ok pssaga_2x2_checks_pass Hmax) as (r & Hr & Hn & _).
  exists r. split; [exact Hr|exact Hn].
Defined.

Lemma fmin_PSSAGA_warm_up_moves_witness :
  pssaga_inputs_ok pssaga_2x2_blocks (heap_with (Np.zeros 2))
  /\ pssaga_checks_pass pssaga_2x2_blocks
  /\ pssaga_prox_in_use pssaga_2x2_blocks
     = Some (FminPSSAGA.default_g_prox, FminPSSAGA.default_h_prox)
  /\ 0 < FminPSSAGA.max_iter pssaga_2x2_blocks
  /\ exists r,
       outcome (FminPSSAGA.fmin_PSSAGA pssaga_2x2_blocks (heap_with (Np.zeros 2))) = inr r
       /\ is_Some (head (FminPSSAGA.res_trace_x r)).
Proof.
  assert (0 < FminPSSAGA.max_iter pssaga_2x2_blocks) as Hmax by (cbn; lia).
  assert (pssaga_prox_in_use pssaga_2x2_blocks
          = Some (FminPSSAGA.default_g_prox, FminPSSAGA.default_h_prox)) as Hp
    by reflexivity.
  split; [exact pssaga_2x2_inputs_ok|].
  split; [exact pssaga_2x2_checks_pass|]. split; [exact Hp|]. split; [exact Hmax|].
  destruct (fmin_PSSAGA_warm_up_moves pssaga_2x2_blocks (heap_with (Np.zeros 2)) _ _
              pssaga_2x2_inputs_ok pssaga_2x2_checks_pass Hp Hmax) as (r & Hr & Hhead).
  exists r. split; [exact Hr|]. rewrite Hhead. by eexists.
Defined.
End PssagaDriverWitnesses.

(** * The kernels, entry by entry *)

Section InitGradient.
Local Open Scope Qc_scope.
Variable f_prime : Qc -> Qc -> Qc.
Variable A : csr_matrix.
Variable b : list Qc.

Lemma init_gradient_memory ns : forall mg ga,
  (SAGA.init_gradient f_prime A b mg ga ns).1
  = foldl (fun mg i => <[i := f_prime 0 (b !!! i)]> mg) mg (Np.range 0 ns).
Proof.
  unfold SAGA.init_gradient. generalize (Np.range 0 ns) as rows.
  induction rows as [|i rows IH]; intros mg ga; [done|].
  cbn [foldl]. apply IH.
Qed.

Lemma memory_written (rows : list nat) : forall (mg : list Qc) i,
  (i < length mg)%nat ->
  foldl (fun mg i => <[i := f_prime 0 (b !!! i)]> mg) mg rows !!! i
  = if decide (i ∈ rows) then f_prime 0 (b !!! i) else mg !!! i.
Proof.
  induction rows as [|k rows IH]; intros mg i Hi.
  - by rewrite decide_False by apply not_elem_of_nil.
  - cbn [foldl]. rewrite IH by (by rewrite length_insert).
    destruct (decide (i ∈ rows)) as [Hin|Hin].
    + by rewrite decide_True by (by right).
    + destruct (decide (k = i)) as [->|Hne].
      * rewrite decide_True by left. by rewrite list_lookup_total_insert_eq.
      * rewrite list_lookup_total_insert_ne by done.
        rewrite decide_False; [done|]. intros [?|?]%elem_of_cons; done.
Qed.

(** X16.  From zeroed arrays, [init_gradient] leaves in [memory_gradient]
    the derivative of the loss at the prediction [0] for every sample, and in
    [gradient_average] the average of these derivatives weighted by the
    entries of [A]: the gradient of the data term at the zero vector,
    whatever the starting point [x0] is.  Both factories build the same
    function. *)
Theorem init_gradient_at_zero :
  columns_in_range A ->
  let n_samples := fst (shape A) in
  let n_features := snd (shape A) in
  let r := SAGA.init_gradient f_prime A b (Np.zeros n_samples) (Np.zeros n_features)
             n_samples in
  PSSAGA.init_gradient f_prime A b (Np.zeros n_samples) (Np.zeros n_features) n_samples = r
  /\ length r.1 = n_samples /\ length r.2 = n_features
  /\ (forall i, (i < n_samples)%nat -> r.1 !!! i = f_prime 0 (b !!! i))
  /\ (forall j, (j < n_features)%nat ->
        r.2 !!! j
        = Np.sum ((fun i => f_prime 0 (b !!! i) * entry A i j) <$> seq 0 n_samples)
          / Np.of_nat n_samples).
Proof.
  intros Hcol. cbv zeta.
  destruct (init_gradient_consistent f_prime A b Hcol) as (Hc & Hm & Hg).
  cbv zeta in Hc.
  assert (forall i, (i < fst (shape A))%nat ->
            (SAGA.init_gradient f_prime A b (Np.zeros (fst (shape A)))
               (Np.zeros (snd (shape A))) (fst (shape A))).1 !!! i
            = f_prime 0 (b !!! i)) as Hmem.
  { intros i Hi. rewrite init_gradient_memory, memory_written.
    - rewrite decide_True; [done|]. unfold Np.range. apply elem_of_seq. lia.
    - unfold Np.zeros. rewrite length_replicate. done. }
  split; [done|]. split; [done|]. split; [done|]. split; [done|].
  intros j Hj. rewrite (Hc j Hj). unfold average_of_memory. f_equal. f_equal.
  apply list_fmap_ext. intros k i Hk. apply lookup_seq in Hk as [-> Hk].
  cbn [Nat.add]. by rewrite Hmem.
Qed.
End InitGradient.

Section InitGradientWitness.
Import Examples.

Lemma init_gradient_at_zero_witness :
  columns_in_range I2
  /\ (SAGA.init_gradient deriv_squared I2 [1; 1]%Qc (Np.zeros 2) (Np.zeros 2) 2).1 !!! 0
     = deriv_squared 0%Qc ([1; 1]%Qc !!! 0).
Proof.
  assert (columns_in_range I2) as Hcol by (vm_compute; repeat constructor).
  split; [exact Hcol|].
  destruct (init_gradient_at_zero deriv_squared I2 [1; 1]%Qc Hcol) as (_ & _ & _ & Hm & _).
  exact (Hm 0 ltac:(cbn; lia)).
Defined.
End InitGradientWitness.

Section SagaSample.
Local Open Scope Qc_scope.
Variable f_prime : Qc -> Qc -> Qc.
Variable g_prox : prox.
Variable A : csr_matrix.
Variable b : list Qc.
Variables alpha beta eta : Qc.


End SagaSample.

Section SagaSampleWitness.
Import Examples.

End SagaSampleWitness.

Section PssagaBuffer.
Local Open Scope Qc_scope.
Variable f_prime : Qc -> Qc -> Qc.
Variable g_prox : prox2.
Variable h_prox : prox.
Variable h_blocks : list nat.
Variable A : csr_matrix.
Variable b : list Qc.
Variables alpha beta gamma step : Qc.

Let kernel_pass := PSSAGA.sample_update f_prime g_prox h_prox h_blocks A b alpha beta gamma step.

Lemma pssaga_prox_g_buffer ks : forall s,
  PSSAGA.grad_est (foldl (PSSAGA.prox_g_block g_prox h_blocks A beta step) s ks)
  = PSSAGA.grad_est s.
Proof.
  induction ks as [|k ks IH]; intros s; [done|].
  cbn [foldl]. rewrite IH. unfold PSSAGA.prox_g_block. by destruct (g_prox _ _ _ _ _ _).
Qed.

Lemma pssaga_prox_h_buffer ks : forall s,
  PSSAGA.grad_est (foldl (PSSAGA.prox_h_block h_prox h_blocks A alpha gamma step) s ks)
  = PSSAGA.grad_est s.
Proof.
  induction ks as [|k ks IH]; intros s; [done|].
  cbn [foldl]. by rewrite IH.
Qed.

Lemma estimate_elsewhere g mg i ks : forall (ge : list Qc) j,
  j ∉ (fun k => indices A !!! k) <$> ks ->
  foldl (PSSAGA.estimate A g mg i) ge ks !!! j = ge !!! j.
Proof.
  induction ks as [|k ks IH]; intros ge j Hj; [done|].
  rewrite fmap_cons in Hj. apply not_elem_of_cons in Hj as [Hne Hj].
  cbn [foldl]. rewrite IH by done. unfold PSSAGA.estimate.
  by rewrite list_lookup_total_insert_ne.
Qed.

Lemma estimate_length g mg i ks : forall ge : list Qc,
  length (foldl (PSSAGA.estimate A g mg i) ge ks) = length ge.
Proof.
  induction ks as [|k ks IH]; intros ge; [done|].
  cbn [foldl]. rewrite IH. unfold PSSAGA.estimate. apply length_insert.
Qed.

Lemma update_average_buffer g mg i ks : forall (ga ge : list Qc),
  length (foldl (PSSAGA.update_average A g mg i) (ga, ge) ks).2 = length ge
  /\ forall j,
       (foldl (PSSAGA.update_average A g mg i) (ga, ge) ks).2 !!! j
       = if decide (j ∈ (fun k => indices A !!! k) <$> ks) then 0 else ge !!! j.
Proof.
  induction ks as [|k ks IH]; intros ga ge.
  - split; [done|]. intros j. by rewrite decide_False by apply not_elem_of_nil.
  - cbn [foldl]. unfold PSSAGA.update_average at 2 4. cbn [fst snd].
    destruct (IH (<[indices A !!! k := ga !!! (indices A !!! k)
                     + (g - mg !!! i) * data A !!! k / Np.of_nat (fst (shape A))]> ga)
                 (<[indices A !!! k := 0]> ge)) as [Hlen Hlook].
    split; [by rewrite Hlen, length_insert|].
    intros j. rewrite Hlook, fmap_cons.
    destruct (decide (j ∈ (fun k => indices A !!! k) <$> ks)) as [Hj|Hj].
    + by rewrite decide_True by (by right).
    + destruct (decide (indices A !!! k = j)) as [<-|Hne].
      * rewrite decide_True by left.
        destruct (decide (indices A !!! k < length ge)%nat).
        -- by rewrite list_lookup_total_insert_eq.
        -- rewrite list_insert_ge by lia. apply lookup_total_out. lia.
      * rewrite list_lookup_total_insert_ne by done.
        rewrite decide_False; [done|]. intros [?|?]%elem_of_cons; done.
Qed.

Lemma update_average_buffer_length g mg i ks (ga ge : list Qc) :
  length (foldl (PSSAGA.update_average A g mg i) (ga, ge) ks).2 = length ge.
Proof. apply update_average_buffer. Qed.

Lemma update_average_buffer_lookup g mg i ks (ga ge : list Qc) j :
  (foldl (PSSAGA.update_average A g mg i) (ga, ge) ks).2 !!! j
  = if decide (j ∈ (fun k => indices A !!! k) <$> ks) then 0 else ge !!! j.
Proof. apply update_average_buffer. Qed.

(** A pass of the kernel finds the buffer zeroed and leaves it zeroed. *)
Lemma pssaga_sample_buffer n s i :
  PSSAGA.grad_est s = Np.zeros n -> PSSAGA.grad_est (kernel_pass s i) = Np.zeros n.
Proof.
  intros Hz. unfold kernel_pass, PSSAGA.sample_update. cbv zeta.
  cbn [PSSAGA.grad_est]. apply list_eq_total.
  - rewrite update_average_buffer_length, pssaga_prox_h_buffer.
    cbn [PSSAGA.grad_est]. by rewrite estimate_length, pssaga_prox_g_buffer, Hz.
  - intros j. rewrite update_average_buffer_lookup, zeros_lookup.
    case_decide as Hj; [done|].
    rewrite pssaga_prox_h_buffer. cbn [PSSAGA.grad_est].
    rewrite estimate_elsewhere by done. by rewrite pssaga_prox_g_buffer, Hz, zeros_lookup.
Qed.

Lemma pssaga_samples_buffer n samples : forall s,
  PSSAGA.grad_est s = Np.zeros n ->
  PSSAGA.grad_est (foldl kernel_pass s samples) = Np.zeros n.
Proof.
  induction samples as [|i samples IH]; intros s Hz; [done|].
  cbn [foldl]. apply IH. by apply pssaga_sample_buffer.
Qed.

(** X18.  The buffer [grad_est] of the PSSAGA kernel never carries an
    estimate from one sample to the next: every pass leaves it zeroed again,
    so it is zeroed when a call ends, and one call on the samples
    [s1 ++ s2] leaves the five arrays as a call on [s1] followed by a call
    on [s2] does. *)
Theorem pssaga_kernel_buffer (y x z mg ga : list Qc) (s1 s2 : list nat) :
  let call y x z mg ga samples :=
    PSSAGA.epoch_iteration_template f_prime g_prox h_prox h_blocks A b alpha beta gamma
      y x z mg ga samples step in
  PSSAGA.grad_est (call y x z mg ga s1) = Np.zeros (snd (shape A))
  /\ call y x z mg ga (s1 ++ s2)
     = call (PSSAGA.y (call y x z mg ga s1)) (PSSAGA.x (call y x z mg ga s1))
         (PSSAGA.z (call y x z mg ga s1)) (PSSAGA.memory_gradient (call y x z mg ga s1))
         (PSSAGA.gradient_average (call y x z mg ga s1)) s2.
Proof.
  cbv zeta. unfold PSSAGA.epoch_iteration_template. fold kernel_pass.
  assert (PSSAGA.grad_est
            (foldl kernel_pass
               {| PSSAGA.y := y; PSSAGA.x := x; PSSAGA.z := z;
                  PSSAGA.memory_gradient := mg; PSSAGA.gradient_average := ga;
                  PSSAGA.grad_est := Np.zeros (snd (shape A)) |} s1)
          = Np.zeros (snd (shape A))) as Hz
    by (by apply pssaga_samples_buffer).
  split; [exact Hz|]. rewrite foldl_app.
  destruct (foldl kernel_pass _ s1) as [y1 x1 z1 mg1 ga1 ge1].
  cbn [PSSAGA.grad_est PSSAGA.y PSSAGA.x PSSAGA.z PSSAGA.memory_gradient
       PSSAGA.gradient_average] in *.
  by rewrite Hz.
Qed.
End PssagaBuffer.

(** * The block-support index as a whole *)

Section SupportLayout.
Variables A_indices A_indptr g_blocks : list nat.
Variable n_blocks : nat.

Let n_rows := length A_indptr - 1.
Let cols (i : nat) : list nat := (fun j => A_indices !!! j) <$> row_range A_indptr i.

Local Abbreviation rows_before := (support_rows_before A_indices A_indptr g_blocks).
Local Abbreviation row_ids i := (first_occurrences (row_blocks A_indices A_indptr g_blocks i)).



Lemma elem_of_concat (v : nat) (ls : list (list nat)) :
  v ∈ concat ls <-> exists l, v ∈ l /\ l ∈ ls.
Proof.
  induction ls as [|l0 ls IH]; cbn [concat].
  - split; [by intros ?%elem_of_nil|]. by intros (l & _ & ?%elem_of_nil).
  - rewrite elem_of_app, IH. split.
    + intros [Hv|(l & Hv & Hl)]; [exists l0; split; [done|left]|].
      exists l. split; [done|by right].
    + intros (l & Hv & [->|Hl]%elem_of_cons); [by left|]. right. by exists l.
Qed.

Lemma elem_of_rows_before v n :
  v ∈ concat (rows_before n)
  <-> exists i, i < n /\ v ∈ row_blocks A_indices A_indptr g_blocks i.
Proof.
  unfold support_rows_before. rewrite elem_of_concat. split.
  - intros (l & Hv & (i & -> & Hi)%list_elem_of_fmap).
    apply elem_of_seq in Hi. exists i. split; [lia|].
    by apply first_occurrences_spec.
  - intros (i & Hi & Hv). exists (row_ids i). split.
    + by apply first_occurrences_spec.
    + apply list_elem_of_fmap. exists i. split; [done|]. apply elem_of_seq. lia.
Qed.


Hypothesis args_ok : support_args_ok A_indices A_indptr g_blocks n_blocks.

(** What [_support_matrix] returns, row by row. *)
Lemma support_matrix_inv :
  let r := _support_matrix A_indices A_indptr g_blocks n_blocks in
  r.1.2 = concat (rows_before n_rows)
  /\ (forall k, k <= n_rows -> r.2 !!! k = length (concat (rows_before k)))
  /\ length r.1.2 <= A_indptr !!! n_rows
  /\ forall i, i < n_rows -> support_of_row r.1.2 r.2 i = row_ids i.
Proof.
  cbv zeta. unfold _support_matrix, support_loop, Np.range.
  rewrite Nat.sub_0_r.
  destruct (loop_inv A_indices A_indptr g_blocks n_blocks args_ok (length A_indptr - 1))
    as (Htake & Hcount & HlenBS & Hlenptr & Hptr & _ & _ & Hbound); [done|].
  set (s := foldl _ _ _) in *. cbn [fst snd]. fold n_rows in Htake, Hcount, Hptr, Hbound.
  split; [done|]. split; [done|]. split.
  { rewrite Htake, <- Hcount. done. }
  intros i Hi. unfold support_of_row. rewrite Htake.
  destruct (rows_before_split A_indices A_indptr g_blocks i n_rows Hi) as [rest ->].
  rewrite Nat.add_1_r, !Hptr by lia.
  rewrite concat_rows_before_S, length_app.
  rewrite drop_app_length.
  replace (_ + _ - _) with (length (row_ids i)) by lia.
  apply take_app_length.
Qed.

End SupportLayout.


Section SupportDefaults.
Variables A_indices A_indptr : list nat.

Let cols (i : nat) : list nat := (fun j => A_indices !!! j) <$> row_range A_indptr i.




End SupportDefaults.


(** * The matrices on which the factory of PSSAGA fails *)

Section FactoryErrors.
Local Open Scope Qc_scope.
Variable a : FminPSSAGA.args.

Let blocks := pssaga_blocks_in_use a.
Let A := FminPSSAGA.A a.
Let n_rows := (length (indptr A) - 1)%nat.

(** With its arguments accepted, a call ends with the exception that the
    factory raises, if it raises one. *)
Lemma pssaga_outcome_factory (h : heap) e :
  pssaga_arguments_accepted a -> e ≠ UnboundLocalError ->
  outcome (FminPSSAGA.fmin_PSSAGA a h) = inl e
  <-> PSSAGA.factory_raises blocks A = Some e.
Proof.
  intros Hacc He. destruct (pssaga_checks_decided a) as [Hpass|Hfail].
  - pose proof Hpass as [_ Hf]. fold blocks A in Hf. rewrite Hf.
    destruct (decide (FminPSSAGA.max_iter a = 0%nat)) as [Hmax|Hmax].
    + destruct (pssaga_call_no_epoch a h Hpass Hmax) as (h0 & _ & ->). cbn [outcome].
      split; [intros [= <-]; done|done].
    + destruct (pssaga_prox_available a Hpass) as (prox_g & prox_h & Hp).
      destruct (pssaga_call_returns a h prox_g prox_h Hpass Hp ltac:(lia))
        as (y & x & z & mg & ga & h0 & n & _ & _ & _ & _ & _ & _ & E & _ & _).
      cbv zeta in E. rewrite E. cbn [outcome]. split; done.
  - destruct (pssaga_call_fails a h Hfail) as (e' & hf & -> & _ & Hcases).
    cbn [outcome]. destruct Hacc as (Hg & Hh & Hb & Hs).
    destruct Hcases as [[_ [?|?]]|[(_ & _ & _ & ?)|[(_ & _ & _ & _ & ?)|[_ Hf]]]];
      try done.
    fold blocks A in Hf. rewrite Hf. split; intros [= <-]; done.
Qed.

Lemma max_below (l : list nat) m :
  (foldr Nat.max 0 l < m)%nat <-> (0 < m)%nat /\ Forall (fun v => (v < m)%nat) l.
Proof.
  induction l as [|v l IH]; cbn [foldr].
  - split; [intros ?; split; [done|constructor]|by intros [? _]].
  - rewrite list.Forall_cons, Nat.max_lub_lt_iff, IH. tauto.
Qed.

Hypothesis accepted : pssaga_arguments_accepted a.
Hypothesis contiguous : blocks_contiguous blocks = true.
Hypothesis args_ok :
  support_args_ok (indices A) (indptr A) blocks (PSSAGA.n_blocks_h blocks).

Lemma block_support_ids v :
  v ∈ PSSAGA.BS_h_indices blocks A
  <-> exists i, (i < n_rows)%nat /\ v ∈ row_blocks (indices A) (indptr A) blocks i.
Proof.
  unfold PSSAGA.BS_h_indices, PSSAGA.BS_h.
  destruct (support_matrix_inv (indices A) (indptr A) blocks (PSSAGA.n_blocks_h blocks)
              args_ok) as (Hflat & _).
  cbv zeta in Hflat. rewrite Hflat. apply elem_of_rows_before.
Qed.

Lemma block_support_empty :
  PSSAGA.BS_h_indices blocks A = []
  <-> forall i, (i < n_rows)%nat -> row_range (indptr A) i = [].
Proof.
  split.
  - intros Hnil i Hi.
    destruct (row_range (indptr A) i) as [|j js] eqn:Hrow; [done|]. exfalso.
    assert (blocks !!! (indices A !!! j) ∈ PSSAGA.BS_h_indices blocks A) as Hin.
    { apply block_support_ids. exists i. split; [done|].
      unfold row_blocks. rewrite Hrow. left. }
    rewrite Hnil in Hin. by apply elem_of_nil in Hin.
  - intros Hrows. destruct (PSSAGA.BS_h_indices blocks A) as [|v l] eqn:E; [done|].
    exfalso. assert (v ∈ PSSAGA.BS_h_indices blocks A) as Hin by (rewrite E; left).
    apply block_support_ids in Hin as (i & Hi & Hv).
    unfold row_blocks in Hv. rewrite (Hrows i Hi) in Hv. by apply elem_of_nil in Hv.
Qed.

(** X21.  The matrices on which the factory of [fmin_PSSAGA] fails, the
    arguments being accepted and the block ids, one per feature, passing the
    assertion, for a well-formed [A] whose stored columns have their blocks
    among the [n_blocks]: the call raises the [ValueError] of SciPy exactly
    when no row of [A] has a stored entry, and [IndexError] exactly when
    some row has one and the last block, [n_blocks - 1], holds no stored
    entry of any row.  No kernel has run in either case. *)
Theorem fmin_PSSAGA_factory_errors (h : heap) :
  pssaga_blocks_per_feature a ->
  (outcome (FminPSSAGA.fmin_PSSAGA a h) = inl SciPyValueError
   <-> forall i, (i < n_rows)%nat -> row_range (indptr A) i = [])
  /\ (outcome (FminPSSAGA.fmin_PSSAGA a h) = inl IndexError
      <-> (exists i, (i < n_rows)%nat /\ row_range (indptr A) i ≠ [])
          /\ forall i, (i < n_rows)%nat ->
               (PSSAGA.n_blocks_h blocks - 1)%nat
               ∉ row_blocks (indices A) (indptr A) blocks i)
  /\ (outcome (FminPSSAGA.fmin_PSSAGA a h) = inl SciPyValueError
      \/ outcome (FminPSSAGA.fmin_PSSAGA a h) = inl IndexError ->
      dispatched (FminPSSAGA.fmin_PSSAGA a h) = []).
Proof.
  intros Hlen. change (length blocks = snd (shape A)) in Hlen.
  rewrite !pssaga_outcome_factory by done. rewrite !factory_raises_cases by done.
  assert (Forall (fun v => (v < PSSAGA.n_blocks_h blocks)%nat)
            (PSSAGA.BS_h_indices blocks A)) as Hids.
  { apply list.Forall_forall. intros v (i & Hi & Hv)%block_support_ids.
    destruct args_ok as (_ & _ & Hb). rewrite list.Forall_forall in Hb.
    specialize (Hb i ltac:(apply elem_of_seq; fold n_rows; lia)).
    rewrite list.Forall_forall in Hb. by apply Hb. }
  split; [|split].
  - rewrite <- block_support_empty. split.
    + intros [[? _]|[(_ & _ & ?)|(? & _)]]; done.
    + intros Hnil. right. left. done.
  - split.
    + intros [[? _]|[(? & _)|(_ & _ & Hne & Hcol)]]; try done. split.
      * destruct (PSSAGA.BS_h_indices blocks A) as [|v l] eqn:E; [done|].
        assert (v ∈ PSSAGA.BS_h_indices blocks A) as Hin by (rewrite E; left).
        apply block_support_ids in Hin as (i & Hi & Hv). exists i. split; [done|].
        intros Hrow. unfold row_blocks in Hv. rewrite Hrow in Hv.
        by apply elem_of_nil in Hv.
      * intros i Hi Hin.
        assert ((PSSAGA.n_blocks_h blocks - 1)%nat ∈ PSSAGA.BS_h_indices blocks A) as Hin'
          by (apply block_support_ids; by exists i).
        unfold PSSAGA.BS_h_columns in Hcol. apply Nat.lt_succ_l in Hcol as Hcol'.
        assert (foldr Nat.max 0%nat (PSSAGA.BS_h_indices blocks A)
                < PSSAGA.n_blocks_h blocks - 1)%nat as Hmax by lia.
        apply max_below in Hmax as [_ Hall]. rewrite list.Forall_forall in Hall.
        specialize (Hall _ Hin'). lia.
    + intros [(i & Hi & Hrow) Hlast]. right. right. split; [done|]. split; [done|].
      assert (PSSAGA.BS_h_indices blocks A ≠ []) as Hne.
      { intros Hnil. apply Hrow. by apply block_support_empty. }
      split; [done|]. unfold PSSAGA.BS_h_columns.
      assert (Forall (fun v => (v < PSSAGA.n_blocks_h blocks - 1)%nat)
                (PSSAGA.BS_h_indices blocks A)) as Hall.
      { apply list.Forall_forall. intros v Hv.
        rewrite list.Forall_forall in Hids. specialize (Hids v Hv).
        destruct (decide (v = PSSAGA.n_blocks_h blocks - 1)%nat) as [->|]; [|lia].
        apply block_support_ids in Hv as (k & Hk & Hv). by destruct (Hlast k Hk). }
      assert (0 < PSSAGA.n_blocks_h blocks - 1)%nat as Hpos.
      { destruct (PSSAGA.BS_h_indices blocks A) as [|v l]; [done|].
        apply list.Forall_cons in Hall as [? _]. lia. }
      assert (foldr Nat.max 0%nat (PSSAGA.BS_h_indices blocks A)
              < PSSAGA.n_blocks_h blocks - 1)%nat by (by apply max_below).
      lia.
  - intros Hf.
    assert (exists e, PSSAGA.factory_raises blocks A = Some e) as [e He].
    { destruct Hf as [Hf|Hf]; apply factory_raises_cases in Hf; done || by eexists. }
    destruct (pssaga_call_fails a h) as (e' & hf & E & _ & _).
    + intros [_ Hnone]. fold blocks A in Hnone. congruence.
    + by rewrite E.
Qed.
End FactoryErrors.

Section FactoryErrorsWitness.
Import Examples.

Lemma fmin_PSSAGA_factory_errors_witness :
  pssaga_arguments_accepted pssaga_2x2_blocks
  /\ pssaga_blocks_per_feature pssaga_2x2_blocks
  /\ blocks_contiguous (pssaga_blocks_in_use pssaga_2x2_blocks) = true
  /\ support_args_ok (indices (FminPSSAGA.A pssaga_2x2_blocks))
       (indptr (FminPSSAGA.A pssaga_2x2_blocks)) (pssaga_blocks_in_use pssaga_2x2_blocks)
       (PSSAGA.n_blocks_h (pssaga_blocks_in_use pssaga_2x2_blocks))
  /\ (outcome (FminPSSAGA.fmin_PSSAGA pssaga_2x2_blocks (heap_with (Np.zeros 2)))
      = inl SciPyValueError
      <-> forall i, i < length (indptr (FminPSSAGA.A pssaga_2x2_blocks)) - 1 ->
            row_range (indptr (FminPSSAGA.A pssaga_2x2_blocks)) i = []).
Proof.
  assert (pssaga_arguments_accepted pssaga_2x2_blocks) as Hacc.
  { split; [discriminate|]. split; [discriminate|]. split; [reflexivity|].
    vm_compute. discriminate. }
  assert (blocks_contiguous (pssaga_blocks_in_use pssaga_2x2_blocks) = true) as Hbl
    by (vm_compute; reflexivity).
  assert (support_args_ok (indices (FminPSSAGA.A pssaga_2x2_blocks))
            (indptr (FminPSSAGA.A pssaga_2x2_blocks))
            (pssaga_blocks_in_use pssaga_2x2_blocks)
            (PSSAGA.n_blocks_h (pssaga_blocks_in_use pssaga_2x2_blocks))) as Hok
    by (vm_compute; repeat constructor).
  assert (pssaga_blocks_per_feature pssaga_2x2_blocks) as Hlen by reflexivity.
  split; [exact Hacc|]. split; [exact Hlen|].
  split; [exact Hbl|]. split; [exact Hok|].
  exact (proj1 (fmin_PSSAGA_factory_errors pssaga_2x2_blocks Hacc Hbl Hok
                  (heap_with (Np.zeros 2)) Hlen)).
Defined.
End FactoryErrorsWitness.

(** * A tolerance that no certificate can meet *)

Section NonPositiveTol.
Local Open Scope Qc_scope.

Lemma below_nonpositive_tol c tol : tol <= 0 -> below_tol c tol = false.
Proof.
  intros Htol. unfold below_tol. rewrite bool_decide_eq_false_2; [done|].
  by apply Qcle_not_lt.
Qed.

(** X22.  A certificate is a norm, so with [tol <= 0] the test
    [certificate < tol] never holds: a call of either solver whose checks
    pass (on a problem with one block id per feature; for [fmin_SAGA], at
    least one sample; for [fmin_PSSAGA], an [x0] that has an entry for
    every feature) runs every one of its [max_iter] epochs and returns with
    [success] unset and [nit = max_iter - 1], the kernel having been called
    [max_iter + 1] times, warm-up included. *)
Theorem nonpositive_tol_runs_all_epochs :
  (forall a (h : heap),
      saga_inputs_ok a ->
      saga_checks_pass a h -> (0 < FminSAGA.max_iter a)%nat -> FminSAGA.tol a <= 0 ->
      exists r,
        outcome (FminSAGA.fmin_SAGA a h) = inr r
        /\ FminSAGA.res_success r = false
        /\ S (FminSAGA.res_nit r) = FminSAGA.max_iter a
        /\ length (dispatched (FminSAGA.fmin_SAGA a h)) = S (FminSAGA.max_iter a))
  /\ (forall a (h : heap),
        pssaga_inputs_ok a h ->
        pssaga_checks_pass a -> (0 < FminPSSAGA.max_iter a)%nat ->
        FminPSSAGA.tol a <= 0 ->
        exists r,
          outcome (FminPSSAGA.fmin_PSSAGA a h) = inr r
          /\ FminPSSAGA.res_success r = false
          /\ S (FminPSSAGA.res_nit r) = FminPSSAGA.max_iter a
          /\ length (dispatched (FminPSSAGA.fmin_PSSAGA a h))
             = S (FminPSSAGA.max_iter a)).
Proof.
  split.
  - intros a h _ Hpass Hmax Htol.
    destruct (saga_prox_available a h Hpass) as [prox_g Hp].
    destruct (saga_call_returns a h prox_g Hpass Hp Hmax)
      as (x & mg & ga & h0 & n & _ & _ & _ & _ & Hn & E & Hlast & _).
    cbv zeta in E, Hlast. rewrite E. eexists. split; [reflexivity|].
    cbn [outcome dispatched FminSAGA.res_success FminSAGA.res_nit length].
    rewrite length_fmap, length_seq.
    pose proof (Hlast (below_nonpositive_tol _ _ Htol)) as Hend.
    split; [by apply below_nonpositive_tol|]. split; [done|]. by rewrite Hend.
  - intros a h _ Hpass Hmax Htol.
    destruct (pssaga_prox_available a Hpass) as (prox_g & prox_h & Hp).
    destruct (pssaga_call_returns a h prox_g prox_h Hpass Hp Hmax)
      as (y & x & z & mg & ga & h0 & n & _ & _ & _ & _ & _ & Hn & E & Hlast & _).
    cbv zeta in E, Hlast. rewrite E. eexists. split; [reflexivity|].
    cbn [outcome dispatched FminPSSAGA.res_success FminPSSAGA.res_nit length].
    rewrite length_fmap, length_seq.
    pose proof (Hlast (below_nonpositive_tol _ _ Htol)) as Hend.
    split; [by apply below_nonpositive_tol|]. split; [done|]. by rewrite Hend.
Qed.
End NonPositiveTol.

Section NonPositiveTolWitness.
Import Examples.

Lemma nonpositive_tol_runs_all_epochs_witness :
  (saga_inputs_ok saga_2x2
   /\ saga_checks_pass saga_2x2 (heap_with (Np.zeros 2))
   /\ 0 < FminSAGA.max_iter saga_2x2
   /\ (FminSAGA.tol saga_2x2 <= 0)%Qc
   /\ exists r,
        outcome (FminSAGA.fmin_SAGA saga_2x2 (heap_with (Np.zeros 2))) = inr r
        /\ FminSAGA.res_success r = false)
  /\ (pssaga_inputs_ok pssaga_2x2_blocks (heap_with (Np.zeros 2))
      /\ pssaga_checks_pass pssaga_2x2_blocks
      /\ 0 < FminPSSAGA.max_iter pssaga_2x2_blocks
      /\ (FminPSSAGA.tol pssaga_2x2_blocks <= 0)%Qc
      /\ exists r,
           outcome (FminPSSAGA.fmin_PSSAGA pssaga_2x2_blocks (heap_with (Np.zeros 2)))
           = inr r
           /\ FminPSSAGA.res_success r = false).
Proof.
  assert (0 < FminSAGA.max_iter saga_2x2) as Hmax by (cbn; lia).
  assert (FminSAGA.tol saga_2x2 <= 0)%Qc as Htol by (vm_compute; discriminate).
  assert (0 < FminPSSAGA.max_iter pssaga_2x2_blocks) as Hmax' by (cbn; lia).
  assert (FminPSSAGA.tol pssaga_2x2_blocks <= 0)%Qc as Htol' by (vm_compute; discriminate).
  split.
  - split; [exact saga_2x2_inputs_ok|].
    split; [exact saga_2x2_checks_pass|]. split; [exact Hmax|]. split; [exact Htol|].
    destruct (proj1 nonpositive_tol_runs_all_epochs saga_2x2 (heap_with (Np.zeros 2))
                saga_2x2_inputs_ok saga_2x2_checks_pass Hmax Htol) as (r & Hr & Hs & _).
    exists r. split; [exact Hr|exact Hs].
  - split; [exact pssaga_2x2_inputs_ok|].
    split; [exact pssaga_2x2_checks_pass|]. split; [exact Hmax'|]. split; [exact Htol'|].
    destruct (proj2 nonpositive_tol_runs_all_epochs pssaga_2x2_blocks
                (heap_with (Np.zeros 2)) pssaga_2x2_inputs_ok pssaga_2x2_checks_pass
                Hmax' Htol') as (r & Hr & Hs & _).
    exists r. split; [exact Hr|exact Hs].
Defined.
End NonPositiveTolWitness.

(** * The weights of the blocks in PSSAGA *)

Section BlockWeights.
Local Open Scope Qc_scope.
Variable h_blocks : list nat.
Variable A : csr_matrix.

Let n_rows := (length (indptr A) - 1)%nat.
Let n_blocks := PSSAGA.n_blocks_h h_blocks.




Hypothesis args_ok : support_args_ok (indices A) (indptr A) h_blocks n_blocks.

End BlockWeights.

Section BlockWeightsWitness.
Import Examples.

End BlockWeightsWitness.

(** * The features that a pass of the PSSAGA kernel can write *)

Section PssagaFrame.
Local Open Scope Qc_scope.
Variable f_prime : Qc -> Qc -> Qc.
Variable g_prox : prox2.
Variable h_prox : prox.
Variable h_blocks : list nat.
Variable A : csr_matrix.
Variable b : list Qc.
Variables alpha beta gamma step : Qc.

Let BS_ptr := PSSAGA.BS_h_indptr h_blocks A.
Let BS_ind := PSSAGA.BS_h_indices h_blocks A.
Let RB := PSSAGA.RB_h_indptr h_blocks A.

(** Feature [j] lies in the range of a block listed for sample [i]. *)
Let touched (i j : nat) : Prop :=
  exists h_j, h_j ∈ Np.range (BS_ptr !!! i) (BS_ptr !!! (i + 1)%nat)
    /\ (RB !!! (BS_ind !!! h_j) <= j < RB !!! (BS_ind !!! h_j + 1))%nat.

Lemma foldl_elsewhere (f : list Qc -> nat -> list Qc) (j : nat) ks :
  (forall l k, k ≠ j -> f l k !!! j = l !!! j) ->
  forall l, j ∉ ks -> foldl f l ks !!! j = l !!! j.
Proof.
  intros Hf. induction ks as [|k ks IH]; intros l Hj; [done|].
  apply not_elem_of_cons in Hj as [Hne Hj].
  cbn [foldl]. rewrite IH by done. by apply Hf.
Qed.

Lemma range_elem lo hi j : j ∈ Np.range lo hi <-> (lo <= j < hi)%nat.
Proof. unfold Np.range. rewrite elem_of_seq. lia. Qed.

(** The two operators write inside the range they are given. *)
Hypothesis g_prox_local : forall st u v lo hi w j,
  ~ (lo <= j < hi)%nat ->
  (g_prox st u v lo hi w).1 !!! j = u !!! j /\ (g_prox st u v lo hi w).2 !!! j = v !!! j.
Hypothesis h_prox_local : forall st u lo hi j,
  ~ (lo <= j < hi)%nat -> h_prox st u lo hi !!! j = u !!! j.

Lemma prox_g_block_frame s h_j j :
  ~ (RB !!! (BS_ind !!! h_j) <= j < RB !!! (BS_ind !!! h_j + 1))%nat ->
  let s' := PSSAGA.prox_g_block g_prox h_blocks A beta step s h_j in
  PSSAGA.y s' !!! j = PSSAGA.y s !!! j /\ PSSAGA.x s' !!! j = PSSAGA.x s !!! j
  /\ PSSAGA.z s' = PSSAGA.z s.
Proof.
  intros Hout. cbv zeta. unfold PSSAGA.prox_g_block.
  fold BS_ind RB.
  pose proof (g_prox_local (step * beta) (PSSAGA.y s) (PSSAGA.x s)
                (RB !!! (BS_ind !!! h_j)) (RB !!! (BS_ind !!! h_j + 1)%nat)
                (PSSAGA.d_weights h_blocks A) j Hout) as [Hy Hx].
  destruct (g_prox _ _ _ _ _ _) as [y' x']. cbn [fst snd] in Hy, Hx.
  cbn [PSSAGA.y PSSAGA.x PSSAGA.z]. done.
Qed.

Lemma prox_h_block_frame s h_j j :
  ~ (RB !!! (BS_ind !!! h_j) <= j < RB !!! (BS_ind !!! h_j + 1))%nat ->
  let s' := PSSAGA.prox_h_block h_prox h_blocks A alpha gamma step s h_j in
  PSSAGA.y s' !!! j = PSSAGA.y s !!! j /\ PSSAGA.x s' = PSSAGA.x s
  /\ PSSAGA.z s' !!! j = PSSAGA.z s !!! j.
Proof.
  intros Hout. cbv zeta. unfold PSSAGA.prox_h_block. fold BS_ind RB. cbv zeta.
  cbn [PSSAGA.y PSSAGA.x PSSAGA.z].
  assert (j ∉ Np.range (RB !!! (BS_ind !!! h_j)) (RB !!! (BS_ind !!! h_j + 1)%nat)) as Hj
    by (by rewrite range_elem).
  split; [|split; [done|]].
  - apply foldl_elsewhere; [|done]. intros l k Hk.
    by rewrite list_lookup_total_insert_ne.
  - rewrite h_prox_local by done. apply foldl_elsewhere; [|done]. intros l k Hk.
    unfold PSSAGA.reflect. cbv zeta. by rewrite list_lookup_total_insert_ne.
Qed.

Lemma prox_g_blocks_frame j ks : forall s,
  (forall h_j, h_j ∈ ks ->
     ~ (RB !!! (BS_ind !!! h_j) <= j < RB !!! (BS_ind !!! h_j + 1))%nat) ->
  let s' := foldl (PSSAGA.prox_g_block g_prox h_blocks A beta step) s ks in
  PSSAGA.y s' !!! j = PSSAGA.y s !!! j /\ PSSAGA.x s' !!! j = PSSAGA.x s !!! j
  /\ PSSAGA.z s' = PSSAGA.z s.
Proof.
  induction ks as [|k ks IH]; intros s Hout; [done|].
  cbn [foldl]. cbv zeta.
  destruct (IH (PSSAGA.prox_g_block g_prox h_blocks A beta step s k)) as (Hy & Hx & Hz).
  { intros h_j Hh. apply Hout. by right. }
  cbv zeta in Hy, Hx, Hz. rewrite Hy, Hx, Hz.
  apply prox_g_block_frame, Hout. left.
Qed.

Lemma prox_h_blocks_frame j ks : forall s,
  (forall h_j, h_j ∈ ks ->
     ~ (RB !!! (BS_ind !!! h_j) <= j < RB !!! (BS_ind !!! h_j + 1))%nat) ->
  let s' := foldl (PSSAGA.prox_h_block h_prox h_blocks A alpha gamma step) s ks in
  PSSAGA.y s' !!! j = PSSAGA.y s !!! j /\ PSSAGA.x s' = PSSAGA.x s
  /\ PSSAGA.z s' !!! j = PSSAGA.z s !!! j.
Proof.
  induction ks as [|k ks IH]; intros s Hout; [done|].
  cbn [foldl]. cbv zeta.
  destruct (IH (PSSAGA.prox_h_block h_prox h_blocks A alpha gamma step s k)) as (Hy & Hx & Hz).
  { intros h_j Hh. apply Hout. by right. }
  cbv zeta in Hy, Hx, Hz. rewrite Hy, Hx, Hz.
  apply prox_h_block_frame, Hout. left.
Qed.

(** X24.  One pass of the PSSAGA kernel on sample [i], for a block
    assignment with one id per feature and proximal operators that write
    inside the range they are given: the three vectors [y], [x] and [z]
    keep their entry at every feature outside the ranges of the blocks
    listed for row [i] in the block support, and [memory_gradient] keeps
    its entry at every sample but [i]. *)
Theorem pssaga_sample_frame (s : PSSAGA.state) (i : nat) :
  length h_blocks = snd (shape A) ->
  let s' := PSSAGA.sample_update f_prime g_prox h_prox h_blocks A b alpha beta gamma
              step s i in
  (forall j, ~ touched i j ->
     PSSAGA.y s' !!! j = PSSAGA.y s !!! j
     /\ PSSAGA.x s' !!! j = PSSAGA.x s !!! j
     /\ PSSAGA.z s' !!! j = PSSAGA.z s !!! j)
  /\ (forall i', i' ≠ i ->
        PSSAGA.memory_gradient s' !!! i' = PSSAGA.memory_gradient s !!! i').
Proof.
  intros _. cbv zeta. split.
  - intros j Hj.
    assert (forall h_j, h_j ∈ Np.range (BS_ptr !!! i) (BS_ptr !!! (i + 1)%nat) ->
              ~ (RB !!! (BS_ind !!! h_j) <= j < RB !!! (BS_ind !!! h_j + 1))%nat) as Hout.
    { intros h_j Hh Hin. apply Hj. by exists h_j. }
    unfold PSSAGA.sample_update. fold BS_ptr. cbv zeta.
    cbn [PSSAGA.y PSSAGA.x PSSAGA.z].
    destruct (prox_g_blocks_frame j _ s Hout) as (Hy1 & Hx1 & Hz1). cbv zeta in Hy1, Hx1, Hz1.
    match goal with |- context [foldl (PSSAGA.prox_h_block _ _ _ _ _ _) ?s2 _] =>
      destruct (prox_h_blocks_frame j _ s2 Hout) as (Hy2 & Hx2 & Hz2) end.
    cbv zeta in Hy2, Hx2, Hz2. rewrite Hy2, Hx2, Hz2.
    cbn [PSSAGA.y PSSAGA.x PSSAGA.z]. rewrite Hz1. done.
  - intros i' Hi.
    destruct (pssaga_sample_memory f_prime g_prox h_prox h_blocks A b alpha beta gamma
                step s i) as (g & Hm & _).
    cbv zeta in Hm. rewrite Hm. by rewrite list_lookup_total_insert_ne.
Qed.
End PssagaFrame.

Section PssagaFrameWitness.
Import Examples.

Lemma default_g_prox_local st (u v : list Qc) lo hi (w : list Qc) j :
  ~ lo <= j < hi ->
  (FminPSSAGA.default_g_prox st u v lo hi w).1 !!! j = u !!! j
  /\ (FminPSSAGA.default_g_prox st u v lo hi w).2 !!! j = v !!! j.
Proof.
  intros Hj. unfold FminPSSAGA.default_g_prox. cbn [fst snd]. split; [done|].
  apply foldl_elsewhere; [|by rewrite range_elem].
  intros l k Hk. by rewrite list_lookup_total_insert_ne.
Qed.

(** On the identity matrix with one block per feature, the pass on sample
    [0] leaves feature [1] of the three vectors and entry [1] of the memory
    as they are. *)
Lemma pssaga_sample_frame_witness :
  (forall st u v lo hi w j, ~ lo <= j < hi ->
     (FminPSSAGA.default_g_prox st u v lo hi w).1 !!! j = u !!! j
     /\ (FminPSSAGA.default_g_prox st u v lo hi w).2 !!! j = v !!! j)
  /\ (forall st u lo hi j, ~ lo <= j < hi ->
        FminPSSAGA.default_h_prox st u lo hi !!! j = u !!! j)
  /\ length [0; 1] = snd (shape I2)
  /\ let s := {| PSSAGA.y := [1; half]%Qc; PSSAGA.x := [half; 1]%Qc; PSSAGA.z := [0; -(1)]%Qc;
                 PSSAGA.memory_gradient := [-(1); -(1)]%Qc;
                 PSSAGA.gradient_average := [- half; - half]%Qc;
                 PSSAGA.grad_est := Np.zeros 2 |} in
     let s' := PSSAGA.sample_update deriv_squared FminPSSAGA.default_g_prox
                 FminPSSAGA.default_h_prox [0; 1] I2 [1; 1]%Qc 0%Qc 0%Qc 0%Qc half s 0 in
     (PSSAGA.y s' !!! 1 = half /\ PSSAGA.x s' !!! 1 = 1%Qc /\ PSSAGA.z s' !!! 1 = (-(1))%Qc)
     /\ PSSAGA.memory_gradient s' !!! 1 = (-(1))%Qc.
Proof.
  assert (forall st u lo hi j, ~ lo <= j < hi ->
            FminPSSAGA.default_h_prox st u lo hi !!! j = u !!! j) as Hh
    by (intros; reflexivity).
  assert (length [0; 1] = snd (shape I2)) as Hlen by reflexivity.
  split; [exact default_g_prox_local|]. split; [exact Hh|]. split; [exact Hlen|].
  intros s s'.
  pose proof (pssaga_sample_frame deriv_squared FminPSSAGA.default_g_prox
                FminPSSAGA.default_h_prox [0; 1] I2 [1; 1]%Qc 0%Qc 0%Qc 0%Qc half
                default_g_prox_local Hh s 0 Hlen) as Hframe.
  cbv zeta in Hframe. destruct Hframe as [Hvec Hmem]. split.
  - apply (Hvec 1). intros (h_j & Hin & Hr).
    vm_compute in Hin. apply list_elem_of_singleton in Hin. subst h_j.
    vm_compute in Hr. lia.
  - apply (Hmem 1). lia.
Defined.
End PssagaFrameWitness.

(** * The step size computed for the two losses *)

Section StepSizeProperties.
Local Open Scope Qc_scope.

Lemma Qclt_not_eq_refl (c : Qc) : ~ c < c.
Proof. intros H. qc_lra. Qed.

Lemma fdiv_defined a c : c ≠ 0 -> fdiv a c = Some (a / c).
Proof. intros Hc. unfold fdiv. by rewrite decide_False. Qed.

Lemma step_times_constant L factor :
  L ≠ 0 -> factor ≠ 0 -> 1 / L / factor * (factor * L) = 1.
Proof. intros HL Hf. field. done. Qed.

Lemma positive_product a c : 0 < c -> a * c = 1 -> 0 < a.
Proof.
  intros Hc E. destruct (decide (0 < a)) as [|Hn]; [done|]. exfalso.
  assert (a * c <= 0 * c) as Hle by (apply Qcmult_le_compat_r; qc_lra).
  rewrite E in Hle. qc_lra.
Qed.

(** X25.  [compute_step_size] knows the losses ['logistic'] and
    ['squared'] and raises [NotImplementedError] for any other name.  For a
    value of [norm_rows(A)] that is not negative, a positive [alpha] and a
    positive factor, the step size it returns is [1 / (factor * L)] with
    [L = 0.25 * norm_rows(A) + alpha] for the logistic loss and
    [L = norm_rows(A) + alpha] for the squared loss: it is positive, so both
    solvers accept it, and the logistic step is at least the squared step
    and at most four times it. *)
Theorem compute_step_size_spec (loss : string) (norm_rows_A alpha factor : Qc) :
  (compute_step_size loss norm_rows_A alpha factor = inl NotImplementedError
   <-> loss ≠ "logistic"%string /\ loss ≠ "squared"%string)
  /\ (0 <= norm_rows_A -> 0 < alpha -> 0 < factor ->
      exists s_log s_sq,
        compute_step_size "logistic" norm_rows_A alpha factor = inr (Some s_log)
        /\ compute_step_size "squared" norm_rows_A alpha factor = inr (Some s_sq)
        /\ s_log * (factor * (Q2Qc (1 # 4) * norm_rows_A + alpha)) = 1
        /\ s_sq * (factor * (norm_rows_A + alpha)) = 1
        /\ 0 < s_sq /\ s_sq <= s_log /\ s_log <= Q2Qc 4 * s_sq).
Proof.
  split.
  - unfold compute_step_size. repeat case_decide; split; try done.
    + intros [? _]. done.
    + intros [_ ?]. done.
  - intros Hn Ha Hf.
    set (L1 := Q2Qc (1 # 4) * norm_rows_A + alpha).
    set (L2 := norm_rows_A + alpha).
    assert (0 < L1) as HL1 by (subst L1; qc_lra).
    assert (0 < L2) as HL2 by (subst L2; qc_lra).
    assert (L1 <= L2) as H12 by (subst L1 L2; qc_lra).
    assert (L2 <= Q2Qc 4 * L1) as H21 by (subst L1 L2; qc_lra).
    assert (L1 ≠ 0) as HL1' by (intros E; rewrite E in HL1; revert HL1; apply Qclt_not_eq_refl).
    assert (L2 ≠ 0) as HL2' by (intros E; rewrite E in HL2; revert HL2; apply Qclt_not_eq_refl).
    assert (factor ≠ 0) as Hf' by (intros E; rewrite E in Hf; revert Hf; apply Qclt_not_eq_refl).
    assert (0 < factor * L1) as P1.
    { replace 0 with (0 * L1) by ring. by apply Qcmult_lt_compat_r. }
    assert (0 < factor * L2) as P2.
    { replace 0 with (0 * L2) by ring. by apply Qcmult_lt_compat_r. }
    exists (1 / L1 / factor), (1 / L2 / factor).
    pose proof (step_times_constant L1 factor HL1' Hf') as E1.
    pose proof (step_times_constant L2 factor HL2' Hf') as E2.
    assert (0 < 1 / L1 / factor) as S1 by (by apply (positive_product _ (factor * L1))).
    assert (0 < 1 / L2 / factor) as S2 by (by apply (positive_product _ (factor * L2))).
    split; [|split; [|split; [exact E1|split; [exact E2|split; [exact S2|split]]]]].
    + unfold compute_step_size. rewrite decide_True by done. cbv zeta. fold L1.
      rewrite (fdiv_defined 1 L1) by done. cbn [mbind option_bind].
      by rewrite fdiv_defined.
    + unfold compute_step_size. rewrite decide_False by done.
      rewrite decide_True by done. cbv zeta. fold L2.
      rewrite (fdiv_defined 1 L2) by done. cbn [mbind option_bind].
      by rewrite fdiv_defined.
    + apply (Qcmult_lt_0_le_reg_r _ _ (factor * L1)); [done|]. rewrite E1.
      assert (1 / L2 / factor * (factor * L1) <= 1 / L2 / factor * (factor * L2)) as Hle.
      { rewrite !(Qcmult_comm (1 / L2 / factor)). apply Qcmult_le_compat_r; [|qc_lra].
        rewrite !(Qcmult_comm factor). apply Qcmult_le_compat_r; [done|qc_lra]. }
      by rewrite E2 in Hle.
    + apply (Qcmult_lt_0_le_reg_r _ _ (factor * L2)); [done|].
      replace (Q2Qc 4 * (1 / L2 / factor) * (factor * L2))
        with (Q2Qc 4 * (1 / L2 / factor * (factor * L2))) by ring.
      rewrite E2.
      assert (1 / L1 / factor * (factor * L2)
              <= 1 / L1 / factor * (factor * (Q2Qc 4 * L1))) as Hle.
      { rewrite !(Qcmult_comm (1 / L1 / factor)). apply Qcmult_le_compat_r; [|qc_lra].
        rewrite !(Qcmult_comm factor). apply Qcmult_le_compat_r; [done|qc_lra]. }
      replace (1 / L1 / factor * (factor * (Q2Qc 4 * L1)))
        with (Q2Qc 4 * (1 / L1 / factor * (factor * L1))) in Hle by ring.
      rewrite E1 in Hle. etransitivity; [exact Hle|]. apply Qcle_refl.
Qed.
End StepSizeProperties.

Lemma compute_step_size_spec_witness :
  (0 <= 1)%Qc /\ (0 < 1)%Qc /\ (0 < Q2Qc 4)%Qc
  /\ exists s_log s_sq,
       compute_step_size "logistic" 1%Qc 1%Qc (Q2Qc 4) = inr (Some s_log)
       /\ compute_step_size "squared" 1%Qc 1%Qc (Q2Qc 4) = inr (Some s_sq)
       /\ (0 < s_sq)%Qc /\ (s_sq <= s_log)%Qc.
Proof.
  assert (0 <= 1)%Qc as Hn by (vm_compute; discriminate).
  assert (0 < 1)%Qc as Ha by (vm_compute; reflexivity).
  assert (0 < Q2Qc 4)%Qc as Hf by (vm_compute; reflexivity).
  split; [exact Hn|]. split; [exact Ha|]. split; [exact Hf|].
  destruct (proj2 (compute_step_size_spec "squared" 1%Qc 1%Qc (Q2Qc 4)) Hn Ha Hf)
    as (s_log & s_sq & Hlog & Hsq & _ & _ & Hpos & Hle & _).
  exists s_log, s_sq. split; [exact Hlog|]. split; [exact Hsq|]. split; [exact Hpos|exact Hle].
Defined.

(** * [prox_L1] as a contraction *)

Section ProxL1Contraction.
Local Open Scope Qc_scope.

Lemma soft_threshold_nonexpansive s a c :
  0 <= s -> qabs (soft_threshold s a - soft_threshold s c) <= qabs (a - c).
Proof.
  intros Hs. unfold soft_threshold, fmax, qabs. repeat case_decide; qc_lra.
Qed.

Lemma soft_threshold_shrinks s a : 0 <= s -> qabs (soft_threshold s a) <= qabs a.
Proof.
  intros Hs. unfold soft_threshold, fmax, qabs. repeat case_decide; qc_lra.
Qed.

Lemma f_L1_cons a x : f_L1 (a :: x) = qabs a + f_L1 x.
Proof. unfold f_L1. by rewrite fmap_cons, sum_cons. Qed.

(** X26.  With a step size that is not negative, [prox_L1] is a
    contraction towards zero: entry by entry, two arrays are at most as far
    apart after it as before, no entry grows in absolute value, and applied
    to a whole array it does not increase [f_L1]. *)
Theorem prox_L1_contracts s (u v : list Qc) low high :
  0 <= s ->
  (forall j,
     qabs (prox_L1 s u low high !!! j - prox_L1 s v low high !!! j)
     <= qabs (u !!! j - v !!! j))
  /\ (forall j, qabs (prox_L1 s u low high !!! j) <= qabs (u !!! j))
  /\ f_L1 (prox_L1 s u 0 (length u)) <= f_L1 u.
Proof.
  intros Hs. split; [|split].
  - intros j. rewrite !prox_L1_lookup. case_decide.
    + by apply soft_threshold_nonexpansive.
    + apply Qcle_refl.
  - intros j. rewrite prox_L1_lookup. case_decide.
    + by apply soft_threshold_shrinks.
    + apply Qcle_refl.
  - rewrite prox_L1_full. induction u as [|a u IH]; [apply Qcle_refl|].
    rewrite fmap_cons, !f_L1_cons.
    pose proof (soft_threshold_shrinks s a Hs) as Ha.
    set (p := qabs (soft_threshold s a)) in *. set (q := qabs a) in *.
    set (r1 := f_L1 (soft_threshold s <$> u)) in *. set (r2 := f_L1 u) in *.
    clearbody p q r1 r2. qc_lra.
Qed.

Lemma prox_L1_contracts_witness :
  0 <= 1
  /\ qabs (prox_L1 1 [Q2Qc 3; 0] 0 2 !!! 0%nat) <= qabs ([Q2Qc 3; 0] !!! 0%nat).
Proof.
  assert (0 <= 1) as Hs by (vm_compute; discriminate).
  split; [exact Hs|].
  exact (proj1 (proj2 (prox_L1_contracts 1 [Q2Qc 3; 0] [Q2Qc 3; 0] 0 2 Hs)) 0%nat).
Defined.
End ProxL1Contraction.

(** * PSSAGA with no first proximal term *)

Section PssagaDefaultG.
Local Open Scope Qc_scope.
Variable f_prime : Qc -> Qc -> Qc.
Variable h_prox : prox.
Variable h_blocks : list nat.
Variable A : csr_matrix.
Variable b : list Qc.
Variables alpha beta gamma step : Qc.

Let BS_ptr := PSSAGA.BS_h_indptr h_blocks A.
Let BS_ind := PSSAGA.BS_h_indices h_blocks A.
Let RB := PSSAGA.RB_h_indptr h_blocks A.

Let in_block (h_j j : nat) : Prop :=
  (RB !!! (BS_ind !!! h_j) <= j < RB !!! (BS_ind !!! h_j + 1))%nat.

Lemma copy_range (c : list Qc) ks : forall (l : list Qc) j,
  length (foldl (fun l k => <[k := c !!! k]> l) l ks) = length l
  /\ foldl (fun l k => <[k := c !!! k]> l) l ks !!! j
     = if decide (j ∈ ks /\ (j < length l)%nat) then c !!! j else l !!! j.
Proof.
  induction ks as [|k ks IH]; intros l j.
  - split; [done|]. rewrite decide_False; [done|]. by intros [?%elem_of_nil _].
  - cbn [foldl]. destruct (IH (<[k := c !!! k]> l) j) as [Hlen Hlook].
    rewrite Hlen, Hlook, length_insert. split; [done|].
    destruct (decide (j ∈ ks /\ (j < length l)%nat)) as [[Hin Hj]|Hn].
    + rewrite decide_True; [done|]. split; [by right|done].
    + destruct (decide (k = j)) as [->|Hne].
      * destruct (decide (j < length l)%nat) as [Hj|Hj].
        -- rewrite decide_True by (split; [left|done]).
           by rewrite list_lookup_total_insert_eq.
        -- rewrite decide_False by tauto. by rewrite list_insert_ge by lia.
      * rewrite list_lookup_total_insert_ne by done.
        rewrite decide_False; [done|]. intros [[?|?]%elem_of_cons ?]; [done|tauto].
Qed.

Lemma default_g_block s h_j j :
  let s' := PSSAGA.prox_g_block FminPSSAGA.default_g_prox h_blocks A beta step s h_j in
  PSSAGA.y s' = PSSAGA.y s
  /\ length (PSSAGA.x s') = length (PSSAGA.x s)
  /\ PSSAGA.x s' !!! j
     = if decide (in_block h_j j /\ (j < length (PSSAGA.x s))%nat)
       then PSSAGA.y s !!! j else PSSAGA.x s !!! j.
Proof.
  cbv zeta. unfold PSSAGA.prox_g_block, FminPSSAGA.default_g_prox. fold BS_ind RB.
  cbn [PSSAGA.y PSSAGA.x].
  destruct (copy_range (PSSAGA.y s)
              (Np.range (RB !!! (BS_ind !!! h_j)) (RB !!! (BS_ind !!! h_j + 1)%nat))
              (PSSAGA.x s) j) as [Hlen Hlook].
  split; [done|]. split; [exact Hlen|]. rewrite Hlook.
  unfold in_block. destruct (decide (_ ∈ _ /\ _)) as [[Hin Hj]|Hn].
  - rewrite decide_True; [done|]. split; [|done]. by apply range_elem.
  - rewrite decide_False; [done|]. intros [Hin Hj]. apply Hn. split; [|done].
    by apply range_elem.
Qed.

Lemma default_g_blocks j ks : forall s,
  let s' := foldl (PSSAGA.prox_g_block FminPSSAGA.default_g_prox h_blocks A beta step)
              s ks in
  PSSAGA.y s' = PSSAGA.y s
  /\ length (PSSAGA.x s') = length (PSSAGA.x s)
  /\ ((exists h_j, h_j ∈ ks /\ in_block h_j j) -> (j < length (PSSAGA.x s))%nat ->
      PSSAGA.x s' !!! j = PSSAGA.y s !!! j)
  /\ ((forall h_j, h_j ∈ ks -> ~ in_block h_j j) ->
      PSSAGA.x s' !!! j = PSSAGA.x s !!! j).
Proof.
  induction ks as [|k ks IH]; intros s; cbv zeta.
  - split; [done|]. split; [done|]. split; [|done].
    by intros (h_j & ?%elem_of_nil & _).
  - cbn [foldl].
    destruct (IH (PSSAGA.prox_g_block FminPSSAGA.default_g_prox h_blocks A beta step s k))
      as (Hy & Hlen & Hin & Hout).
    destruct (default_g_block s k j) as (Hy1 & Hlen1 & Hx1).
    cbv zeta in *. rewrite Hy, Hlen, Hy1, Hlen1.
    split; [done|]. split; [done|]. split.
    + intros (h_j & Hh & Hb) Hj.
      destruct (decide (Exists (fun h_j => in_block h_j j) ks)) as [Hex|Hnex].
      * apply Exists_exists in Hex as (h' & Hh' & Hb').
        rewrite Hin; [by rewrite Hy1| by exists h' |by rewrite Hlen1].
      * rewrite Hout.
        2:{ intros h' Hh' Hb'. apply Hnex, Exists_exists. by exists h'. }
        rewrite Hx1. apply elem_of_cons in Hh as [->|Hh].
        -- by rewrite decide_True.
        -- exfalso. apply Hnex, Exists_exists. by exists h_j.
    + intros Hnone. rewrite Hout by (intros h' Hh'; apply Hnone; by right).
      rewrite Hx1. rewrite decide_False; [done|].
      intros [Hb _]. apply (Hnone k); [left|done].
Qed.

Lemma prox_h_blocks_keep_x ks : forall s,
  PSSAGA.x (foldl (PSSAGA.prox_h_block h_prox h_blocks A alpha gamma step) s ks)
  = PSSAGA.x s.
Proof.
  induction ks as [|k ks IH]; intros s; [done|].
  cbn [foldl]. by rewrite IH.
Qed.

(** X27.  With [g_prox] omitted and a block assignment with one id per
    feature, a pass of the PSSAGA kernel on sample [i] copies [y] into [x]
    on the blocks of the row: at every feature in the range of a block
    listed for row [i], [x] ends with the value that [y] had when the pass
    began, and at every other feature [x] is unchanged; [x] keeps its
    size. *)
Theorem pssaga_default_g_prox_copies (s : PSSAGA.state) (i j : nat) :
  length h_blocks = snd (shape A) ->
  let touched :=
    exists h_j, h_j ∈ Np.range (BS_ptr !!! i) (BS_ptr !!! (i + 1)%nat) /\ in_block h_j j in
  let s' := PSSAGA.sample_update f_prime FminPSSAGA.default_g_prox h_prox h_blocks A b
              alpha beta gamma step s i in
  length (PSSAGA.x s') = length (PSSAGA.x s)
  /\ (touched -> (j < length (PSSAGA.x s))%nat -> PSSAGA.x s' !!! j = PSSAGA.y s !!! j)
  /\ (~ touched -> PSSAGA.x s' !!! j = PSSAGA.x s !!! j).
Proof.
  intros _. cbv zeta. unfold PSSAGA.sample_update. fold BS_ptr. cbv zeta. cbn [PSSAGA.x].
  rewrite prox_h_blocks_keep_x. cbn [PSSAGA.x].
  destruct (default_g_blocks j (Np.range (BS_ptr !!! i) (BS_ptr !!! (i + 1)%nat)) s)
    as (_ & Hlen & Hin & Hout).
  cbv zeta in *. split; [exact Hlen|]. split; [exact Hin|].
  intros Hn. apply Hout. intros h_j Hh Hb. apply Hn. by exists h_j.
Qed.
End PssagaDefaultG.

Section PssagaDefaultGWitness.
Import Examples.

(** On the identity matrix with one block per feature, the pass on sample
    [0] copies [y[0]] into [x[0]] and leaves [x[1]] as it is. *)
Lemma pssaga_default_g_prox_copies_witness :
  length [0; 1] = snd (shape I2)
  /\ let s := {| PSSAGA.y := [1; 1]%Qc; PSSAGA.x := [0; 0]%Qc; PSSAGA.z := [0; 0]%Qc;
                 PSSAGA.memory_gradient := Np.zeros 2;
                 PSSAGA.gradient_average := Np.zeros 2;
                 PSSAGA.grad_est := Np.zeros 2 |} in
     let s' := PSSAGA.sample_update deriv_squared FminPSSAGA.default_g_prox
                 FminPSSAGA.default_h_prox [0; 1] I2 [1; 1]%Qc 0%Qc 0%Qc 0%Qc half s 0 in
     PSSAGA.x s' !!! 0 = 1%Qc /\ PSSAGA.x s' !!! 1 = 0%Qc.
Proof.
  assert (length [0; 1] = snd (shape I2)) as Hlen by reflexivity.
  split; [exact Hlen|]. intros s s'. split.
  - pose proof (pssaga_default_g_prox_copies deriv_squared FminPSSAGA.default_h_prox
                  [0; 1] I2 [1; 1]%Qc 0%Qc 0%Qc 0%Qc half s 0 0 Hlen) as H.
    cbv zeta in H. destruct H as (_ & Hin & _). apply Hin; [|cbn; lia].
    exists 0. split; [vm_compute; left|vm_compute; lia].
  - pose proof (pssaga_default_g_prox_copies deriv_squared FminPSSAGA.default_h_prox
                  [0; 1] I2 [1; 1]%Qc 0%Qc 0%Qc 0%Qc half s 0 1 Hlen) as H.
    cbv zeta in H. destruct H as (_ & _ & Hout). apply Hout.
    intros (h_j & Hin & Hr). vm_compute in Hin. apply list_elem_of_singleton in Hin.
    subst h_j. vm_compute in Hr. lia.
Defined.
End PssagaDefaultGWitness.

